(** * libyang: typed-value decoding, data-tree checks and schema statements

    A shallow embedding of the functions of [src/parser_xml.c] (the XML
    data parser: [validate_length_range], [validate_pattern], [parse_int],
    [parse_uint], [get_next_union_type], [_xml_get_value], [xml_parse_data])
    and of [src/parser_yang.c] ([yang_fill_import], [yang_read_revision]),
    with the properties the specification states about them.

    Conventions of the embedding:
    - a C string is a [string]; the terminating NUL is implicit, a [char *]
      that may be NULL is an [option string];
    - a function returning [EXIT_SUCCESS]/[EXIT_FAILURE] returns an
      [outcome]; the code handed to [LOGVAL] at the failure site is carried
      by [EXIT_FAILURE];
    - behaviour the C standard leaves undefined (a NULL dereference, a read
      outside an array) is the outcome [UNDEFINED];
    - loops whose termination is not evident take fuel and answer [TIMEOUT]
      when it runs out;
    - objects compared by address in the C code carry their address;
    - [ly_errno] is not a variable of the model: a call that fails is taken
      to leave it set, as [LOGVAL] with a line number does, and a warning
      or a [LOGVAL] silenced with the line [UINT_MAX] to leave it as it
      was, so that [if (ly_errno)] after a call tests whether the call
      failed. *)

From Stdlib Require Import ZArith List String Ascii Bool Lia QArith Arith.
From Stdlib Require Import Permutation OrdersEx.
From Equations Require Import Equations.
Import ListNotations.

Local Open Scope string_scope.
Local Open Scope list_scope.
Local Open Scope Z_scope.

Set Warnings "-register-all".

(* ===================================================================== *)
(** * The C library functions the parsers call *)
(* ===================================================================== *)

Module Libc.

(** [isspace] and [isdigit] in the "C" locale. *)
Definition isspace (c : ascii) : bool :=
  let n := Z.of_N (N_of_ascii c) in (n =? 32) || ((9 <=? n) && (n <=? 13)).

Definition isdigit (c : ascii) : bool :=
  let n := Z.of_N (N_of_ascii c) in (48 <=? n) && (n <=? 57).

(** [str[k]]: the character at index [k], the terminating NUL at the end. *)
Definition char_at (s : string) (k : nat) : ascii :=
  match String.get k s with Some c => c | None => zero end.

(** [strcmp]: bytes are compared as unsigned characters. *)
Definition strcmp (s1 s2 : string) : comparison := String.compare s1 s2.

(** [strncmp(s1, s2, n)]. *)
Fixpoint strncmp (s1 s2 : string) (n : nat) : comparison :=
  match n with
  | O => Eq
  | S n' =>
      match s1, s2 with
      | EmptyString, EmptyString => Eq
      | EmptyString, String _ _ => Lt
      | String _ _, EmptyString => Gt
      | String c1 r1, String c2 r2 =>
          match Ascii.compare c1 c2 with
          | Eq => strncmp r1 r2 n'
          | o => o
          end
      end
  end.

(** Skipping white space: the loop [while isspace(p[0]) do ++p]. *)
Fixpoint skip_space (s : string) : string :=
  match s with
  | String c r => if isspace c then skip_space r else s
  | EmptyString => s
  end.

(** ** [strtoll] and [strtoull] (ISO C 7.22.1.4)

    The subject sequence is: optional white space, an optional sign, with
    base 0 or 16 an optional [0x]/[0X], and the longest run of digits of
    the base.  Base 0 picks 16 after [0x], 8 after a leading [0], else 10. *)

Definition digit_value (c : ascii) : option Z :=
  let n := Z.of_N (N_of_ascii c) in
  if (48 <=? n) && (n <=? 57) then Some (n - 48)
  else if (97 <=? n) && (n <=? 122) then Some (n - 87)
  else if (65 <=? n) && (n <=? 90) then Some (n - 55)
  else None.

Definition in_base (base : Z) (c : ascii) : option Z :=
  match digit_value c with
  | Some d => if d <? base then Some d else None
  | None => None
  end.

Fixpoint digits (base : Z) (s : string) (acc : Z) : Z * string :=
  match s with
  | String c r =>
      match in_base base c with
      | Some d => digits base r (acc * base + d)
      | None => (acc, s)
      end
  | EmptyString => (acc, s)
  end.

Definition is_x (c : ascii) : bool :=
  (Ascii.eqb c "x" || Ascii.eqb c "X")%char.

(** The text after a [0x] prefix, when the prefix is followed by a
    hexadecimal digit. *)
Definition hex_prefix (s : string) : option string :=
  match s with
  | String "0" (String x (String h r)) =>
      if is_x x then
        match in_base 16 h with Some _ => Some (String h r) | None => None end
      else None
  | _ => None
  end.

(** Sign, magnitude and the text after the subject sequence; [None] when no
    conversion can be performed. *)
Definition subject (base : Z) (nptr : string) : option (bool * Z * string) :=
  let s1 := skip_space nptr in
  let '(neg, s2) :=
    match s1 with
    | String "-" r => (true, r)
    | String "+" r => (false, r)
    | _ => (false, s1)
    end in
  let '(b, s3) :=
    if base =? 0 then
      match hex_prefix s2 with
      | Some r => (16, r)
      | None => match s2 with String "0" _ => (8, s2) | _ => (10, s2) end
      end
    else if base =? 16 then
      match hex_prefix s2 with Some r => (16, r) | None => (16, s2) end
    else (base, s2) in
  match s3 with
  | String c _ =>
      match in_base b c with
      | Some _ => let '(v, rest) := digits b s3 0 in Some (neg, v, rest)
      | None => None
      end
  | EmptyString => None
  end.

Definition LLONG_MAX : Z := 9223372036854775807.
Definition LLONG_MIN : Z := -9223372036854775807 - 1.
Definition ULLONG_MAX : Z := 18446744073709551615.

(** The converted value, the text [endptr] is left pointing at, and whether
    [errno] was set (to [ERANGE]). *)
Record strto_result : Type :=
  { st_value : Z; st_endptr : string; st_errno : bool }.

Definition strtoll (nptr : string) (base : Z) : strto_result :=
  match subject base nptr with
  | None => {| st_value := 0; st_endptr := nptr; st_errno := false |}
  | Some (neg, v, rest) =>
      let x := if neg : bool then - v else v in
      if x >? LLONG_MAX then
        {| st_value := LLONG_MAX; st_endptr := rest; st_errno := true |}
      else if x <? LLONG_MIN then
        {| st_value := LLONG_MIN; st_endptr := rest; st_errno := true |}
      else {| st_value := x; st_endptr := rest; st_errno := false |}
  end.

Definition strtoull (nptr : string) (base : Z) : strto_result :=
  match subject base nptr with
  | None => {| st_value := 0; st_endptr := nptr; st_errno := false |}
  | Some (neg, v, rest) =>
      if v >? ULLONG_MAX then
        {| st_value := ULLONG_MAX; st_endptr := rest; st_errno := true |}
      else
        {| st_value := if neg : bool then (- v) mod (ULLONG_MAX + 1) else v;
           st_endptr := rest; st_errno := false |}
  end.

End Libc.

(* ===================================================================== *)
(** * Diagnostics and results *)
(* ===================================================================== *)

(** The validation error codes handed to [LOGVAL] by the two parsers;
    [LYE_INT] stands for [LOGINT]. *)
Inductive LY_ECODE : Type :=
| LYE_XML_MISS | LYE_INELEM | LYE_INATTR | LYE_MISSATTR | LYE_TOOMANY
| LYE_INARG | LYE_INVAL | LYE_OORVAL | LYE_INCHAR | LYE_MISSELEM
| LYE_DUPLEAFLIST | LYE_DUPLIST | LYE_MCASEDATA | LYE_SPEC | LYE_INT.

Inductive outcome (A : Type) : Type :=
| EXIT_SUCCESS (a : A)
| EXIT_FAILURE (e : option LY_ECODE)
| UNDEFINED
| TIMEOUT.

Arguments EXIT_SUCCESS {A} a.
Arguments EXIT_FAILURE {A} e.
Arguments UNDEFINED {A}.
Arguments TIMEOUT {A}.

(** Sequencing of fallible steps: the first step that does not succeed
    decides the result. *)
Definition bind {A B : Type} (m : outcome A) (k : A -> outcome B) : outcome B :=
  match m with
  | EXIT_SUCCESS a => k a
  | EXIT_FAILURE e => EXIT_FAILURE e
  | UNDEFINED => UNDEFINED
  | TIMEOUT => TIMEOUT
  end.

Declare Scope outcome_scope.
Delimit Scope outcome_scope with outcome.
Notation "x <- m ;; k" := (bind m (fun x => k))
  (at level 61, m at next level, right associativity) : outcome_scope.
Notation "m ;;; k" := (bind m (fun _ => k))
  (at level 61, right associativity) : outcome_scope.

(** [LOGVAL(code, ...)] followed by [return EXIT_FAILURE], inside
    [if (log)]. *)
Definition fail_log {A : Type} (log : bool) (code : LY_ECODE) : outcome A :=
  EXIT_FAILURE (if log then Some code else None).

(* ===================================================================== *)
(** * parser_xml.c: the schema types a leaf value is decoded against *)
(* ===================================================================== *)

Module ParserXml.
Import Libc.

(** [LY_DATA_TYPE]: the built-in base of a type. *)
Inductive LY_DATA_TYPE : Type :=
| LY_TYPE_DER | LY_TYPE_BINARY | LY_TYPE_BITS | LY_TYPE_BOOL | LY_TYPE_DEC64
| LY_TYPE_EMPTY | LY_TYPE_ENUM | LY_TYPE_IDENT | LY_TYPE_INST
| LY_TYPE_LEAFREF | LY_TYPE_STRING | LY_TYPE_UNION
| LY_TYPE_INT8 | LY_TYPE_UINT8 | LY_TYPE_INT16 | LY_TYPE_UINT16
| LY_TYPE_INT32 | LY_TYPE_UINT32 | LY_TYPE_INT64 | LY_TYPE_UINT64.

Definition LY_DATA_TYPE_eqb (a b : LY_DATA_TYPE) : bool :=
  match a, b with
  | LY_TYPE_DER, LY_TYPE_DER | LY_TYPE_BINARY, LY_TYPE_BINARY
  | LY_TYPE_BITS, LY_TYPE_BITS | LY_TYPE_BOOL, LY_TYPE_BOOL
  | LY_TYPE_DEC64, LY_TYPE_DEC64 | LY_TYPE_EMPTY, LY_TYPE_EMPTY
  | LY_TYPE_ENUM, LY_TYPE_ENUM | LY_TYPE_IDENT, LY_TYPE_IDENT
  | LY_TYPE_INST, LY_TYPE_INST | LY_TYPE_LEAFREF, LY_TYPE_LEAFREF
  | LY_TYPE_STRING, LY_TYPE_STRING | LY_TYPE_UNION, LY_TYPE_UNION
  | LY_TYPE_INT8, LY_TYPE_INT8 | LY_TYPE_UINT8, LY_TYPE_UINT8
  | LY_TYPE_INT16, LY_TYPE_INT16 | LY_TYPE_UINT16, LY_TYPE_UINT16
  | LY_TYPE_INT32, LY_TYPE_INT32 | LY_TYPE_UINT32, LY_TYPE_UINT32
  | LY_TYPE_INT64, LY_TYPE_INT64 | LY_TYPE_UINT64, LY_TYPE_UINT64 => true
  | _, _ => false
  end.

Record lys_type_bit : Type := { bit_name : string; bit_pos : Z }.
Record lys_type_enum : Type := { enm_name : string; enm_value : Z }.
Record lys_ident : Type := { ident_name : string; ident_module : string }.

(** [struct lys_type].  [type_addr] is the address of the object (types are
    compared by address in [get_next_union_type]); [der] is the type of the
    typedef the type derives from, [type->der->type], absent for the type
    of a built-in typedef; [info] holds what the type statement itself
    states, nothing for a derived type without substatements. *)
Inductive lys_type : Type :=
| Lys_type (type_addr : positive) (base : LY_DATA_TYPE)
           (der : option lys_type) (info : lys_type_info)
with lys_type_info : Type :=
| info_none
| info_binary (length : option string)
| info_bits (bit : list lys_type_bit)
| info_dec64 (dig : Z)
| info_enums (enm : list lys_type_enum)
| info_ident (ref : lys_ident)
| info_lref (target : lys_type)
| info_str (length : option string) (patterns : list string)
| info_uni (types : list lys_type).

Definition type_addr (t : lys_type) : positive :=
  match t with Lys_type a _ _ _ => a end.
Definition base (t : lys_type) : LY_DATA_TYPE :=
  match t with Lys_type _ b _ _ => b end.
Definition der (t : lys_type) : option lys_type :=
  match t with Lys_type _ _ d _ => d end.
Definition info (t : lys_type) : lys_type_info :=
  match t with Lys_type _ _ _ i => i end.

(** [info.bits.bit], [info.bits.count] and their likes, read from a type
    whose statement has no such substatement: the zeroed array. *)
Definition info_bits_bit (t : lys_type) : list lys_type_bit :=
  match info t with info_bits l => l | _ => [] end.
Definition info_enums_enm (t : lys_type) : list lys_type_enum :=
  match info t with info_enums l => l | _ => [] end.
Definition info_dec64_dig (t : lys_type) : Z :=
  match info t with info_dec64 d => d | _ => 0 end.
Definition info_str_patterns (t : lys_type) : list string :=
  match info t with info_str _ p => p | _ => [] end.
Definition info_str_length (t : lys_type) : option string :=
  match info t with info_str l _ => l | _ => None end.
Definition info_binary_length (t : lys_type) : option string :=
  match info t with info_binary l => l | _ => None end.

(** The loop [for (type = node_type; type->der->type.der; type =
    &type->der->type);] that finds the type carrying the bit, enum or
    fraction-digits definitions.  [None]: [type->der] is NULL and is
    dereferenced. *)
Fixpoint locate_definitions (type : lys_type) : option lys_type :=
  match type with
  | Lys_type _ _ None _ => None
  | Lys_type _ _ (Some d) _ =>
      match d with
      | Lys_type _ _ None _ => Some type
      | Lys_type _ _ (Some _) _ => locate_definitions d
      end
  end.

(** ** Ranges and lengths *)

(** [struct len_ran_intv]: one interval, in the member of the value union
    that matches the kind of the restricted type. *)
Inductive len_ran_intv : Type :=
| uval (min max : Z)
| sval (min max : Z)
| fval (min max : Q).

Definition Qlt_bool (a b : Q) : bool := negb (Qle_bool b a).

(** The first test of the loop body: the value lies below the interval. *)
Definition below_intv (kind : Z) (unum snum : Z) (fnum : Q)
    (tmp_intv : len_ran_intv) : bool :=
  match tmp_intv with
  | uval min _ => (kind =? 0) && (unum <? min)
  | sval min _ => (kind =? 1) && (snum <? min)
  | fval min _ => (kind =? 2) && Qlt_bool fnum min
  end.

(** The second test: the value lies in the interval. *)
Definition inside_intv (kind : Z) (unum snum : Z) (fnum : Q)
    (tmp_intv : len_ran_intv) : bool :=
  match tmp_intv with
  | uval min max => (kind =? 0) && (min <=? unum) && (unum <=? max)
  | sval min max => (kind =? 1) && (min <=? snum) && (snum <=? max)
  | fval min max => (kind =? 2) && Qle_bool min fnum && Qle_bool fnum max
  end.

(** The [for] loop of [validate_length_range]; [true] when it leaves
    [ret == EXIT_SUCCESS]. *)
Fixpoint intv_loop (kind : Z) (unum snum : Z) (fnum : Q)
    (intv : list len_ran_intv) : bool :=
  match intv with
  | [] => false
  | tmp_intv :: next =>
      if below_intv kind unum snum fnum tmp_intv then false
      else if inside_intv kind unum snum fnum tmp_intv then true
      else intv_loop kind unum snum fnum next
  end.

Section Decoder.

(** [resolve_len_ran_interval(NULL, type, 0, &intv)] of resolve.c: the
    intervals the restrictions of [type] and of its ancestors leave, [None]
    when it fails. *)
Variable resolve_len_ran_interval : lys_type -> option (list len_ran_intv).

(** [regcomp] with [REG_EXTENDED | REG_NOSUB] ([None]: it does not return
    0) and [regexec] ([true]: it returns 0, the string matches). *)
Variable regex_t : Type.
Variable regcomp : string -> option regex_t.
Variable regexec : regex_t -> string -> bool.

(** [transform_data_xml2json] on the content of the element, with the
    namespaces in scope there and the modules of the context; [None] when
    it returns NULL. *)
Variable transform_data_xml2json : string -> option string.

(** [resolve_identref_json] of resolve.c, NULL as [None]. *)
Variable resolve_identref_json : lys_type_info -> string -> option lys_ident.

Definition validate_length_range (kind : Z) (unum snum : Z) (fnum : Q)
    (type : lys_type) : outcome unit :=
  match resolve_len_ran_interval type with
  | None => EXIT_FAILURE None
  | Some [] => EXIT_SUCCESS tt
  | Some intv =>
      if intv_loop kind unum snum fnum intv then EXIT_SUCCESS tt
      else EXIT_FAILURE (Some LYE_OORVAL)
  end.

(** ** Patterns *)

(** The POSIX expression built from a YANG pattern.  The test for a
    trailing [.*] reads the two characters before the end of the
    expression; for an expression shorter than that it reads in front of
    the string ([None]). *)
Definition posix_regex (expr : string) : option string :=
  let n := String.length expr in
  if (n <? 2)%nat then None
  else
    let pre := match strncmp expr ".*" 2 with Eq => "" | _ => "^" end in
    let post :=
      match strncmp (substring (n - 2)%nat 2 expr) ".*" 2 with
      | Eq => ""
      | _ => "$"
      end in
    Some (pre ++ expr ++ post)%string.

(** The [for] loop over the patterns of one type. *)
Fixpoint patterns_loop (str : option string) (patterns : list string)
    (log : bool) : outcome unit :=
  match patterns with
  | [] => EXIT_SUCCESS tt
  | expr :: rest =>
      match posix_regex expr with
      | None => UNDEFINED
      | Some re =>
          match regcomp re with
          | None => EXIT_FAILURE (Some LYE_INT)
          | Some preq =>
              match str with
              | None => UNDEFINED
              | Some s =>
                  if regexec preq s then patterns_loop str rest log
                  else fail_log log LYE_INVAL
              end
          end
      end
  end.

(** [validate_pattern]: the patterns of the ancestors first, then the
    type's own.  The [assert] on the base failing is [UNDEFINED]. *)
Fixpoint validate_pattern (str : option string) (type : lys_type)
    (log : bool) : outcome unit :=
  match type with
  | Lys_type _ b d i =>
      if negb (LY_DATA_TYPE_eqb b LY_TYPE_STRING) then UNDEFINED
      else
        let own :=
          patterns_loop str
            (match i with info_str _ p => p | _ => [] end) log in
        match d with
        | Some dt =>
            match validate_pattern str dt log with
            | EXIT_SUCCESS _ => own
            | r => r
            end
        | None => own
        end
  end.

(** ** Integers *)

Definition parse_int (str_val : option string) (min max : Z) (base : Z)
    (log : bool) : outcome Z :=
  match str_val with
  | None => UNDEFINED
  | Some s =>
      let r := strtoll s base in
      if st_errno r || (st_value r <? min) || (st_value r >? max)
      then fail_log log LYE_OORVAL
      else
        match skip_space (st_endptr r) with
        | EmptyString => EXIT_SUCCESS (st_value r)
        | String _ _ => fail_log log LYE_INVAL
        end
  end.

Definition parse_uint (str_val : option string) (max : Z) (base : Z)
    (log : bool) : outcome Z :=
  match str_val with
  | None => UNDEFINED
  | Some s =>
      let r := strtoull s base in
      if st_errno r || (st_value r >? max)
      then fail_log log LYE_OORVAL
      else
        match skip_space (st_endptr r) with
        | EmptyString => EXIT_SUCCESS (st_value r)
        | String _ _ => fail_log log LYE_INVAL
        end
  end.

(** ** Unions *)

(** [get_next_union_type(type, prev_type, found)]: the returned type and
    the final [*found].  [prev_type] is the address of the alternative
    tried last, [None] for NULL. *)
Fixpoint get_next_union_type (type : lys_type) (prev_type : option positive)
    (found : bool) {struct type} : option lys_type * bool :=
  match type with
  | Lys_type _ _ d i =>
      let fix for_types (types : list lys_type) (found : bool)
          {struct types} : option lys_type * bool :=
        match types with
        | [] => (None, found)
        | t :: rest =>
            if LY_DATA_TYPE_eqb (base t) LY_TYPE_UNION then
              match get_next_union_type t prev_type found with
              | (Some ret, found') => (Some ret, found')
              | (None, found') => for_types rest found'
              end
            else
              match prev_type with
              | None => (Some t, found)
              | Some prev =>
                  if found then (Some t, found)
                  else if Pos.eqb (type_addr t) prev then for_types rest true
                  else for_types rest found
              end
        end in
      let '(ret, found) :=
        match i with
        | info_uni types => for_types types found
        | _ => (None, found)
        end in
      match ret, d with
      | None, Some dt => get_next_union_type dt prev_type found
      | _, _ => (ret, found)
      end
  end.

(** ** The state of a leaf being decoded *)

(** The option flags of the parser that the code tests. *)
Record lyd_options : Type :=
  { LYD_OPT_FILTER : bool; LYD_OPT_EDIT : bool; LYD_OPT_STRICT : bool }.

(** [leaf->value]: the member written last; [val_zero] is the storage as
    [calloc] leaves it, which every member reads as 0 or NULL. *)
Inductive lyd_val : Type :=
| val_zero
| val_binary (s : option string)
| val_bit (b : list (option lys_type_bit))
| val_bool (b : bool)
| val_dec64 (n : Z)
| val_enm (e : lys_type_enum)
| val_ident (i : option lys_ident)
| val_string (s : option string)
| val_int8 (n : Z) | val_int16 (n : Z) | val_int32 (n : Z) | val_int64 (n : Z)
| val_uint8 (n : Z) | val_uint16 (n : Z) | val_uint32 (n : Z)
| val_uint64 (n : Z).

(** [leaf->value_type]: a base, or-ed with the two "unresolved" flags. *)
Record lyd_value_type : Type :=
  { vt_base : LY_DATA_TYPE;
    LY_TYPE_LEAFREF_UNRES : bool;
    LY_TYPE_INST_UNRES : bool }.

Definition plain (b : LY_DATA_TYPE) : lyd_value_type :=
  {| vt_base := b; LY_TYPE_LEAFREF_UNRES := false;
     LY_TYPE_INST_UNRES := false |}.

(** [struct lyd_node_leaf], with the type of its schema node. *)
Record lyd_node_leaf : Type :=
  { schema_type : lys_type;
    value_str : option string;
    value_type : lyd_value_type;
    value : lyd_val }.

Definition set_value_str (leaf : lyd_node_leaf) (s : option string) :=
  {| schema_type := schema_type leaf; value_str := s;
     value_type := value_type leaf; value := value leaf |}.
Definition set_value_type (leaf : lyd_node_leaf) (t : lyd_value_type) :=
  {| schema_type := schema_type leaf; value_str := value_str leaf;
     value_type := t; value := value leaf |}.
Definition set_value (leaf : lyd_node_leaf) (v : lyd_val) :=
  {| schema_type := schema_type leaf; value_str := value_str leaf;
     value_type := value_type leaf; value := v |}.

(** [struct unres_data]: the lexical values of the leaves queued for the
    later resolution of leafrefs and instance-identifiers. *)
Definition unres_data : Type := list (option string).

(** What a run of the decoder leaves behind (the leaf is changed in place,
    also when the run fails) and returns. *)
Definition decoded : Type := lyd_node_leaf * unres_data * outcome unit.

(** ** Bits *)

(** The length of the identifier at the head of [s]: the loop
    [for (len = 0; str[c] && !isspace(str[c]); c++, len++);]. *)
Fixpoint identifier_len (s : string) : nat :=
  match s with
  | String c r => if isspace c then O else S (identifier_len r)
  | EmptyString => O
  end.

(** [&str[n]]. *)
Fixpoint string_drop (n : nat) (s : string) : string :=
  match n, s with
  | S n', String _ r => string_drop n' r
  | _, _ => s
  end.

(** [array[i] = x]. *)
Fixpoint set_nth {A : Type} (l : list A) (i : nat) (x : A) : list A :=
  match l, i with
  | [], _ => []
  | _ :: r, O => x :: r
  | a :: r, S i' => a :: set_nth r i' x
  end.

(** The search [for (found = 0; i < count; i++)] over the bit definitions
    from index [i] on ([bit] is the array from that index); the index of
    the definition named by the [len] characters at [str], if any.  The
    test [!name[len]] holds when index [len] of the name is its
    terminating NUL. *)
Fixpoint find_bit (bit : list lys_type_bit) (i : nat) (str : string)
    (len : nat) : option nat :=
  match bit with
  | [] => None
  | b :: rest =>
      match strncmp (bit_name b) str len, String.get len (bit_name b) with
      | Eq, None => Some i
      | _, _ => find_bit rest (S i) str len
      end
  end.

Lemma skip_space_length (s : string) :
  (String.length (skip_space s) <= String.length s)%nat.
Proof.
  induction s as [|c r IH]; simpl; [lia|].
  destruct (isspace c); simpl; lia.
Qed.

Lemma string_drop_length (n : nat) (s : string) :
  (String.length (string_drop n s) <= String.length s)%nat.
Proof.
  revert s; induction n as [|n IH]; intros [|c r]; simpl; try lia.
  specialize (IH r); lia.
Qed.

Lemma bits_loop_decreases (c : ascii) (r : string) :
  (String.length
     (string_drop (identifier_len (skip_space (String c r)))
        (skip_space (String c r))) < String.length (String c r))%nat.
Proof.
  simpl skip_space. destruct (isspace c) eqn:E.
  - pose proof (string_drop_length (identifier_len (skip_space r))
                  (skip_space r)).
    pose proof (skip_space_length r). simpl. lia.
  - simpl identifier_len. rewrite E. simpl.
    pose proof (string_drop_length (identifier_len r) r). lia.
Qed.

(** The [while (leaf->value_str[c])] loop of the bits case: [str] is the
    text from index [c] on, [i] the index into the bit definitions, which
    is never reset, [value_bit] the array [leaf->value.bit]. *)
Equations bits_loop (bit : list lys_type_bit) (str : string) (i : nat)
    (value_bit : list (option lys_type_bit)) (log : bool)
    : list (option lys_type_bit) * outcome unit
    by wf (String.length str) lt :=
bits_loop bit EmptyString i value_bit log := (value_bit, EXIT_SUCCESS tt);
bits_loop bit (String c r) i value_bit log
  with find_bit (skipn i bit) i (skip_space (String c r))
         (identifier_len (skip_space (String c r))) := {
  | None => (value_bit, fail_log log LYE_INVAL);
  | Some k =>
      bits_loop bit
        (string_drop (identifier_len (skip_space (String c r)))
           (skip_space (String c r)))
        (S k) (set_nth value_bit k (nth_error bit k)) log }.
Next Obligation. apply bits_loop_decreases. Qed.

(** ** Decimal64 *)

Definition DECSIZE : Z := 21.

(** The variables of the normalizing loop; [v_dec] holds [dec[0..i-1]]. *)
Record dec_vars : Type :=
  { v_c : Z; v_i : Z; v_j : Z; v_d : Z; v_found : bool; v_dec : string }.

Inductive dec_step : Type :=
| dec_continue (v : dec_vars)
| dec_break (dec : string)
| dec_fail (e : LY_ECODE).

(** One run of the body of [for (i = j = d = found = 0; i < DECSIZE; i++)],
    with the [i++] that follows it. *)
Definition dec64_body (value_str : string) (dig : Z) (v : dec_vars)
    : dec_step :=
  let ch := char_at value_str (Z.to_nat (v_c v + v_i v)) in
  if Ascii.eqb ch "." then
    dec_continue {| v_c := v_c v + 1; v_i := v_i v - 1 + 1; v_j := dig;
                    v_d := v_d v; v_found := true; v_dec := v_dec v |}
  else if Ascii.eqb ch zero then
    let c := v_c v - 1 in
    let j := if v_found v then v_j v else dig in
    if j =? 0 then dec_break (v_dec v)
    else
      let d := v_d v + 1 in
      if d >? DECSIZE - 2 then dec_fail LYE_OORVAL
      else
        dec_continue {| v_c := c; v_i := v_i v + 1; v_j := j - 1; v_d := d;
                        v_found := true;
                        v_dec := (v_dec v ++ String "0" EmptyString)%string |}
  else
    if negb (isdigit ch)
       && (negb (v_i v =? 0)
           || negb (Ascii.eqb (char_at value_str (Z.to_nat (v_c v))) "-"))
    then dec_fail LYE_INVAL
    else
      let d := if isdigit ch then v_d v + 1 else v_d v in
      if (d >? DECSIZE - 2) || (v_found v && (v_j v =? 0))
      then dec_fail LYE_OORVAL
      else
        dec_continue {| v_c := v_c v; v_i := v_i v + 1;
                        v_j := if v_j v =? 0 then v_j v else v_j v - 1;
                        v_d := d; v_found := v_found v;
                        v_dec := (v_dec v ++ String ch EmptyString)%string |}.

(** The loop; leaving it with [i = DECSIZE] leaves [dec] without its
    terminating NUL, and [parse_int] reads past the array. *)
Fixpoint dec64_loop (fuel : nat) (value_str : string) (dig : Z)
    (v : dec_vars) (log : bool) : outcome string :=
  match fuel with
  | O => TIMEOUT
  | S fuel' =>
      if v_i v <? DECSIZE then
        match dec64_body value_str dig v with
        | dec_continue v' => dec64_loop fuel' value_str dig v' log
        | dec_break dec => EXIT_SUCCESS dec
        | dec_fail e => fail_log log e
        end
      else UNDEFINED
  end.

(** The number of leading white-space characters:
    [for (c = 0; isspace(str[c]); c++);]. *)
Fixpoint leading_space (s : string) : nat :=
  match s with
  | String c r => if isspace c then S (leading_space r) else O
  | EmptyString => O
  end.

(** The text of the decimal number, shifted to an integer: everything
    before the call of [parse_int]. *)
Definition dec64_normalize (value_str : string) (dig : Z) (log : bool)
    : outcome string :=
  let c := leading_space value_str in
  let len := identifier_len (string_drop c value_str) in
  if Z.of_nat len >? DECSIZE then fail_log log LYE_INVAL
  else
    dec64_loop 64 value_str dig
      {| v_c := Z.of_nat c; v_i := 0; v_j := 0; v_d := 0; v_found := false;
         v_dec := EmptyString |} log.

(** [((long double)num)/(1 << dig)].  The quotient by a power of two is
    exact in binary floating point, and so is the conversion of [num] when
    the significand has 64 bits. *)
Definition dec64_fnum (num : Z) (dig : Z) : Q :=
  Qmake num (Z.to_pos (Z.shiftl 1 dig)).

(** ** [_xml_get_value] *)

(** The body shared by the signed integer cases: [parse_int], then
    [validate_length_range] of kind 1, then the store. *)
Definition int_case (leaf : lyd_node_leaf) (unres : unres_data)
    (node_type : lys_type) (min max : Z) (store : Z -> lyd_val) (log : bool)
    : decoded :=
  match parse_int (value_str leaf) min max 0 log with
  | EXIT_SUCCESS num =>
      match validate_length_range 1 0 num 0%Q node_type with
      | EXIT_SUCCESS _ => (set_value leaf (store num), unres, EXIT_SUCCESS tt)
      | r => (leaf, unres, r)
      end
  | EXIT_FAILURE e => (leaf, unres, EXIT_FAILURE e)
  | UNDEFINED => (leaf, unres, UNDEFINED)
  | TIMEOUT => (leaf, unres, TIMEOUT)
  end.

(** The body shared by the unsigned integer cases. *)
Definition uint_case (leaf : lyd_node_leaf) (unres : unres_data)
    (node_type : lys_type) (max : Z) (store : Z -> lyd_val) (log : bool)
    : decoded :=
  match parse_uint (value_str leaf) max 0 log with
  | EXIT_SUCCESS unum =>
      match validate_length_range 0 unum 0 0%Q node_type with
      | EXIT_SUCCESS _ => (set_value leaf (store unum), unres, EXIT_SUCCESS tt)
      | r => (leaf, unres, r)
      end
  | EXIT_FAILURE e => (leaf, unres, EXIT_FAILURE e)
  | UNDEFINED => (leaf, unres, UNDEFINED)
  | TIMEOUT => (leaf, unres, TIMEOUT)
  end.

Definition strlen (s : string) : Z := Z.of_nat (String.length s).

Definition case_binary (leaf : lyd_node_leaf) (unres : unres_data)
    (node_type : lys_type) : decoded :=
  let leaf := set_value leaf (val_binary (value_str leaf)) in
  match info_binary_length node_type with
  | None => (leaf, unres, EXIT_SUCCESS tt)
  | Some _ =>
      match value_str leaf with
      | None => (leaf, unres, UNDEFINED)
      | Some s =>
          (leaf, unres, validate_length_range 0 (strlen s) 0 0%Q node_type)
      end
  end.

Definition case_bits (leaf : lyd_node_leaf) (unres : unres_data)
    (node_type : lys_type) (log : bool) : decoded :=
  match locate_definitions node_type with
  | None => (leaf, unres, UNDEFINED)
  | Some type =>
      let bit := info_bits_bit type in
      let leaf := set_value leaf (val_bit (repeat None (List.length bit))) in
      match value_str leaf with
      | None => (leaf, unres, EXIT_SUCCESS tt)
      | Some s =>
          let '(value_bit, r) :=
            bits_loop bit s 0 (repeat None (List.length bit)) log in
          (set_value leaf (val_bit value_bit), unres, r)
      end
  end.

Definition case_bool (leaf : lyd_node_leaf) (unres : unres_data) : decoded :=
  match value_str leaf with
  | None => (leaf, unres, UNDEFINED)
  | Some s =>
      match strcmp s "true" with
      | Eq => (set_value leaf (val_bool true), unres, EXIT_SUCCESS tt)
      | _ => (leaf, unres, EXIT_SUCCESS tt)
      end
  end.

Definition case_dec64 (leaf : lyd_node_leaf) (unres : unres_data)
    (node_type : lys_type) (log : bool) : decoded :=
  match locate_definitions node_type, value_str leaf with
  | None, _ | _, None => (leaf, unres, UNDEFINED)
  | Some type, Some s =>
      let dig := info_dec64_dig type in
      match dec64_normalize s dig log with
      | EXIT_SUCCESS dec =>
          match parse_int (Some dec) LLONG_MIN LLONG_MAX 10 log with
          | EXIT_SUCCESS num =>
              if (0 <=? dig) && (dig <? 31) then
                match validate_length_range 2 0 0 (dec64_fnum num dig)
                        node_type with
                | EXIT_SUCCESS _ =>
                    (set_value leaf (val_dec64 num), unres, EXIT_SUCCESS tt)
                | r => (leaf, unres, r)
                end
              else (leaf, unres, UNDEFINED)
          | EXIT_FAILURE e => (leaf, unres, EXIT_FAILURE e)
          | UNDEFINED => (leaf, unres, UNDEFINED)
          | TIMEOUT => (leaf, unres, TIMEOUT)
          end
      | EXIT_FAILURE e => (leaf, unres, EXIT_FAILURE e)
      | UNDEFINED => (leaf, unres, UNDEFINED)
      | TIMEOUT => (leaf, unres, TIMEOUT)
      end
  end.

Definition case_empty (leaf : lyd_node_leaf) (unres : unres_data)
    (log : bool) : decoded :=
  match value_str leaf with
  | Some (String _ _) => (leaf, unres, fail_log log LYE_INVAL)
  | _ => (leaf, unres, EXIT_SUCCESS tt)
  end.

(** The first enumeration member named [s]. *)
Fixpoint find_enum (enm : list lys_type_enum) (s : string)
    : option lys_type_enum :=
  match enm with
  | [] => None
  | e :: rest =>
      match strcmp s (enm_name e) with
      | Eq => Some e
      | _ => find_enum rest s
      end
  end.

(** The final test reads [leaf->value.enm]: NULL in fresh storage, not
    NULL once an enumeration member was stored; storage last written
    through another member is not interpreted. *)
Definition case_enum (leaf : lyd_node_leaf) (unres : unres_data)
    (node_type : lys_type) (log : bool) : decoded :=
  match value_str leaf with
  | None => (leaf, unres, fail_log log LYE_INVAL)
  | Some s =>
      match locate_definitions node_type with
      | None => (leaf, unres, UNDEFINED)
      | Some type =>
          match find_enum (info_enums_enm type) s with
          | Some e => (set_value leaf (val_enm e), unres, EXIT_SUCCESS tt)
          | None =>
              match value leaf with
              | val_zero => (leaf, unres, fail_log log LYE_INVAL)
              | val_enm _ => (leaf, unres, EXIT_SUCCESS tt)
              | _ => (leaf, unres, UNDEFINED)
              end
          end
      end
  end.

Definition case_ident (leaf : lyd_node_leaf) (unres : unres_data)
    (node_type : lys_type) (log : bool) : decoded :=
  match value_str leaf with
  | None => (leaf, unres, fail_log log LYE_INVAL)
  | Some s =>
      let leaf := set_value_str leaf (transform_data_xml2json s) in
      match value_str leaf with
      | None => (leaf, unres, EXIT_FAILURE None)
      | Some json =>
          let ident := resolve_identref_json (info node_type) json in
          let leaf := set_value leaf (val_ident ident) in
          match ident with
          | None => (leaf, unres, EXIT_FAILURE None)
          | Some _ => (leaf, unres, EXIT_SUCCESS tt)
          end
      end
  end.

Definition case_inst (leaf : lyd_node_leaf) (unres : unres_data)
    (options : lyd_options) (log : bool) : decoded :=
  match value_str leaf with
  | None => (leaf, unres, fail_log log LYE_INVAL)
  | Some s =>
      let leaf := set_value_str leaf (transform_data_xml2json s) in
      match value_str leaf with
      | None => (leaf, unres, EXIT_FAILURE None)
      | Some _ =>
          if LYD_OPT_EDIT options || LYD_OPT_FILTER options then
            (set_value_type leaf
               {| vt_base := vt_base (value_type leaf);
                  LY_TYPE_LEAFREF_UNRES :=
                    LY_TYPE_LEAFREF_UNRES (value_type leaf);
                  LY_TYPE_INST_UNRES := true |},
             unres, EXIT_SUCCESS tt)
          else (leaf, (unres ++ [value_str leaf])%list, EXIT_SUCCESS tt)
      end
  end.

(** The [do ... while] of the edit and filter branch reads the target of
    the leaf's own schema type each time round: it ends at once or never. *)
Definition case_leafref (leaf : lyd_node_leaf) (unres : unres_data)
    (options : lyd_options) (log : bool) : decoded :=
  match value_str leaf with
  | None => (leaf, unres, fail_log log LYE_INVAL)
  | Some s =>
      if LYD_OPT_EDIT options || LYD_OPT_FILTER options then
        match info (schema_type leaf) with
        | info_lref target =>
            if LY_DATA_TYPE_eqb (base target) LY_TYPE_LEAFREF
            then (leaf, unres, TIMEOUT)
            else
              (set_value_type leaf
                 {| vt_base := base target; LY_TYPE_LEAFREF_UNRES := true;
                    LY_TYPE_INST_UNRES := false |},
               unres, EXIT_SUCCESS tt)
        | _ => (leaf, unres, UNDEFINED)
        end
      else (leaf, (unres ++ [value_str leaf])%list, EXIT_SUCCESS tt)
  end.

(** Note the two guards: the length and the patterns are checked only when
    [node_type] itself carries a length, respectively patterns. *)
Definition case_string (leaf : lyd_node_leaf) (unres : unres_data)
    (node_type : lys_type) (log : bool) : decoded :=
  let leaf := set_value leaf (val_string (value_str leaf)) in
  let len :=
    match info_str_length node_type with
    | None => EXIT_SUCCESS tt
    | Some _ =>
        match value_str leaf with
        | None => UNDEFINED
        | Some s => validate_length_range 0 (strlen s) 0 0%Q node_type
        end
    end in
  match len with
  | EXIT_SUCCESS _ =>
      match info_str_patterns node_type with
      | [] => (leaf, unres, EXIT_SUCCESS tt)
      | _ :: _ => (leaf, unres, validate_pattern (value_str leaf) node_type log)
      end
  | r => (leaf, unres, r)
  end.

(** [_xml_get_value(node, node_type, xml, options, unres, log)]; [content]
    is [xml->content] on entry (it is NULL on return).  The loop over the
    alternatives of a union is [union_loop], entered with the alternative
    to try next. *)
Fixpoint _xml_get_value (fuel : nat) (leaf : lyd_node_leaf)
    (node_type : lys_type) (content : option string) (options : lyd_options)
    (unres : unres_data) (log : bool) {struct fuel} : decoded :=
  match fuel with
  | O => (leaf, unres, TIMEOUT)
  | S fuel' =>
      let leaf := set_value_str leaf content in
      let leaf := set_value_type leaf (plain (base node_type)) in
      match LYD_OPT_FILTER options, value_str leaf with
      | true, None => (leaf, unres, EXIT_SUCCESS tt)
      | _, _ =>
          match base node_type with
          | LY_TYPE_BINARY => case_binary leaf unres node_type
          | LY_TYPE_BITS => case_bits leaf unres node_type log
          | LY_TYPE_BOOL => case_bool leaf unres
          | LY_TYPE_DEC64 => case_dec64 leaf unres node_type log
          | LY_TYPE_EMPTY => case_empty leaf unres log
          | LY_TYPE_ENUM => case_enum leaf unres node_type log
          | LY_TYPE_IDENT => case_ident leaf unres node_type log
          | LY_TYPE_INST => case_inst leaf unres options log
          | LY_TYPE_LEAFREF => case_leafref leaf unres options log
          | LY_TYPE_STRING => case_string leaf unres node_type log
          | LY_TYPE_UNION =>
              union_loop fuel' leaf node_type
                (fst (get_next_union_type node_type None false))
                options unres log
          | LY_TYPE_INT8 =>
              int_case leaf unres node_type (-128) 127 val_int8 log
          | LY_TYPE_INT16 =>
              int_case leaf unres node_type (-32768) 32767 val_int16 log
          | LY_TYPE_INT32 =>
              int_case leaf unres node_type (-2147483648) 2147483647
                val_int32 log
          | LY_TYPE_INT64 =>
              int_case leaf unres node_type LLONG_MIN LLONG_MAX val_int64 log
          | LY_TYPE_UINT8 => uint_case leaf unres node_type 255 val_uint8 log
          | LY_TYPE_UINT16 =>
              uint_case leaf unres node_type 65535 val_uint16 log
          | LY_TYPE_UINT32 =>
              uint_case leaf unres node_type 4294967295 val_uint32 log
          | LY_TYPE_UINT64 =>
              uint_case leaf unres node_type ULLONG_MAX val_uint64 log
          | LY_TYPE_DER => (leaf, unres, EXIT_FAILURE None)
          end
      end
  end

with union_loop (fuel : nat) (leaf : lyd_node_leaf) (node_type : lys_type)
    (type : option lys_type) (options : lyd_options) (unres : unres_data)
    (log : bool) {struct fuel} : decoded :=
  match fuel with
  | O => (leaf, unres, TIMEOUT)
  | S fuel' =>
      match type with
      | None => (leaf, unres, fail_log log LYE_INVAL)
      | Some t =>
          match _xml_get_value fuel' leaf t (value_str leaf) options unres
                  false with
          | (leaf', unres', EXIT_SUCCESS _) =>
              (set_value_type leaf' (plain (base t)), unres', EXIT_SUCCESS tt)
          | (leaf', unres', EXIT_FAILURE _) =>
              union_loop fuel' leaf' node_type
                (fst (get_next_union_type node_type (Some (type_addr t))
                        false))
                options unres' log
          | (leaf', unres', r) => (leaf', unres', r)
          end
      end
  end.

(** [xml_get_value]: the leaf against the type of its schema node, with
    logging. *)
Definition xml_get_value (fuel : nat) (leaf : lyd_node_leaf)
    (content : option string) (options : lyd_options) (unres : unres_data)
    : decoded :=
  _xml_get_value fuel leaf (schema_type leaf) content options unres true.

End Decoder.

(** ** The built-in types and some schema fragments used in examples *)

Definition builtin (a : positive) (b : LY_DATA_TYPE) : lys_type :=
  Lys_type a b None info_none.

(** A leaf as [calloc] leaves it, for the schema type [t]. *)
Definition fresh_leaf (t : lys_type) : lyd_node_leaf :=
  {| schema_type := t; value_str := None; value_type := plain LY_TYPE_DER;
     value := val_zero |}.

Definition no_options : lyd_options :=
  {| LYD_OPT_FILTER := false; LYD_OPT_EDIT := false;
     LYD_OPT_STRICT := false |}.

(** Stand-ins for the functions of the other compilation units where an
    example does not reach them. *)
Definition no_restriction : lys_type -> option (list len_ran_intv) :=
  fun _ => Some [].
Definition no_regcomp : string -> option unit := fun _ => None.
Definition no_regexec : unit -> string -> bool := fun _ _ => false.
Definition no_transform : string -> option string := fun s => Some s.
Definition no_identref : lys_type_info -> string -> option lys_ident :=
  fun _ _ => None.

(** * Properties of the decoder *)

Section DecoderFacts.

Variable resolve_len_ran_interval : lys_type -> option (list len_ran_intv).
Variable regex_t : Type.
Variable regcomp : string -> option regex_t.
Variable regexec : regex_t -> string -> bool.
Variable transform_data_xml2json : string -> option string.
Variable resolve_identref_json : lys_type_info -> string -> option lys_ident.

Abbreviation decode :=
  (_xml_get_value resolve_len_ran_interval regex_t regcomp regexec
     transform_data_xml2json resolve_identref_json).

(** *** boolean *)

Lemma case_bool_succeeds (leaf : lyd_node_leaf) (unres : unres_data)
    (s : string) :
  value_str leaf = Some s ->
  case_bool leaf unres =
    (if String.eqb s "true" then set_value leaf (val_bool true) else leaf,
     unres, EXIT_SUCCESS tt).
Proof.
  intros Hs. unfold case_bool, strcmp. rewrite Hs.
  destruct (String.eqb_spec s "true") as [->|Hne].
  - reflexivity.
  - destruct (String.compare s "true") eqn:E; try reflexivity.
    apply String.compare_eq_iff in E. contradiction.
Qed.

(** C2 (the code departs from the claim).  The claim: a boolean leaf
    decodes exactly when its lexical value is "true" or "false", any other
    value fails.  The code compares with "true" only and has no failing
    path: a boolean leaf with any lexical value whatever, "maybe" in
    particular, decodes successfully, and unless the value is "true" the
    stored value is left as it was (it reads as false). *)
Theorem bool_decoding_never_fails :
  forall (a : positive) (d : option lys_type) (i : lys_type_info)
         (fuel : nat) (leaf : lyd_node_leaf) (s : string)
         (options : lyd_options) (unres : unres_data) (log : bool),
    snd (decode (S fuel) leaf (Lys_type a LY_TYPE_BOOL d i) (Some s) options
           unres log) = EXIT_SUCCESS tt
    /\ decode 1 (fresh_leaf (Lys_type a LY_TYPE_BOOL d i))
         (Lys_type a LY_TYPE_BOOL d i) (Some "maybe") options unres log
       = ({| schema_type := Lys_type a LY_TYPE_BOOL d i;
             value_str := Some "maybe";
             value_type := plain LY_TYPE_BOOL;
             value := val_zero |}, unres, EXIT_SUCCESS tt).
Proof.
  intros a d i fuel leaf s options unres log. split.
  - cbn [_xml_get_value base].
    set (l := set_value_type _ _).
    assert (Hs : value_str l = Some s) by reflexivity.
    rewrite Hs.
    replace (match LYD_OPT_FILTER options with
             | true | _ => case_bool l unres end) with (case_bool l unres)
      by (destruct (LYD_OPT_FILTER options); reflexivity).
    rewrite (case_bool_succeeds l unres s Hs). reflexivity.
  - cbn [_xml_get_value base]. cbn.
    destruct (LYD_OPT_FILTER options); reflexivity.
Qed.

(** *** ranges *)

(** An interval holds the value: the second test of the loop. *)
Definition in_intv (kind unum snum : Z) (fnum : Q) (iv : len_ran_intv)
    : Prop :=
  inside_intv kind unum snum fnum iv = true.

(** An interval of the kind of the restricted type, not empty. *)
Definition intv_wf (kind : Z) (iv : len_ran_intv) : Prop :=
  match iv with
  | uval min max => kind = 0 /\ min <= max
  | sval min max => kind = 1 /\ min <= max
  | fval min max => kind = 2 /\ (min <= max)%Q
  end.

(** The first interval ends before the second begins. *)
Definition intv_before (a b : len_ran_intv) : Prop :=
  match a, b with
  | uval _ max, uval min _ => max < min
  | sval _ max, sval min _ => max < min
  | fval _ max, fval min _ => (max < min)%Q
  | _, _ => False
  end.

(** Sorted, pairwise disjoint intervals. *)
Fixpoint intv_sorted (kind : Z) (intv : list len_ran_intv) : Prop :=
  match intv with
  | [] => True
  | a :: rest =>
      intv_wf kind a
      /\ match rest with [] => True | b :: _ => intv_before a b end
      /\ intv_sorted kind rest
  end.

Lemma Qlt_bool_iff (a b : Q) : Qlt_bool a b = true <-> (a < b)%Q.
Proof.
  unfold Qlt_bool. rewrite negb_true_iff. split; intros H.
  - apply Qnot_le_lt. intros Hle. apply Qle_bool_iff in Hle. congruence.
  - destruct (Qle_bool b a) eqn:E; [|reflexivity].
    apply Qle_bool_iff in E. exfalso. exact (Qlt_not_le _ _ H E).
Qed.

(** Boolean tests in hypotheses, as propositions. *)
Ltac bool_hyps :=
  repeat match goal with
  | H : _ /\ _ |- _ => destruct H
  | H : (_ && _) = true |- _ => apply andb_prop in H
  | H : (_ <=? _) = true |- _ => apply Z.leb_le in H
  | H : (_ <? _) = true |- _ => apply Z.ltb_lt in H
  | H : (_ =? _) = true |- _ => apply Z.eqb_eq in H
  | H : Qle_bool _ _ = true |- _ => apply Qle_bool_iff in H
  | H : Qlt_bool _ _ = true |- _ => apply Qlt_bool_iff in H
  end.

(** Below the first of sorted intervals, a value is in none of them. *)
Lemma below_first_in_none (kind unum snum : Z) (fnum : Q)
    (intv : list len_ran_intv) :
  intv_sorted kind intv ->
  match intv with
  | [] => True
  | a :: _ => below_intv kind unum snum fnum a = true
  end ->
  ~ Exists (in_intv kind unum snum fnum) intv.
Proof.
  induction intv as [|a rest IH]; intros Hs Hb Hex.
  - inversion Hex.
  - destruct Hs as (Hwf & Hnext & Hrest).
    inversion Hex as [? ? Hin|? ? Hin]; subst.
    + unfold in_intv, inside_intv in Hin. unfold below_intv in Hb.
      destruct a as [mn mx|mn mx|mn mx]; bool_hyps.
      * lia.
      * lia.
      * eapply Qlt_not_le; eauto.
    + apply IH; auto. destruct rest as [|b rest']; [inversion Hin|].
      simpl in Hrest, Hnext. destruct Hrest as (Hwfb & _ & _).
      unfold below_intv in *. unfold intv_wf, intv_before in *.
      destruct a as [mn mx|mn mx|mn mx], b as [mn' mx'|mn' mx'|mn' mx'];
        try contradiction; bool_hyps; apply andb_true_intro; split.
      * apply Z.eqb_eq; lia.
      * apply Z.ltb_lt; lia.
      * apply Z.eqb_eq; lia.
      * apply Z.ltb_lt; lia.
      * apply Z.eqb_eq; lia.
      * apply Qlt_bool_iff.
        eapply Qlt_trans; [|eassumption].
        eapply Qlt_le_trans; eauto.
Qed.

(** On sorted disjoint intervals the scan finds the value iff some
    interval holds it. *)
Lemma intv_loop_iff (kind unum snum : Z) (fnum : Q)
    (intv : list len_ran_intv) :
  intv_sorted kind intv ->
  intv_loop kind unum snum fnum intv = true
  <-> Exists (in_intv kind unum snum fnum) intv.
Proof.
  induction intv as [|a rest IH]; intros Hs.
  - simpl. split; [discriminate|intros H; inversion H].
  - simpl. destruct (below_intv kind unum snum fnum a) eqn:Hb.
    + split; [discriminate|]. intros Hex. exfalso.
      exact (below_first_in_none kind unum snum fnum (a :: rest) Hs Hb Hex).
    + destruct (inside_intv kind unum snum fnum a) eqn:Hi.
      * split; [intros _; left; exact Hi|reflexivity].
      * destruct Hs as (_ & _ & Hrest). rewrite (IH Hrest).
        split; [intros H; right; exact H|].
        intros Hex. inversion Hex as [? ? Hin|? ? Hin]; subst; auto.
        unfold in_intv in Hin. congruence.
Qed.

Lemma validate_length_range_iff (kind unum snum : Z) (fnum : Q)
    (type : lys_type) (intv : list len_ran_intv) :
  resolve_len_ran_interval type = Some intv ->
  intv <> [] ->
  intv_sorted kind intv ->
  (validate_length_range resolve_len_ran_interval kind unum snum fnum type
   = EXIT_SUCCESS tt
   <-> Exists (in_intv kind unum snum fnum) intv)
  /\ (~ Exists (in_intv kind unum snum fnum) intv ->
      validate_length_range resolve_len_ran_interval kind unum snum fnum type
      = EXIT_FAILURE (Some LYE_OORVAL)).
Proof.
  intros Hr Hne Hs. unfold validate_length_range. rewrite Hr.
  destruct intv as [|a rest]; [contradiction|].
  pose proof (intv_loop_iff kind unum snum fnum (a :: rest) Hs) as Hiff.
  destruct (intv_loop kind unum snum fnum (a :: rest)).
  - split; [tauto|]. intros Hn. exfalso. apply Hn, Hiff. reflexivity.
  - split; [|reflexivity]. split; [discriminate|].
    intros Hex. apply Hiff in Hex. discriminate.
Qed.

(** The decoder on a lexical value that is present: the case of the base. *)
Lemma decode_uint8 (fuel : nat) (leaf : lyd_node_leaf) (a : positive)
    (d : option lys_type) (i : lys_type_info) (s : string)
    (options : lyd_options) (unres : unres_data) (log : bool) :
  decode (S fuel) leaf (Lys_type a LY_TYPE_UINT8 d i) (Some s) options unres
    log
  = uint_case resolve_len_ran_interval
      (set_value_type (set_value_str leaf (Some s)) (plain LY_TYPE_UINT8))
      unres (Lys_type a LY_TYPE_UINT8 d i) 255 val_uint8 log.
Proof.
  cbn [_xml_get_value base]. destruct (LYD_OPT_FILTER options); reflexivity.
Qed.

(** A uint8 leaf restricted to the two intervals of the specification's
    scenario, on a decimal literal [s] denoting [n]. *)
Lemma uint8_two_ranges (fuel : nat) (leaf : lyd_node_leaf) (a : positive)
    (d : option lys_type) (i : lys_type_info) (s : string) (n : Z)
    (options : lyd_options) (unres : unres_data) :
  resolve_len_ran_interval (Lys_type a LY_TYPE_UINT8 d i)
  = Some [uval 0 10; uval 20 30] ->
  parse_uint (Some s) 255 0 true = EXIT_SUCCESS n ->
  snd (decode (S fuel) leaf (Lys_type a LY_TYPE_UINT8 d i) (Some s) options
         unres true)
  = if intv_loop 0 n 0 0%Q [uval 0 10; uval 20 30]
    then EXIT_SUCCESS tt else EXIT_FAILURE (Some LYE_OORVAL).
Proof.
  intros Hr Hp. rewrite decode_uint8. unfold uint_case.
  cbn [value_str set_value_type set_value_str]. rewrite Hp.
  unfold validate_length_range. rewrite Hr.
  destruct (intv_loop 0 n 0 0%Q [uval 0 10; uval 20 30]); reflexivity.
Qed.

End DecoderFacts.

(** The uint8 leaf of the scenario: [type uint8 { range "0..10|20..30"; }]. *)
Definition uint8_0_10_20_30 : lys_type :=
  Lys_type 2 LY_TYPE_UINT8 (Some (builtin 1 LY_TYPE_UINT8)) info_none.

Definition resolve_0_10_20_30 : lys_type -> option (list len_ran_intv) :=
  fun _ => Some [uval 0 10; uval 20 30].

(** *** decimal64 *)

(** [type decimal64 { fraction-digits 1; range "1.0..2.0"; }]. *)
Definition dec64_1_2 : lys_type :=
  Lys_type 2 LY_TYPE_DEC64 (Some (builtin 1 LY_TYPE_DEC64)) (info_dec64 1).

Definition resolve_1_2 : lys_type -> option (list len_ran_intv) :=
  fun _ => Some [fval 1 2].

(** The value handed to the range check is the scaled integer divided by
    2^dig. *)
Lemma dec64_fnum_power_of_two (num dig : Z) :
  0 <= dig ->
  (dec64_fnum num dig == inject_Z num / inject_Z (2 ^ dig))%Q.
Proof.
  intros Hd. unfold dec64_fnum. rewrite Z.shiftl_1_l.
  assert (Hp : 0 < 2 ^ dig) by (apply Z.pow_pos_nonneg; lia).
  unfold Qeq, Qdiv, Qmult, Qinv, inject_Z. simpl.
  destruct (2 ^ dig) eqn:E; try lia. simpl. lia.
Qed.

(** C1 (the code departs from the claim).  The claim: the lexical value is
    renormalized to a 64-bit integer scaled by 10^fraction-digits, and the
    range check runs on that integer divided by 10^fraction-digits.  The
    code does the first ("1.5" with one fraction digit becomes the text
    "15", parsed as 15), but divides by [1 << dig], that is by
    2^fraction-digits: for a decimal64 leaf with one fraction digit and
    range "1.0..2.0" the range check sees 15/2, and the value "1.5", which
    lies in the range, is rejected with OORVAL. *)
Theorem dec64_range_check_divides_by_power_of_two :
  dec64_normalize "1.5" 1 true = EXIT_SUCCESS "15"
  /\ parse_int (Some "15") LLONG_MIN LLONG_MAX 10 true = EXIT_SUCCESS 15
  /\ (dec64_fnum 15 1 == 15 # 2)%Q
  /\ in_intv 2 0 0 (15 # 10) (fval 1 2)
  /\ snd (_xml_get_value resolve_1_2 unit no_regcomp no_regexec no_transform
            no_identref 1 (fresh_leaf dec64_1_2) dec64_1_2 (Some "1.5")
            no_options [] true)
     = EXIT_FAILURE (Some LYE_OORVAL).
Proof.
  repeat split; vm_compute; reflexivity.
Qed.

(** *** bits *)

(** The first [n] characters of [s]. *)
Fixpoint string_take (n : nat) (s : string) : string :=
  match n, s with
  | S n', String c r => String c (string_take n' r)
  | _, _ => EmptyString
  end.

(** The white-space separated tokens of a lexical value. *)
Fixpoint tokens_fuel (n : nat) (s : string) : list string :=
  match n with
  | O => []
  | S n' =>
      match identifier_len (skip_space s) with
      | O => []
      | len =>
          string_take len (skip_space s)
            :: tokens_fuel n' (string_drop len (skip_space s))
      end
  end.

Definition tokens (s : string) : list string :=
  tokens_fuel (String.length s) s.

(** Indices at or after [i], strictly increasing. *)
Fixpoint ascending (i : nat) (ks : list nat) : Prop :=
  match ks with
  | [] => True
  | k :: rest => (i <= k)%nat /\ ascending (S k) rest
  end.

(** The bit definitions at the indices [ks] are named by [toks], one by
    one. *)
Definition named (bit : list lys_type_bit) (ks : list nat)
    (toks : list string) : Prop :=
  Forall2 (fun k tok => exists b, nth_error bit k = Some b /\ bit_name b = tok)
    ks toks.

Lemma identifier_len_le (s : string) :
  (identifier_len s <= String.length s)%nat.
Proof.
  induction s as [|c r IH]; simpl; [lia|]. destruct (isspace c); lia.
Qed.

Lemma drop_identifier_lt (s : string) (n : nat) :
  identifier_len s = S n ->
  (String.length (string_drop (S n) s) < String.length s)%nat.
Proof.
  destruct s as [|c r]; simpl; [discriminate|]. intros _.
  pose proof (string_drop_length n r). lia.
Qed.

Lemma tokens_fuel_enough (n m : nat) (s : string) :
  (String.length s <= n)%nat -> (String.length s <= m)%nat ->
  tokens_fuel n s = tokens_fuel m s.
Proof.
  revert m s. induction n as [|n IH]; intros m s Hn Hm.
  - destruct s; simpl in Hn; [|lia]. destruct m; reflexivity.
  - destruct m as [|m].
    + destruct s; simpl in Hm; [|lia]. reflexivity.
    + cbn [tokens_fuel].
      destruct (identifier_len (skip_space s)) eqn:E; [reflexivity|].
      f_equal. pose proof (drop_identifier_lt _ _ E).
      pose proof (skip_space_length s). apply IH; lia.
Qed.

Lemma tokens_unfold (s : string) :
  tokens s =
  match identifier_len (skip_space s) with
  | O => []
  | len =>
      string_take len (skip_space s)
        :: tokens (string_drop len (skip_space s))
  end.
Proof.
  unfold tokens. destruct s as [|c r].
  - reflexivity.
  - cbn [String.length tokens_fuel].
    destruct (identifier_len (skip_space (String c r))) eqn:E; [reflexivity|].
    f_equal. pose proof (drop_identifier_lt _ _ E).
    pose proof (skip_space_length (String c r)). cbn [String.length] in *.
    apply tokens_fuel_enough; lia.
Qed.

Lemma find_bit_found (l : list lys_type_bit) (i : nat) (s : string)
    (len k : nat) :
  find_bit l i s len = Some k ->
  (i <= k)%nat
  /\ exists b, nth_error l (k - i) = Some b
               /\ strncmp (bit_name b) s len = Eq
               /\ String.get len (bit_name b) = None.
Proof.
  revert i. induction l as [|b rest IH]; intros i H; simpl in H.
  - discriminate.
  - destruct (strncmp (bit_name b) s len) eqn:E1;
      destruct (String.get len (bit_name b)) eqn:E2;
      try (apply IH in H; destruct H as (Hle & b' & Hn & Hb);
           split; [lia|]; exists b';
           replace (k - i)%nat with (S (k - S i)) by lia;
           split; [exact Hn|exact Hb]).
    injection H as <-. split; [lia|]. exists b.
    rewrite Nat.sub_diag. auto.
Qed.

Lemma strncmp_names (name s : string) (len : nat) :
  strncmp name s len = Eq ->
  (len <= String.length s)%nat ->
  String.get len name = None ->
  name = string_take len s.
Proof.
  revert name s. induction len as [|n IH]; intros name s He Hl Hg.
  - destruct name; [reflexivity|discriminate].
  - destruct s as [|c2 r2]; simpl in Hl; [lia|].
    destruct name as [|c1 r1]; simpl in He; [discriminate|].
    destruct (Ascii.compare c1 c2) eqn:Ec; try discriminate.
    apply Ascii.compare_eq_iff in Ec. subst c2. simpl.
    f_equal. apply IH; auto. lia.
Qed.

(** The loop ends in success or with INVAL. *)
Lemma bits_loop_outcome (bit : list lys_type_bit) (s : string) (i : nat)
    (vb : list (option lys_type_bit)) (log : bool) :
  snd (bits_loop bit s i vb log) = EXIT_SUCCESS tt
  \/ snd (bits_loop bit s i vb log) = fail_log log LYE_INVAL.
Proof.
  funelim (bits_loop bit s i vb log).
  - left. reflexivity.
  - exact H.
  - right. reflexivity.
Qed.

(** When the loop succeeds, the tokens name bit definitions at strictly
    increasing indices. *)
Lemma bits_loop_ascending (bit : list lys_type_bit) (s : string) (i : nat)
    (vb : list (option lys_type_bit)) (log : bool) :
  snd (bits_loop bit s i vb log) = EXIT_SUCCESS tt ->
  exists ks, ascending i ks /\ named bit ks (tokens s).
Proof.
  funelim (bits_loop bit s i vb log).
  - intros _. exists []. split; [exact I|constructor].
  - intros Hs. rewrite tokens_unfold.
    destruct (identifier_len (skip_space (String c r))) as [|n] eqn:E.
    + exists []. split; [exact I|constructor].
    + destruct (H Hs) as (ks & Hasc & Hnamed).
      apply find_bit_found in Heq.
      destruct Heq as (Hle & b & Hn & Hcmp & Hget).
      rewrite nth_error_skipn in Hn.
      replace (i + (k - i))%nat with k in Hn by lia.
      exists (k :: ks). split; [split; assumption|].
      constructor; [|exact Hnamed].
      exists b. split; [exact Hn|].
      apply strncmp_names; auto.
      rewrite <- E. apply identifier_len_le.
  - unfold fail_log. simpl. destruct log; discriminate.
Qed.

Lemma ascending_weaken (i j : nat) (ks : list nat) :
  (i <= j)%nat -> ascending j ks -> ascending i ks.
Proof. destruct ks; simpl; [auto|]. intros ? []. split; [lia|assumption]. Qed.

Lemma ascending_app (i : nat) (l1 l2 : list nat) :
  ascending i (l1 ++ l2) -> ascending i l2.
Proof.
  revert i. induction l1 as [|k l1 IH]; intros i H; simpl in *; [exact H|].
  destruct H as [Hle H]. apply IH in H. eapply ascending_weaken; [|exact H].
  lia.
Qed.

Lemma ascending_all_above (i : nat) (ks : list nat) :
  ascending i ks -> Forall (fun k => (i <= k)%nat) ks.
Proof.
  revert i. induction ks as [|k ks IH]; intros i H; constructor.
  - exact (proj1 H).
  - apply IH. eapply ascending_weaken; [|exact (proj2 H)]. destruct H. lia.
Qed.

(** Two tokens of an accepted value name definitions in their order. *)
Lemma ascending_named_order (bit : list lys_type_bit) (i : nat)
    (ks : list nat) (pre mid post : list string) (t1 t2 : string) :
  ascending i ks ->
  named bit ks (pre ++ t1 :: mid ++ t2 :: post) ->
  exists k1 k2 b1 b2,
    (k1 < k2)%nat
    /\ nth_error bit k1 = Some b1 /\ bit_name b1 = t1
    /\ nth_error bit k2 = Some b2 /\ bit_name b2 = t2.
Proof.
  intros Hasc Hn. unfold named in Hn.
  apply Forall2_app_inv_r in Hn. destruct Hn as (ks1 & ks' & _ & Hn & ->).
  inversion Hn as [|k1 ? ks'' ? (b1 & Hb1 & Hn1) Hn']; subst.
  apply Forall2_app_inv_r in Hn'. destruct Hn' as (ks2 & ks3 & _ & Hn' & ->).
  inversion Hn' as [|k2 ? ks4 ? (b2 & Hb2 & Hn2) _]; subst.
  apply ascending_app in Hasc. destruct Hasc as [_ Hasc].
  apply ascending_app in Hasc. destruct Hasc as [Hlt _].
  exists k1, k2, b1, b2. repeat split; auto.
Qed.

Lemma unique_name_index (bit : list lys_type_bit) (k k' : nat)
    (b b' : lys_type_bit) :
  NoDup (map bit_name bit) ->
  nth_error bit k = Some b -> nth_error bit k' = Some b' ->
  bit_name b = bit_name b' -> k = k'.
Proof.
  intros Hnd Hk Hk' He.
  apply (proj1 (NoDup_nth_error (map bit_name bit)) Hnd).
  - rewrite length_map. apply nth_error_Some. congruence.
  - rewrite !nth_error_map, Hk, Hk'. simpl. congruence.
Qed.

Lemma named_token (bit : list lys_type_bit) (ks : list nat)
    (toks : list string) (t : string) :
  named bit ks toks -> In t toks ->
  exists b, In b bit /\ bit_name b = t.
Proof.
  induction 1 as [|k tok ks toks (b & Hb & Hn) _ IH]; intros Hin.
  - inversion Hin.
  - destruct Hin as [<-|Hin]; [|exact (IH Hin)].
    exists b. split; [eapply nth_error_In; eauto|exact Hn].
Qed.

Section BitsFacts.

Variable resolve_len_ran_interval : lys_type -> option (list len_ran_intv).
Variable regex_t : Type.
Variable regcomp : string -> option regex_t.
Variable regexec : regex_t -> string -> bool.
Variable transform_data_xml2json : string -> option string.
Variable resolve_identref_json : lys_type_info -> string -> option lys_ident.

Abbreviation decode' :=
  (_xml_get_value resolve_len_ran_interval regex_t regcomp regexec
     transform_data_xml2json resolve_identref_json).

Lemma decode_bits (fuel : nat) (leaf : lyd_node_leaf) (a : positive)
    (d : option lys_type) (i : lys_type_info) (s : string)
    (options : lyd_options) (unres : unres_data) (log : bool)
    (type : lys_type) :
  locate_definitions (Lys_type a LY_TYPE_BITS d i) = Some type ->
  snd (decode' (S fuel) leaf (Lys_type a LY_TYPE_BITS d i) (Some s) options
         unres log)
  = snd (bits_loop (info_bits_bit type) s 0
           (repeat None (List.length (info_bits_bit type))) log).
Proof.
  intros Hl. cbn [_xml_get_value base].
  destruct (LYD_OPT_FILTER options);
    cbn [value_str set_value_type set_value_str];
    unfold case_bits; rewrite Hl;
    cbn [value_str set_value set_value_type set_value_str];
    destruct (bits_loop _ _ _ _ _); reflexivity.
Qed.

(** C10.  A bits leaf is decoded by one scan of the bit definitions whose
    index only advances: a value is accepted only if its white-space
    separated tokens name bit definitions at strictly increasing indices
    of the definition array, and any other value fails with INVAL; so does
    a value in which a bit name follows the name of a later bit or is
    repeated (bit names being distinct), and a value with a token that
    names no bit. *)
Theorem bits_accepted_only_in_ascending_order :
  forall (a : positive) (d : option lys_type) (i : lys_type_info)
         (type : lys_type) (fuel : nat) (leaf : lyd_node_leaf) (s : string)
         (options : lyd_options) (unres : unres_data),
    locate_definitions (Lys_type a LY_TYPE_BITS d i) = Some type ->
    let bit := info_bits_bit type in
    let result :=
      snd (decode' (S fuel) leaf (Lys_type a LY_TYPE_BITS d i) (Some s)
             options unres true) in
    (result = EXIT_SUCCESS tt ->
     exists ks, ascending 0 ks /\ named bit ks (tokens s))
    /\ (result = EXIT_SUCCESS tt \/ result = EXIT_FAILURE (Some LYE_INVAL))
    /\ (forall pre mid post t1 t2 k1 k2 b1 b2,
          NoDup (map bit_name bit) ->
          tokens s = pre ++ t1 :: mid ++ t2 :: post ->
          nth_error bit k1 = Some b1 -> bit_name b1 = t1 ->
          nth_error bit k2 = Some b2 -> bit_name b2 = t2 ->
          (k2 <= k1)%nat ->
          result = EXIT_FAILURE (Some LYE_INVAL))
    /\ (forall t,
          In t (tokens s) ->
          (forall b, In b bit -> bit_name b <> t) ->
          result = EXIT_FAILURE (Some LYE_INVAL)).
Proof.
  intros a d i type fuel leaf s options unres Hl bit result.
  assert (Hr : result
               = snd (bits_loop bit s 0 (repeat None (List.length bit)) true))
    by (apply decode_bits; exact Hl).
  assert (Hout : result = EXIT_SUCCESS tt
                 \/ result = EXIT_FAILURE (Some LYE_INVAL))
    by (rewrite Hr; apply bits_loop_outcome).
  assert (Hasc : result = EXIT_SUCCESS tt ->
                 exists ks, ascending 0 ks /\ named bit ks (tokens s))
    by (rewrite Hr; apply bits_loop_ascending).
  split; [exact Hasc|]. split; [exact Hout|]. split.
  - intros pre mid post t1 t2 k1 k2 b1 b2 Hnd Ht Hb1 Hn1 Hb2 Hn2 Hle.
    destruct Hout as [Hok|Hf]; [|exact Hf]. exfalso.
    destruct (Hasc Hok) as (ks & Ha & Hn). rewrite Ht in Hn.
    destruct (ascending_named_order bit 0 ks pre mid post t1 t2 Ha Hn)
      as (k1' & k2' & b1' & b2' & Hlt & Hb1' & Hn1' & Hb2' & Hn2').
    assert (k1 = k1')
      by (eapply unique_name_index; eauto; congruence).
    assert (k2 = k2')
      by (eapply unique_name_index; eauto; congruence).
    lia.
  - intros t Hin Hno.
    destruct Hout as [Hok|Hf]; [|exact Hf]. exfalso.
    destruct (Hasc Hok) as (ks & _ & Hn).
    destruct (named_token bit ks (tokens s) t Hn Hin) as (b & Hb & Hname).
    exact (Hno b Hb Hname).
Qed.

End BitsFacts.

(** [type bits { bit a; bit b; bit c; }]. *)
Definition bits_abc : lys_type :=
  Lys_type 2 LY_TYPE_BITS (Some (builtin 1 LY_TYPE_BITS))
    (info_bits [ {| bit_name := "a"; bit_pos := 0 |};
                 {| bit_name := "b"; bit_pos := 1 |};
                 {| bit_name := "c"; bit_pos := 2 |} ]).

Lemma bits_accepted_only_in_ascending_order_witness :
  locate_definitions bits_abc = Some bits_abc
  /\ snd (_xml_get_value no_restriction unit no_regcomp no_regexec
            no_transform no_identref 1 (fresh_leaf bits_abc) bits_abc
            (Some "c a") no_options [] true)
     = EXIT_FAILURE (Some LYE_INVAL).
Proof.
  split; [reflexivity|].
  destruct (bits_accepted_only_in_ascending_order no_restriction unit
              no_regcomp no_regexec no_transform no_identref
              2%positive (Some (builtin 1 LY_TYPE_BITS))
              (info bits_abc) bits_abc 0%nat (fresh_leaf bits_abc) "c a"
              no_options [] eq_refl) as (_ & _ & Horder & _).
  apply (Horder [] [] [] "c" "a" 2%nat 0%nat
           {| bit_name := "c"; bit_pos := 2 |}
           {| bit_name := "a"; bit_pos := 0 |}).
  - simpl. repeat constructor; simpl; intuition discriminate.
  - reflexivity.
  - reflexivity.
  - reflexivity.
  - reflexivity.
  - reflexivity.
  - lia.
Defined.

(** *** patterns *)

(** The patterns of a derivation chain, those of the ancestors first. *)
Fixpoint chain_patterns (type : lys_type) : list string :=
  match type with
  | Lys_type _ _ d i =>
      (match d with Some dt => chain_patterns dt | None => [] end)
        ++ match i with info_str _ p => p | _ => [] end
  end.

(** Every type of the chain is a string type. *)
Fixpoint string_chain (type : lys_type) : Prop :=
  match type with
  | Lys_type _ b d _ =>
      b = LY_TYPE_STRING
      /\ match d with Some dt => string_chain dt | None => True end
  end.

Section PatternFacts.

Variable regex_t : Type.
Variable regcomp : string -> option regex_t.
Variable regexec : regex_t -> string -> bool.

Lemma patterns_loop_app (str : option string) (l1 l2 : list string)
    (log : bool) :
  patterns_loop regex_t regcomp regexec str (l1 ++ l2) log
  = match patterns_loop regex_t regcomp regexec str l1 log with
    | EXIT_SUCCESS _ => patterns_loop regex_t regcomp regexec str l2 log
    | r => r
    end.
Proof.
  induction l1 as [|e l1 IH]; simpl; [reflexivity|].
  destruct (posix_regex e); [|reflexivity].
  destruct (regcomp s); [|reflexivity].
  destruct str; [|reflexivity].
  destruct (regexec r s0); [exact IH|]. unfold fail_log. reflexivity.
Qed.

(** [validate_pattern] runs the patterns of the whole chain in the order
    of [chain_patterns], each anchored by [posix_regex], and stops at the
    first that does not match. *)
Lemma validate_pattern_chain (str : option string) (type : lys_type)
    (log : bool) :
  string_chain type ->
  validate_pattern regex_t regcomp regexec str type log
  = patterns_loop regex_t regcomp regexec str (chain_patterns type) log.
Proof.
  revert type.
  fix IH 1. intros [a b d i] [Hb Hd]. subst b. cbn [validate_pattern].
  cbn [LY_DATA_TYPE_eqb negb]. cbn [chain_patterns].
  destruct d as [dt|].
  - rewrite patterns_loop_app, (IH dt Hd). reflexivity.
  - reflexivity.
Qed.

End PatternFacts.

(** [typedef digits { type string { pattern "[0-9]+"; } }] and the type of
    [leaf l { type digits; }]. *)
Definition typedef_digits : lys_type :=
  Lys_type 2 LY_TYPE_STRING (Some (builtin 1 LY_TYPE_STRING))
    (info_str None ["[0-9]+"]).

Definition type_digits : lys_type :=
  Lys_type 3 LY_TYPE_STRING (Some typedef_digits) info_none.

(** C5 (the code departs from the claim).  The claim: every pattern along
    the derivation chain of a string leaf is applied, ancestors first, each
    anchored at both ends unless it begins, respectively ends, with ".*".
    [validate_pattern] does that, but [_xml_get_value] calls it only when
    the leaf's own type statement carries a pattern: for a leaf of a type
    derived from [typedef digits] (pattern "[0-9]+") without a pattern of
    its own, no regular expression is compiled or run, and "abc" is
    accepted, whatever [regcomp] and [regexec] do; had [validate_pattern]
    been called, it would have run "^[0-9]+$". *)
Theorem inherited_patterns_are_not_checked :
  forall (resolve_len_ran_interval : lys_type -> option (list len_ran_intv))
         (regex_t : Type) (regcomp : string -> option regex_t)
         (regexec : regex_t -> string -> bool)
         (transform_data_xml2json : string -> option string)
         (resolve_identref_json : lys_type_info -> string -> option lys_ident)
         (fuel : nat) (unres : unres_data) (log : bool),
    _xml_get_value resolve_len_ran_interval regex_t regcomp regexec
      transform_data_xml2json resolve_identref_json (S fuel)
      (fresh_leaf type_digits) type_digits (Some "abc") no_options unres log
    = ({| schema_type := type_digits; value_str := Some "abc";
          value_type := plain LY_TYPE_STRING;
          value := val_string (Some "abc") |}, unres, EXIT_SUCCESS tt)
    /\ chain_patterns type_digits = ["[0-9]+"]
    /\ validate_pattern regex_t regcomp regexec (Some "abc") type_digits log
       = match regcomp "^[0-9]+$" with
         | None => EXIT_FAILURE (Some LYE_INT)
         | Some preq =>
             if regexec preq "abc" then EXIT_SUCCESS tt
             else fail_log log LYE_INVAL
         end.
Proof.
  intros. split; [reflexivity|]. split; [reflexivity|].
  rewrite validate_pattern_chain by (simpl; auto).
  cbn. destruct (regcomp _); [|reflexivity].
  destruct (regexec _ _); reflexivity.
Qed.


(** *** unions *)

(** The alternatives of a union in the order of the specification: the
    member types as declared, a member that is itself a union replaced by
    its alternatives, then those inherited from the typedef. *)
Fixpoint alternatives (type : lys_type) : list lys_type :=
  match type with
  | Lys_type _ _ d i =>
      match i with
      | info_uni types =>
          (fix members (l : list lys_type) : list lys_type :=
             match l with
             | [] => []
             | t :: rest =>
                 (if LY_DATA_TYPE_eqb (base t) LY_TYPE_UNION
                  then alternatives t else [t]) ++ members rest
             end) types
      | _ => []
      end
      ++ match d with Some dt => alternatives dt | None => [] end
  end.

(** The search of [get_next_union_type] on a plain list of alternatives. *)
Fixpoint next_in (alts : list lys_type) (prev_type : option positive)
    (found : bool) : option lys_type * bool :=
  match alts with
  | [] => (None, found)
  | t :: rest =>
      match prev_type with
      | None => (Some t, found)
      | Some prev =>
          if found then (Some t, found)
          else if Pos.eqb (type_addr t) prev then next_in rest prev_type true
          else next_in rest prev_type found
      end
  end.

(** Induction on a type, with the property for the member types, the
    typedef and the leafref target. *)
Section lys_type_induction.

Variable P : lys_type -> Prop.
Hypothesis step :
  forall a b d i,
    (forall dt, d = Some dt -> P dt) ->
    (forall types, i = info_uni types -> Forall P types) ->
    (forall t, i = info_lref t -> P t) ->
    P (Lys_type a b d i).

Fixpoint lys_type_induction (type : lys_type) : P type :=
  match type with
  | Lys_type a b d i =>
      step a b d i
        (match d as d' return forall dt, d' = Some dt -> P dt with
         | Some x =>
             fun dt E =>
               match E in _ = y
                     return match y with Some z => P z | None => True end
               with eq_refl => lys_type_induction x end
         | None => fun dt E => match E with end
         end)
        (match i as i' return forall types, i' = info_uni types ->
                                            Forall P types with
         | info_uni l =>
             fun types E =>
               match E in _ = y
                     return match y with
                            | info_uni z => Forall P z
                            | _ => True
                            end
               with
               | eq_refl =>
                   (fix all (l : list lys_type) : Forall P l :=
                      match l with
                      | [] => Forall_nil P
                      | t :: rest =>
                          Forall_cons t (lys_type_induction t) (all rest)
                      end) l
               end
         | _ => fun types E => ltac:(discriminate E)
         end)
        (match i as i' return forall t, i' = info_lref t -> P t with
         | info_lref x =>
             fun t E =>
               match E in _ = y
                     return match y with
                            | info_lref z => P z
                            | _ => True
                            end
               with eq_refl => lys_type_induction x end
         | _ => fun t E => ltac:(discriminate E)
         end)
  end.

End lys_type_induction.

Lemma next_in_app (l1 l2 : list lys_type) (prev_type : option positive)
    (found : bool) :
  next_in (l1 ++ l2) prev_type found
  = match next_in l1 prev_type found with
    | (Some ret, found') => (Some ret, found')
    | (None, found') => next_in l2 prev_type found'
    end.
Proof.
  revert found. induction l1 as [|t l1 IH]; intros found; cbn [app next_in].
  - reflexivity.
  - destruct prev_type as [prev|]; [|reflexivity].
    destruct found; [reflexivity|].
    destruct (Pos.eqb (type_addr t) prev); apply IH.
Qed.

(** The walk of [get_next_union_type] is the search on the list of
    alternatives. *)
Lemma get_next_union_type_alternatives (type : lys_type)
    (prev_type : option positive) :
  forall found,
    get_next_union_type type prev_type found
    = next_in (alternatives type) prev_type found.
Proof.
  induction type as [a b d i IHd IHt _] using lys_type_induction.
  intros found. cbn [get_next_union_type alternatives].
  rewrite next_in_app.
  assert (Hder : forall found',
             match d with
             | Some dt => get_next_union_type dt prev_type found'
             | None => (None, found')
             end
             = next_in match d with
                       | Some dt => alternatives dt
                       | None => []
                       end prev_type found').
  { intros found'. destruct d as [dt|]; [|reflexivity].
    apply (IHd dt eq_refl). }
  destruct i as [| | | | | | |? ?|types];
    try (cbn [next_in]; rewrite <- Hder; destruct d; reflexivity).
  specialize (IHt types eq_refl).
  match goal with
  | |- (let '(r, f) := ?walk types found in _) = match next_in (?flat types) _ _ with _ => _ end =>
      assert (Hwalk : forall found', walk types found'
                                     = next_in (flat types) prev_type found')
  end.
  { induction IHt as [|t rest Ht _ IH]; intros found'.
    - reflexivity.
    - cbn [next_in app]. destruct (LY_DATA_TYPE_eqb (base t) LY_TYPE_UNION).
      + rewrite next_in_app, Ht.
        destruct (next_in (alternatives t) prev_type found') as [[ret|] f].
        * reflexivity.
        * apply IH.
      + cbn [app next_in]. destruct prev_type as [prev|]; [|reflexivity].
        destruct found'; [reflexivity|].
        destruct (Pos.eqb (type_addr t) prev); apply IH. }
  rewrite Hwalk.
  destruct (next_in _ prev_type found) as [[ret|] f].
  - destruct d; reflexivity.
  - rewrite <- Hder. destruct d; reflexivity.
Qed.

(** No alternative is itself a union. *)
Lemma alternatives_plain (type : lys_type) :
  Forall (fun t => base t <> LY_TYPE_UNION) (alternatives type).
Proof.
  induction type as [a b d i IHd IHt _] using lys_type_induction.
  cbn [alternatives]. apply Forall_app. split.
  - destruct i as [| | | | | | |? ?|types]; try constructor.
    specialize (IHt types eq_refl).
    induction IHt as [|t rest Ht _ IH]; [constructor|].
    apply Forall_app. split; [|exact IH].
    destruct (LY_DATA_TYPE_eqb (base t) LY_TYPE_UNION) eqn:E; [exact Ht|].
    constructor; [|constructor].
    intros Hb. rewrite Hb in E. discriminate E.
  - destruct d as [dt|]; [apply (IHd dt eq_refl)|constructor].
Qed.

(** Where the alternatives are distinct objects, the search after one of
    them yields the one that follows it. *)
Lemma next_in_after (seen rest : list lys_type) (t : lys_type) :
  NoDup (map type_addr (seen ++ t :: rest)) ->
  fst (next_in (seen ++ t :: rest) (Some (type_addr t)) false)
  = hd_error rest.
Proof.
  induction seen as [|s seen IH]; cbn [app map next_in]; intros Hnd.
  - rewrite Pos.eqb_refl. destruct rest; reflexivity.
  - inversion Hnd as [|? ? Hnotin Hnd']; subst.
    destruct (Pos.eqb_spec (type_addr s) (type_addr t)) as [E|_].
    + exfalso. apply Hnotin. rewrite E, map_app. apply in_or_app.
      right. left. reflexivity.
    + apply IH, Hnd'.
Qed.



(** The schema
    [typedef U { type union { type int8; type int16; } }],
    [typedef V { type union { type U; type string; } }] and
    [leaf l { type union { type U; type V; } }].
    A member that names a typedef has no alternatives of its own: they are
    reached through [der], so the two members derived from [U] lead to the
    same two objects. *)
Definition int8_of_U : lys_type :=
  Lys_type 10 LY_TYPE_INT8 (Some (builtin 1 LY_TYPE_INT8)) info_none.
Definition int16_of_U : lys_type :=
  Lys_type 11 LY_TYPE_INT16 (Some (builtin 2 LY_TYPE_INT16)) info_none.
Definition typedef_U : lys_type :=
  Lys_type 12 LY_TYPE_UNION (Some (builtin 3 LY_TYPE_UNION))
    (info_uni [int8_of_U; int16_of_U]).
Definition string_of_V : lys_type :=
  Lys_type 13 LY_TYPE_STRING (Some (builtin 4 LY_TYPE_STRING)) info_none.
Definition typedef_V : lys_type :=
  Lys_type 15 LY_TYPE_UNION (Some (builtin 3 LY_TYPE_UNION))
    (info_uni [Lys_type 14 LY_TYPE_UNION (Some typedef_U) info_none;
               string_of_V]).
Definition union_U_V : lys_type :=
  Lys_type 22 LY_TYPE_UNION (Some (builtin 3 LY_TYPE_UNION))
    (info_uni [Lys_type 20 LY_TYPE_UNION (Some typedef_U) info_none;
               Lys_type 21 LY_TYPE_UNION (Some typedef_V) info_none]).

Section UnionFacts.

Variable resolve_len_ran_interval : lys_type -> option (list len_ran_intv).
Variable regex_t : Type.
Variable regcomp : string -> option regex_t.
Variable regexec : regex_t -> string -> bool.
Variable transform_data_xml2json : string -> option string.
Variable resolve_identref_json : lys_type_info -> string -> option lys_ident.

Abbreviation decode'' :=
  (_xml_get_value resolve_len_ran_interval regex_t regcomp regexec
     transform_data_xml2json resolve_identref_json).
Abbreviation union_loop'' :=
  (union_loop resolve_len_ran_interval regex_t regcomp regexec
     transform_data_xml2json resolve_identref_json).

(** One round of the loop over the alternatives. *)
Lemma union_loop_step (fuel : nat) (leaf : lyd_node_leaf)
    (node_type t : lys_type) (options : lyd_options) (unres : unres_data)
    (log : bool) :
  union_loop'' (S fuel) leaf node_type (Some t) options unres log
  = match decode'' fuel leaf t (value_str leaf) options unres false with
    | (leaf', unres', EXIT_SUCCESS _) =>
        (set_value_type leaf' (plain (base t)), unres', EXIT_SUCCESS tt)
    | (leaf', unres', EXIT_FAILURE _) =>
        union_loop'' fuel leaf' node_type
          (fst (get_next_union_type node_type (Some (type_addr t)) false))
          options unres' log
    | (leaf', unres', r) => (leaf', unres', r)
    end.
Proof. reflexivity. Qed.

(** The union case enters the loop with the first alternative. *)
Lemma decode_union (fuel : nat) (leaf : lyd_node_leaf) (a : positive)
    (d : option lys_type) (i : lys_type_info) (s : string)
    (options : lyd_options) (unres : unres_data) (log : bool) :
  decode'' (S fuel) leaf (Lys_type a LY_TYPE_UNION d i) (Some s) options
    unres log
  = union_loop'' fuel
      (set_value_type (set_value_str leaf (Some s)) (plain LY_TYPE_UNION))
      (Lys_type a LY_TYPE_UNION d i)
      (fst (get_next_union_type (Lys_type a LY_TYPE_UNION d i) None false))
      options unres log.
Proof.
  destruct options as [[|] e st]; reflexivity.
Qed.

(** An alternative that is not a union is decoded without the loop. *)
Lemma decode_plain_fuel (fuel : nat) (leaf : lyd_node_leaf) (t : lys_type)
    (content : option string) (options : lyd_options) (unres : unres_data)
    (log : bool) :
  base t <> LY_TYPE_UNION ->
  decode'' (S fuel) leaf t content options unres log
  = decode'' 1 leaf t content options unres log.
Proof.
  intros Hb. cbn [_xml_get_value].
  destruct (base t); try reflexivity. contradiction.
Qed.

(** The claim's loop: the alternatives in order, the first that decodes the
    value chosen, INVAL when none does.  Each attempt starts from the leaf
    as the attempt before left it. *)
Fixpoint first_decoding (alts : list lys_type) (leaf : lyd_node_leaf)
    (options : lyd_options) (unres : unres_data) (log : bool) : decoded :=
  match alts with
  | [] => (leaf, unres, fail_log log LYE_INVAL)
  | t :: rest =>
      match decode'' 1 leaf t (value_str leaf) options unres false with
      | (leaf', unres', EXIT_SUCCESS _) =>
          (set_value_type leaf' (plain (base t)), unres', EXIT_SUCCESS tt)
      | (leaf', unres', EXIT_FAILURE _) =>
          first_decoding rest leaf' options unres' log
      | (leaf', unres', r) => (leaf', unres', r)
      end
  end.

(** Where the alternatives of a union are distinct objects, the loop of
    [_xml_get_value] is [first_decoding] on them. *)
Lemma union_loop_distinct (node_type : lys_type) (options : lyd_options)
    (log : bool) :
  NoDup (map type_addr (alternatives node_type)) ->
  forall (todo seen : list lys_type) (fuel : nat) (leaf : lyd_node_leaf)
         (unres : unres_data),
    alternatives node_type = seen ++ todo ->
    (List.length todo < fuel)%nat ->
    union_loop'' fuel leaf node_type (hd_error todo) options unres log
    = first_decoding todo leaf options unres log.
Proof.
  intros Hnd.
  induction todo as [|t rest IH]; intros seen fuel leaf unres Halts Hfuel.
  - destruct fuel as [|fuel]; [cbn in Hfuel; lia|]. reflexivity.
  - cbn [List.length] in Hfuel.
    destruct fuel as [|[|fuel]]; try lia.
    cbn [hd_error]. rewrite union_loop_step. cbn [first_decoding].
    assert (Hplain : base t <> LY_TYPE_UNION).
    { pose proof (alternatives_plain node_type) as Hall.
      rewrite Halts in Hall. apply Forall_app in Hall as [_ Hall].
      inversion Hall; assumption. }
    rewrite (decode_plain_fuel fuel) by exact Hplain.
    destruct (decode'' 1 leaf t (value_str leaf) options unres false)
      as [[leaf' unres'] [u|err| |]]; try reflexivity.
    rewrite get_next_union_type_alternatives, Halts.
    rewrite next_in_after by (rewrite <- Halts; exact Hnd).
    apply (IH (seen ++ [t])).
    + rewrite <- app_assoc. exact Halts.
    + lia.
Qed.

(** Decoding against a union whose alternatives are distinct objects: the
    alternatives are tried in the declared order, nested unions in place,
    and the first that decodes the value gives the result. *)
Lemma decode_union_distinct (fuel : nat) (leaf : lyd_node_leaf)
    (a : positive) (d : option lys_type) (i : lys_type_info) (s : string)
    (options : lyd_options) (unres : unres_data) (log : bool) :
  let node_type := Lys_type a LY_TYPE_UNION d i in
  NoDup (map type_addr (alternatives node_type)) ->
  (List.length (alternatives node_type) + 1 < fuel)%nat ->
  decode'' fuel leaf node_type (Some s) options unres log
  = first_decoding (alternatives node_type)
      (set_value_type (set_value_str leaf (Some s)) (plain LY_TYPE_UNION))
      options unres log.
Proof.
  intros node_type Hnd Hfuel.
  destruct fuel as [|fuel]; [lia|].
  unfold node_type at 1. rewrite decode_union. fold node_type.
  rewrite get_next_union_type_alternatives.
  replace (fst (next_in (alternatives node_type) None false))
    with (hd_error (alternatives node_type))
    by (destruct (alternatives node_type); reflexivity).
  apply (union_loop_distinct node_type options log Hnd _ []);
    [reflexivity|lia].
Qed.

(** An integer alternative rejects "abc" and leaves the lexical value. *)
Lemma int_alternative_rejects_abc (fuel : nat) (leaf : lyd_node_leaf)
    (t : lys_type) (unres : unres_data) :
  t = int8_of_U \/ t = int16_of_U ->
  exists leaf',
    decode'' (S fuel) leaf t (Some "abc") no_options unres false
    = (leaf', unres, EXIT_FAILURE None)
    /\ value_str leaf' = Some "abc".
Proof.
  intros [->| ->]; eexists; split; reflexivity.
Qed.

(** After [int16_of_U] the search returns to [int8_of_U]: the loop over the
    alternatives of [union_U_V] never leaves the two alternatives of [U]. *)
Lemma union_U_V_cycles (fuel : nat) :
  forall (leaf : lyd_node_leaf) (unres : unres_data) (log : bool)
         (t : lys_type),
    value_str leaf = Some "abc" ->
    t = int8_of_U \/ t = int16_of_U ->
    snd (union_loop'' fuel leaf union_U_V (Some t) no_options unres log)
    = TIMEOUT.
Proof.
  induction fuel as [|fuel IH]; intros leaf unres log t Hs Ht.
  - reflexivity.
  - rewrite union_loop_step, Hs. destruct fuel as [|fuel'].
    + reflexivity.
    + destruct (int_alternative_rejects_abc fuel' leaf t unres Ht)
        as (leaf' & -> & Hs').
      destruct Ht as [->| ->].
      * change (fst (get_next_union_type union_U_V
                       (Some (type_addr int8_of_U)) false))
          with (Some int16_of_U).
        apply IH; auto.
      * change (fst (get_next_union_type union_U_V
                       (Some (type_addr int16_of_U)) false))
          with (Some int8_of_U).
        apply IH; auto.
Qed.

End UnionFacts.

(** [leaf l { type union { type int8; type V; } }]: each alternative is
    reached once, and "abc" is decoded by the string alternative of [V]
    after int8, int8 and int16 of [U] have rejected it. *)
Definition union_int8_V : lys_type :=
  Lys_type 32 LY_TYPE_UNION (Some (builtin 3 LY_TYPE_UNION))
    (info_uni [Lys_type 30 LY_TYPE_INT8 (Some (builtin 1 LY_TYPE_INT8))
                 info_none;
               Lys_type 31 LY_TYPE_UNION (Some typedef_V) info_none]).

Example union_int8_V_chooses_string :
  map base (alternatives union_int8_V)
  = [LY_TYPE_INT8; LY_TYPE_INT8; LY_TYPE_INT16; LY_TYPE_STRING]
  /\ forall fuel,
       (5 < fuel)%nat ->
       let '(leaf, _, r) :=
         _xml_get_value no_restriction unit no_regcomp no_regexec
           no_transform no_identref fuel (fresh_leaf union_int8_V)
           union_int8_V (Some "abc") no_options [] true in
       r = EXIT_SUCCESS tt /\ value_type leaf = plain LY_TYPE_STRING.
Proof.
  split; [reflexivity|]. intros fuel Hfuel.
  unfold union_int8_V at 2.
  rewrite decode_union_distinct.
  - split; reflexivity.
  - cbn. repeat constructor; cbn; intuition discriminate.
  - cbn. lia.
Qed.

(** C3 (the code departs from the claim).  The claim: the alternatives of
    a union are tried in their declared order, nested unions in place, the
    first that decodes the value is chosen, and when none does decoding
    fails with INVAL.  [get_next_union_type] finds its place in the walk by
    the address of the alternative tried last; when an alternative is
    reached twice (here the two alternatives of typedef [U], through the
    member [U] and through the member [V]), the walk resumes after its
    first occurrence.  For the leaf [union_U_V] and the value "abc" the
    search yields int8, int16, int8, ...: the string alternative of [V],
    which accepts "abc", is never tried, and the decoder neither chooses it
    nor fails, with any amount of fuel.  Where every alternative is reached
    once the loop is the claim's ([decode_union_distinct]). *)
Theorem union_walk_never_reaches_later_alternative :
  forall (resolve_len_ran_interval : lys_type -> option (list len_ran_intv))
         (regex_t : Type) (regcomp : string -> option regex_t)
         (regexec : regex_t -> string -> bool)
         (transform_data_xml2json : string -> option string)
         (resolve_identref_json : lys_type_info -> string -> option lys_ident)
         (fuel : nat) (log : bool),
    fst (get_next_union_type union_U_V None false) = Some int8_of_U
    /\ fst (get_next_union_type union_U_V (Some (type_addr int8_of_U)) false)
       = Some int16_of_U
    /\ fst (get_next_union_type union_U_V (Some (type_addr int16_of_U)) false)
       = Some int8_of_U
    /\ snd (_xml_get_value resolve_len_ran_interval regex_t regcomp regexec
              transform_data_xml2json resolve_identref_json 1
              (fresh_leaf union_U_V) string_of_V (Some "abc") no_options []
              false)
       = EXIT_SUCCESS tt
    /\ snd (_xml_get_value resolve_len_ran_interval regex_t regcomp regexec
              transform_data_xml2json resolve_identref_json fuel
              (fresh_leaf union_U_V) union_U_V (Some "abc") no_options []
              log)
       = TIMEOUT.
Proof.
  intros. repeat split; try reflexivity.
  destruct fuel as [|fuel]; [reflexivity|].
  unfold union_U_V at 2. rewrite decode_union. fold union_U_V.
  change (fst (get_next_union_type union_U_V None false))
    with (Some int8_of_U).
  apply (union_U_V_cycles resolve_len_ran_interval regex_t regcomp regexec
           transform_data_xml2json resolve_identref_json fuel).
  - reflexivity.
  - left; reflexivity.
Qed.

(** * Further properties of the decoder *)

(** ** Numerals *)

(** The character of the digit [d]: 0-9, then a-z. *)
Definition digit_char (d : Z) : ascii :=
  ascii_of_N (Z.to_N (if d <? 10 then 48 + d else 87 + d)).

(** The text of a sequence of digits and, in base [b], its value. *)
Fixpoint numeral (ds : list Z) : string :=
  match ds with
  | [] => EmptyString
  | d :: rest => String (digit_char d) (numeral rest)
  end.

Definition number (b : Z) (ds : list Z) : Z :=
  fold_left (fun a d => a * b + d) ds 0.

(** White space only. *)
Fixpoint blank (s : string) : Prop :=
  match s with
  | EmptyString => True
  | String c r => isspace c = true /\ blank r
  end.

Lemma digit_value_char (d : Z) :
  0 <= d < 36 -> digit_value (digit_char d) = Some d.
Proof.
  intros H. replace d with (Z.of_nat (Z.to_nat d)) by lia.
  assert (Hn : (Z.to_nat d < 36)%nat) by lia.
  generalize dependent (Z.to_nat d). intros n Hn.
  do 36 (destruct n as [|n]; [reflexivity|]). lia.
Qed.

Lemma in_base_char (b d : Z) :
  0 <= d < 36 -> d < b -> in_base b (digit_char d) = Some d.
Proof.
  intros H Hb. unfold in_base. rewrite digit_value_char by exact H.
  destruct (Z.ltb_spec d b); [reflexivity|lia].
Qed.

Lemma isspace_no_digit (b : Z) (c : ascii) :
  isspace c = true -> in_base b c = None.
Proof.
  unfold isspace, in_base, digit_value. cbv zeta.
  set (n := Z.of_N (N_of_ascii c)). intros H.
  destruct (Z.leb_spec 48 n), (Z.leb_spec n 57), (Z.leb_spec 97 n),
    (Z.leb_spec n 122), (Z.leb_spec 65 n), (Z.leb_spec n 90),
    (Z.eqb_spec n 32), (Z.leb_spec 9 n), (Z.leb_spec n 13);
    cbn in *; try reflexivity; try discriminate; lia.
Qed.

Lemma skip_space_blank (s r : string) :
  blank s -> skip_space (s ++ r) = skip_space r.
Proof.
  induction s as [|c s IH]; cbn; [reflexivity|].
  intros [Hc Hs]. rewrite Hc. apply IH, Hs.
Qed.

Lemma skip_space_blank_all (s : string) : blank s -> skip_space s = "".
Proof.
  induction s as [|c s IH]; cbn; [reflexivity|].
  intros [Hc Hs]. rewrite Hc. apply IH, Hs.
Qed.

(** The text after a numeral ends the run of digits of base [b]. *)
Definition ends_digits (b : Z) (rest : string) : Prop :=
  match rest with
  | EmptyString => True
  | String c _ => in_base b c = None
  end.

Lemma ends_digits_blank (b : Z) (s : string) : blank s -> ends_digits b s.
Proof.
  destruct s as [|c s]; cbn; [auto|]. intros [Hc _].
  apply isspace_no_digit, Hc.
Qed.

Lemma digits_numeral (b : Z) (ds : list Z) (rest : string) :
  Forall (fun d => 0 <= d < 36 /\ d < b) ds ->
  ends_digits b rest ->
  forall acc,
    digits b (numeral ds ++ rest) acc
    = (fold_left (fun a d => a * b + d) ds acc, rest).
Proof.
  intros Hds Hrest. induction Hds as [|d ds [Hd Hb] _ IH]; intros acc.
  - cbn. destruct rest as [|c r]; [reflexivity|].
    cbn in Hrest. cbn. rewrite Hrest. reflexivity.
  - cbn [numeral append digits fold_left].
    rewrite in_base_char by assumption. apply IH.
Qed.

Lemma fold_digits_nonneg (b : Z) (ds : list Z) :
  0 <= b -> Forall (fun d => 0 <= d < 36 /\ d < b) ds ->
  forall acc, 0 <= acc -> 0 <= fold_left (fun a d => a * b + d) ds acc.
Proof.
  intros Hb Hds. induction Hds as [|d ds [Hd _] _ IH]; intros acc Ha; cbn.
  - exact Ha.
  - apply IH. nia.
Qed.

Definition sign_text (neg : bool) : string := if neg then "-" else "".


(** The subject sequence of a decimal literal without a leading zero. *)
Lemma subject_decimal (base : Z) (lead trail : string) (neg : bool) (d : Z)
    (ds : list Z) :
  base = 0 \/ base = 10 ->
  blank lead -> ends_digits 10 trail ->
  1 <= d <= 9 -> Forall (fun x => 0 <= x <= 9) ds ->
  subject base (lead ++ sign_text neg ++ numeral (d :: ds) ++ trail)
  = Some (neg, number 10 (d :: ds), trail).
Proof.
  intros Hbase Hlead Htrail Hd Hds.
  assert (Hr : Forall (fun x => 0 <= x < 36 /\ x < 10) ds).
  { eapply Forall_impl; [|exact Hds]. cbv beta. intros; lia. }
  unfold subject. rewrite skip_space_blank by exact Hlead.
  unfold number. cbn [fold_left numeral].
  assert (Hc : d = 1 \/ d = 2 \/ d = 3 \/ d = 4 \/ d = 5 \/ d = 6 \/ d = 7
               \/ d = 8 \/ d = 9) by lia.
  destruct neg, Hbase as [-> | ->];
    decompose [or] Hc; subst d;
    cbn -[digits numeral]; unfold digits; fold digits;
    cbn [append in_base digit_value]; cbn -[digits numeral];
    rewrite digits_numeral by assumption; reflexivity.
Qed.

Lemma fold_digits_ge (b : Z) (ds : list Z) :
  1 <= b -> Forall (fun d => 0 <= d < 36 /\ d < b) ds ->
  forall acc, 0 <= acc -> acc <= fold_left (fun a d => a * b + d) ds acc.
Proof.
  intros Hb Hds. induction Hds as [|d ds [Hd _] _ IH]; intros acc Ha; cbn.
  - lia.
  - etransitivity; [|apply IH]; nia.
Qed.

Lemma number_nonneg (b : Z) (ds : list Z) :
  1 <= b -> Forall (fun d => 0 <= d < 36 /\ d < b) ds -> 0 <= number b ds.
Proof.
  intros Hb Hds. apply (fold_digits_ge b ds Hb Hds 0). lia.
Qed.

Lemma decimal_digits (ds : list Z) :
  Forall (fun x => 0 <= x <= 9) ds ->
  Forall (fun x => 0 <= x < 36 /\ x < 10) ds.
Proof.
  intros H. eapply Forall_impl; [|exact H]. cbv beta. intros; lia.
Qed.

(** X1.  A decimal literal, with white space around it and an optional minus
    sign, is read as its value; the result is OORVAL when the value lies
    outside [min..max]. *)
Theorem parse_int_decimal_literal (base : Z) (lead trail : string)
    (neg : bool) (d : Z) (ds : list Z) (min max : Z) (log : bool) :
  base = 0 \/ base = 10 ->
  blank lead -> blank trail ->
  1 <= d <= 9 -> Forall (fun x => 0 <= x <= 9) ds ->
  let v := if neg then - number 10 (d :: ds) else number 10 (d :: ds) in
  LLONG_MIN <= v <= LLONG_MAX ->
  parse_int
    (Some (lead ++ sign_text neg ++ numeral (d :: ds) ++ trail)%string)
    min max base log
  = if (v <? min) || (v >? max) then fail_log log LYE_OORVAL
    else EXIT_SUCCESS v.
Proof.
  intros Hbase Hlead Htrail Hd Hds v Hv.
  unfold parse_int, strtoll.
  rewrite subject_decimal
    by (try assumption; apply ends_digits_blank; assumption).
  fold v.
  destruct (Z.gtb_spec v LLONG_MAX); [lia|].
  destruct (Z.ltb_spec v LLONG_MIN); [lia|].
  cbn [st_errno st_value st_endptr orb].
  destruct ((v <? min) || (v >? max)); [reflexivity|].
  rewrite skip_space_blank_all by exact Htrail. reflexivity.
Qed.

Lemma parse_int_decimal_literal_witness :
  parse_int (Some " -128 ") (-128) 127 0 true = EXIT_SUCCESS (-128).
Proof.
  apply (parse_int_decimal_literal 0 " " " " true 1 [2; 8] (-128) 127 true).
  - left; reflexivity.
  - cbn; auto.
  - cbn; auto.
  - lia.
  - repeat constructor; lia.
  - vm_compute. split; discriminate.
Defined.

(** X2.  [strtoull] negates a literal with a minus sign in the unsigned type:
    "-n" is read as 2^64 - n, which an unsigned 64-bit leaf accepts. *)
Theorem parse_uint_decimal_literal (base : Z) (lead trail : string)
    (neg : bool) (d : Z) (ds : list Z) (max : Z) (log : bool) :
  base = 0 \/ base = 10 ->
  blank lead -> blank trail ->
  1 <= d <= 9 -> Forall (fun x => 0 <= x <= 9) ds ->
  number 10 (d :: ds) <= ULLONG_MAX ->
  let v :=
    if neg then ULLONG_MAX + 1 - number 10 (d :: ds)
    else number 10 (d :: ds) in
  parse_uint
    (Some (lead ++ sign_text neg ++ numeral (d :: ds) ++ trail)%string)
    max base log
  = if v >? max then fail_log log LYE_OORVAL else EXIT_SUCCESS v.
Proof.
  intros Hbase Hlead Htrail Hd Hds Hn v.
  assert (Hpos : 1 <= number 10 (d :: ds)).
  { unfold number. cbn [fold_left].
    pose proof (fold_digits_ge 10 ds ltac:(lia) (decimal_digits ds Hds)
                  (0 * 10 + d) ltac:(lia)). lia. }
  unfold parse_uint, strtoull.
  rewrite subject_decimal
    by (try assumption; apply ends_digits_blank; assumption).
  destruct (Z.gtb_spec (number 10 (d :: ds)) ULLONG_MAX); [lia|].
  cbn [st_errno st_value st_endptr orb].
  assert (Hval : (if neg then (- number 10 (d :: ds)) mod (ULLONG_MAX + 1)
                  else number 10 (d :: ds)) = v).
  { unfold v. destruct neg; [|reflexivity].
    rewrite <- (Z.mod_small (ULLONG_MAX + 1 - number 10 (d :: ds))
                  (ULLONG_MAX + 1)) by lia.
    replace (ULLONG_MAX + 1 - number 10 (d :: ds))
      with (- number 10 (d :: ds) + 1 * (ULLONG_MAX + 1)) by lia.
    rewrite Z.mod_add by (unfold ULLONG_MAX; lia). reflexivity. }
  rewrite Hval.
  destruct (v >? max); [reflexivity|].
  rewrite skip_space_blank_all by exact Htrail. reflexivity.
Qed.

Lemma parse_uint_decimal_literal_witness :
  parse_uint (Some "-1") ULLONG_MAX 0 true
  = EXIT_SUCCESS 18446744073709551615.
Proof.
  apply (parse_uint_decimal_literal 0 "" "" true 1 [] ULLONG_MAX true).
  - left; reflexivity.
  - cbn; auto.
  - cbn; auto.
  - lia.
  - constructor.
  - vm_compute. discriminate.
Defined.

(** X3.  An empty value, or one of white space only, is read as 0: [strtoll]
    and [strtoull] convert nothing and leave the end pointer at the start of
    the text, where only white space follows. *)
Theorem blank_integer_value_is_zero (s : string) (min max base : Z)
    (log : bool) :
  blank s ->
  parse_int (Some s) min max base log
  = (if (0 <? min) || (0 >? max) then fail_log log LYE_OORVAL
     else EXIT_SUCCESS 0)
  /\ parse_uint (Some s) max base log
     = (if 0 >? max then fail_log log LYE_OORVAL else EXIT_SUCCESS 0).
Proof.
  intros Hs.
  assert (Hsub : subject base s = None).
  { unfold subject. rewrite (skip_space_blank_all s Hs). cbn.
    destruct (base =? 0); [reflexivity|].
    destruct (base =? 16); reflexivity. }
  unfold parse_int, parse_uint, strtoll, strtoull. rewrite Hsub.
  cbn [st_errno st_value st_endptr orb].
  rewrite (skip_space_blank_all s Hs).
  split.
  - destruct ((0 <? min) || (0 >? max)); reflexivity.
  - destruct (0 >? max); reflexivity.
Qed.

Lemma blank_integer_value_is_zero_witness :
  parse_int (Some "  ") (-128) 127 0 true = EXIT_SUCCESS 0
  /\ parse_uint (Some "  ") 255 0 true = EXIT_SUCCESS 0.
Proof.
  apply (blank_integer_value_is_zero "  " (-128) 127 0 true).
  cbn; auto.
Defined.

Definition no_x (rest : string) : Prop :=
  match rest with
  | EmptyString => True
  | String c _ => is_x c = false
  end.

Lemma octal_digits (ds : list Z) :
  Forall (fun x => 0 <= x <= 7) ds ->
  Forall (fun x => 0 <= x < 36 /\ x < 8) ds.
Proof.
  intros H. eapply Forall_impl; [|exact H]. cbv beta. intros; lia.
Qed.

(** With base 0, a literal that starts with 0 is read in base 8. *)
Lemma subject_octal (ds : list Z) (rest : string) :
  Forall (fun x => 0 <= x <= 7) ds ->
  ends_digits 8 rest -> no_x rest ->
  subject 0 (String "0" (numeral ds ++ rest))
  = Some (false, number 8 ds, rest).
Proof.
  intros Hds Hrest Hx.
  assert (Hhex : hex_prefix (String "0" (numeral ds ++ rest)) = None).
  { destruct Hds as [|d ds Hd Hds]; cbn [numeral append hex_prefix].
    - destruct rest as [|c [|h r]]; try reflexivity.
      cbn in Hx. rewrite Hx. reflexivity.
    - destruct (numeral ds ++ rest)%string; [reflexivity|].
      assert (Hc : d = 0 \/ d = 1 \/ d = 2 \/ d = 3 \/ d = 4 \/ d = 5
                   \/ d = 6 \/ d = 7) by lia.
      decompose [or] Hc; subst d; reflexivity. }
  unfold subject. cbn [skip_space isspace]. cbn -[hex_prefix digits numeral].
  rewrite Hhex.
  change (String "0" (numeral ds ++ rest))
    with (numeral (0 :: ds) ++ rest)%string.
  rewrite digits_numeral.
  - reflexivity.
  - constructor; [lia|apply octal_digits, Hds].
  - exact Hrest.
Qed.

Lemma blank_no_x (s : string) : blank s -> no_x s.
Proof.
  destruct s as [|c s]; cbn; [auto|]. intros [Hc _].
  unfold isspace in Hc. unfold is_x.
  destruct c as [[] [] [] [] [] [] [] []]; try reflexivity; discriminate.
Qed.

(** X4.  The integer cases call [parse_int] with base 0: a literal with a
    leading zero is read in base 8, so "010" is 8, and a digit 8 or 9 after a
    leading zero ends the number and makes the value invalid. *)
Theorem leading_zero_is_read_as_octal (ds : list Z) (trail : string)
    (min max : Z) (log : bool) :
  Forall (fun x => 0 <= x <= 7) ds ->
  blank trail ->
  min <= number 8 ds <= max ->
  number 8 ds <= LLONG_MAX ->
  parse_int (Some (String "0" (numeral ds ++ trail))) min max 0 log
  = EXIT_SUCCESS (number 8 ds)
  /\ forall (d : Z) (rest : string),
       8 <= d <= 9 ->
       parse_int (Some (String "0" (numeral ds
                                      ++ String (digit_char d) rest)))
         min max 0 log
       = fail_log log LYE_INVAL.
Proof.
  intros Hds Htrail Hrange Hmax.
  pose proof (number_nonneg 8 ds ltac:(lia) (octal_digits ds Hds)) as Hpos.
  assert (Hrun : forall rest,
             ends_digits 8 rest -> no_x rest ->
             parse_int (Some (String "0" (numeral ds ++ rest))) min max 0 log
             = match skip_space rest with
               | EmptyString => EXIT_SUCCESS (number 8 ds)
               | String _ _ => fail_log log LYE_INVAL
               end).
  { intros rest He Hx. unfold parse_int, strtoll.
    rewrite subject_octal by assumption.
    destruct (Z.gtb_spec (number 8 ds) LLONG_MAX); [lia|].
    destruct (Z.ltb_spec (number 8 ds) LLONG_MIN);
      [unfold LLONG_MIN in *; lia|].
    cbn [st_errno st_value st_endptr orb].
    destruct (Z.ltb_spec (number 8 ds) min); [lia|].
    destruct (Z.gtb_spec (number 8 ds) max); [lia|].
    reflexivity. }
  split.
  - rewrite Hrun by (try apply ends_digits_blank; try apply blank_no_x;
                     assumption).
    rewrite skip_space_blank_all by exact Htrail. reflexivity.
  - intros d rest Hd.
    assert (Hc : d = 8 \/ d = 9) by lia.
    rewrite Hrun; destruct Hc as [-> | ->]; reflexivity.
Qed.

Lemma leading_zero_is_read_as_octal_witness :
  parse_int (Some "010") (-128) 127 0 true = EXIT_SUCCESS 8
  /\ parse_int (Some "0108") (-128) 127 0 true
     = EXIT_FAILURE (Some LYE_INVAL).
Proof.
  destruct (leading_zero_is_read_as_octal [1; 0] "" (-128) 127 true)
    as [Hoctal Hnine].
  - repeat constructor; lia.
  - exact I.
  - vm_compute. split; discriminate.
  - vm_compute. discriminate.
  - split; [exact Hoctal|]. apply (Hnine 8 ""). lia.
Defined.

(** ** The integer types *)

(** The bounds the integer cases hand to [parse_int] and [parse_uint]. *)
Definition integer_range (b : LY_DATA_TYPE) : option (Z * Z) :=
  match b with
  | LY_TYPE_INT8 => Some (-128, 127)
  | LY_TYPE_INT16 => Some (-32768, 32767)
  | LY_TYPE_INT32 => Some (-2147483648, 2147483647)
  | LY_TYPE_INT64 => Some (LLONG_MIN, LLONG_MAX)
  | LY_TYPE_UINT8 => Some (0, 255)
  | LY_TYPE_UINT16 => Some (0, 65535)
  | LY_TYPE_UINT32 => Some (0, 4294967295)
  | LY_TYPE_UINT64 => Some (0, ULLONG_MAX)
  | _ => None
  end.

(** The integer in the member of [leaf->value] that belongs to the base. *)
Definition stored_integer (b : LY_DATA_TYPE) (v : lyd_val) : option Z :=
  match b, v with
  | LY_TYPE_INT8, val_int8 n | LY_TYPE_INT16, val_int16 n
  | LY_TYPE_INT32, val_int32 n | LY_TYPE_INT64, val_int64 n
  | LY_TYPE_UINT8, val_uint8 n | LY_TYPE_UINT16, val_uint16 n
  | LY_TYPE_UINT32, val_uint32 n | LY_TYPE_UINT64, val_uint64 n => Some n
  | _, _ => None
  end.

Lemma in_base_nonneg (b : Z) (c : ascii) (d : Z) :
  in_base b c = Some d -> 0 <= d.
Proof.
  unfold in_base, digit_value. cbv zeta.
  set (n := Z.of_N (N_of_ascii c)).
  destruct ((48 <=? n) && (n <=? 57)) eqn:E1.
  - destruct (n - 48 <? b); [|discriminate]. intros [= <-].
    apply andb_prop in E1 as [E1 _]. apply Z.leb_le in E1. lia.
  - destruct ((97 <=? n) && (n <=? 122)) eqn:E2.
    + destruct (n - 87 <? b); [|discriminate]. intros [= <-].
      apply andb_prop in E2 as [E2 _]. apply Z.leb_le in E2. lia.
    + destruct ((65 <=? n) && (n <=? 90)) eqn:E3; [|discriminate].
      destruct (n - 55 <? b); [|discriminate]. intros [= <-].
      apply andb_prop in E3 as [E3 _]. apply Z.leb_le in E3. lia.
Qed.

Lemma digits_nonneg (b : Z) (s : string) :
  0 <= b -> forall acc, 0 <= acc -> 0 <= fst (digits b s acc).
Proof.
  intros Hb. induction s as [|c r IH]; intros acc Ha.
  - exact Ha.
  - change (digits b (String c r) acc)
      with (match in_base b c with
            | Some d => digits b r (acc * b + d)
            | None => (acc, String c r)
            end).
    destruct (in_base b c) as [d|] eqn:E; [|exact Ha].
    apply IH. apply in_base_nonneg in E. nia.
Qed.

Lemma strtoull_nonneg (s : string) : 0 <= st_value (strtoull s 0).
Proof.
  unfold strtoull, subject.
  destruct (skip_space s) as [|c r] eqn:Es; cbn -[hex_prefix digits];
    [cbn; lia|].
  match goal with
  | |- context [let '(neg, s2) := ?p in _] => destruct p as [neg s2]
  end.
  match goal with
  | |- context [let '(b, s3) := ?p in _] =>
      assert (Hb : 0 <= fst p)
        by (destruct (hex_prefix s2); [cbn; lia|];
            destruct s2 as [|a ?]; [cbn; lia|];
            destruct (Ascii.eqb a "0") eqn:Ea;
            [apply Ascii.eqb_eq in Ea; subst a; cbn; lia|];
            destruct a as [[] [] [] [] [] [] [] []]; cbn; try lia;
            discriminate);
      destruct p as [b s3]
  end.
  cbn [fst] in Hb.
  destruct s3 as [|c3 r3]; [cbn; lia|].
  destruct (in_base b c3); [|cbn; lia].
  pose proof (digits_nonneg b (String c3 r3) Hb 0 ltac:(lia)) as Hd.
  destruct (digits b (String c3 r3) 0) as [v rest]. cbn [fst] in Hd.
  destruct (v >? ULLONG_MAX); cbn [st_value]; [unfold ULLONG_MAX; lia|].
  destruct neg; [|exact Hd].
  apply Z.mod_pos_bound. unfold ULLONG_MAX. lia.
Qed.

Section IntegerFacts.

Variable resolve_len_ran_interval : lys_type -> option (list len_ran_intv).
Variable regex_t : Type.
Variable regcomp : string -> option regex_t.
Variable regexec : regex_t -> string -> bool.
Variable transform_data_xml2json : string -> option string.
Variable resolve_identref_json : lys_type_info -> string -> option lys_ident.

Abbreviation decode_value :=
  (_xml_get_value resolve_len_ran_interval regex_t regcomp regexec
     transform_data_xml2json resolve_identref_json).

Lemma parse_int_bounds (s : option string) (min max base : Z) (log : bool)
    (n : Z) :
  parse_int s min max base log = EXIT_SUCCESS n -> min <= n <= max.
Proof.
  unfold parse_int. destruct s as [s|]; [|discriminate].
  destruct (st_errno (strtoll s base)); [discriminate|]. cbn [orb].
  destruct (Z.ltb_spec (st_value (strtoll s base)) min); [discriminate|].
  destruct (Z.gtb_spec (st_value (strtoll s base)) max); [discriminate|].
  cbn [orb]. destruct (skip_space _); [|destruct log; discriminate].
  intros [= <-]. lia.
Qed.

Lemma parse_uint_bounds (s : option string) (max : Z) (log : bool) (n : Z) :
  parse_uint s max 0 log = EXIT_SUCCESS n -> 0 <= n <= max.
Proof.
  unfold parse_uint. destruct s as [s|]; [|discriminate].
  pose proof (strtoull_nonneg s) as Hpos.
  destruct (st_errno (strtoull s 0)); [discriminate|]. cbn [orb].
  destruct (Z.gtb_spec (st_value (strtoull s 0)) max); [discriminate|].
  destruct (skip_space _); [|destruct log; discriminate].
  intros [= <-]. lia.
Qed.

Lemma int_case_stores (leaf : lyd_node_leaf) (unres : unres_data)
    (node_type : lys_type) (min max : Z) (store : Z -> lyd_val) (log : bool)
    (leaf' : lyd_node_leaf) (unres' : unres_data) :
  int_case resolve_len_ran_interval leaf unres node_type min max store log
  = (leaf', unres', EXIT_SUCCESS tt) ->
  exists n, value leaf' = store n /\ min <= n <= max.
Proof.
  unfold int_case.
  destruct (parse_int (value_str leaf) min max 0 log) as [n|e| |] eqn:E;
    try discriminate.
  apply parse_int_bounds in E.
  destruct (validate_length_range resolve_len_ran_interval 1 0 n 0 node_type)
    as [[]|e| |]; try discriminate.
  intros [= <- _]. exists n. split; [reflexivity|exact E].
Qed.

Lemma uint_case_stores (leaf : lyd_node_leaf) (unres : unres_data)
    (node_type : lys_type) (max : Z) (store : Z -> lyd_val) (log : bool)
    (leaf' : lyd_node_leaf) (unres' : unres_data) :
  uint_case resolve_len_ran_interval leaf unres node_type max store log
  = (leaf', unres', EXIT_SUCCESS tt) ->
  exists n, value leaf' = store n /\ 0 <= n <= max.
Proof.
  unfold uint_case.
  destruct (parse_uint (value_str leaf) max 0 log) as [n|e| |] eqn:E;
    try discriminate.
  apply parse_uint_bounds in E.
  destruct (validate_length_range resolve_len_ran_interval 0 n 0 0 node_type)
    as [[]|e| |]; try discriminate.
  intros [= <- _]. exists n. split; [reflexivity|exact E].
Qed.

(** X5.  The integer a successful decoding leaves in a leaf of an integer type
    lies within the bounds of the type, whatever the text was. *)
Theorem decoded_integer_is_in_range (fuel : nat) (leaf : lyd_node_leaf)
    (node_type : lys_type) (s : string) (options : lyd_options)
    (unres : unres_data) (log : bool) (leaf' : lyd_node_leaf)
    (unres' : unres_data) (lo hi : Z) :
  integer_range (base node_type) = Some (lo, hi) ->
  decode_value fuel leaf node_type (Some s) options unres log
  = (leaf', unres', EXIT_SUCCESS tt) ->
  exists n,
    stored_integer (base node_type) (value leaf') = Some n /\ lo <= n <= hi.
Proof.
  intros Hr. destruct fuel as [|fuel]; [discriminate|].
  cbn [_xml_get_value].
  assert (Hf : forall (X : Type) (a b : X),
             match LYD_OPT_FILTER options,
                   value_str
                     (set_value_type (set_value_str leaf (Some s))
                        (plain (base node_type))) with
             | true, None => a
             | _, _ => b
             end = b)
    by (intros; destruct (LYD_OPT_FILTER options); reflexivity).
  rewrite Hf. clear Hf.
  destruct (base node_type); try discriminate; injection Hr as <- <-;
    intros H;
    first [ apply int_case_stores in H | apply uint_case_stores in H ];
    destruct H as (n & -> & Hn); exists n;
    (split; [reflexivity|exact Hn]).
Qed.

End IntegerFacts.

Definition int8 : lys_type :=
  Lys_type 2 LY_TYPE_INT8 (Some (builtin 1 LY_TYPE_INT8)) info_none.

Lemma decoded_integer_is_in_range_witness :
  exists n,
    stored_integer LY_TYPE_INT8
      (value
         (fst (fst (_xml_get_value no_restriction unit no_regcomp no_regexec
                      no_transform no_identref 1 (fresh_leaf int8) int8
                      (Some "0x7f") no_options [] true))))
    = Some n
    /\ -128 <= n <= 127.
Proof.
  apply (decoded_integer_is_in_range no_restriction unit no_regcomp
           no_regexec no_transform no_identref 1 (fresh_leaf int8) int8
           "0x7f" no_options [] true _ [] (-128) 127).
  - reflexivity.
  - reflexivity.
Defined.

(** ** Decimal64: the normalizing loop *)

Lemma string_app_assoc (a b c : string) :
  ((a ++ b) ++ c = a ++ b ++ c)%string.
Proof. induction a as [|x a IH]; cbn; congruence. Qed.

Lemma string_app_nil (a : string) : (a ++ "")%string = a.
Proof. induction a as [|x a IH]; cbn; congruence. Qed.

Lemma string_app_length (a b : string) :
  String.length (a ++ b) = (String.length a + String.length b)%nat.
Proof. induction a as [|x a IH]; cbn; congruence. Qed.

Lemma char_at_app (pre rest : string) :
  char_at (pre ++ rest) (String.length pre) = char_at rest 0.
Proof.
  induction pre as [|c pre IH]; [reflexivity|]. cbn [append String.length].
  unfold char_at in *. cbn [String.get]. exact IH.
Qed.

Lemma digit_char_decimal (x : Z) :
  0 <= x <= 9 ->
  isdigit (digit_char x) = true
  /\ Ascii.eqb (digit_char x) "." = false
  /\ Ascii.eqb (digit_char x) zero = false
  /\ isspace (digit_char x) = false.
Proof.
  intros H.
  assert (Hc : x = 0 \/ x = 1 \/ x = 2 \/ x = 3 \/ x = 4 \/ x = 5 \/ x = 6
               \/ x = 7 \/ x = 8 \/ x = 9) by lia.
  decompose [or] Hc; subst x; repeat split; reflexivity.
Qed.

Section Dec64Loop.

Variable T : string.
Variable dig : Z.
Variable log : bool.

(** The character the loop reads in the state [v]. *)
Definition dec_char (v : dec_vars) : ascii :=
  char_at T (Z.to_nat (v_c v + v_i v)).

Lemma dec_char_at (pre rest : string) (v : dec_vars) :
  T = (pre ++ rest)%string ->
  Z.of_nat (String.length pre) = v_c v + v_i v ->
  dec_char v = char_at rest 0.
Proof.
  intros HT H. unfold dec_char. rewrite <- H, Nat2Z.id, HT.
  apply char_at_app.
Qed.

Lemma dec64_loop_step (fuel : nat) (v : dec_vars) :
  v_i v < DECSIZE ->
  dec64_loop (S fuel) T dig v log
  = match dec64_body T dig v with
    | dec_continue v' => dec64_loop fuel T dig v' log
    | dec_break dec => EXIT_SUCCESS dec
    | dec_fail e => fail_log log e
    end.
Proof.
  intros H. cbn [dec64_loop].
  destruct (Z.ltb_spec (v_i v) DECSIZE); [reflexivity|lia].
Qed.

(** A run of digits is copied to [dec]. *)
Lemma dec64_digits_run (ds : list Z) :
  forall (pre rest : string) (v : dec_vars) (fuel : nat),
    T = (pre ++ numeral ds ++ rest)%string ->
    Z.of_nat (String.length pre) = v_c v + v_i v ->
    Forall (fun x => 0 <= x <= 9) ds ->
    0 <= v_i v -> v_i v + Z.of_nat (List.length ds) <= 20 ->
    v_d v + Z.of_nat (List.length ds) <= 19 ->
    (if v_found v then Z.of_nat (List.length ds) <= v_j v else v_j v = 0) ->
    dec64_loop (List.length ds + fuel) T dig v log
    = dec64_loop fuel T dig
        {| v_c := v_c v; v_i := v_i v + Z.of_nat (List.length ds);
           v_j := if v_found v then v_j v - Z.of_nat (List.length ds) else 0;
           v_d := v_d v + Z.of_nat (List.length ds);
           v_found := v_found v;
           v_dec := (v_dec v ++ numeral ds)%string |} log.
Proof.
  induction ds as [|x ds IH]; intros pre rest v fuel HT Hp Hds Hi Hi' Hd Hj.
  - cbn [List.length Nat.add numeral]. f_equal.
    destruct v as [c i j d found dec]. cbn in *.
    rewrite !Z.add_0_r, Z.sub_0_r.
    rewrite string_app_nil.
    destruct found; [reflexivity|]. subst j. reflexivity.
  - cbn [List.length] in *. apply Forall_cons_iff in Hds as [Hx Hds'].
    destruct (digit_char_decimal x Hx) as (Hdg & Hpt & Hz & _).
    cbn [Nat.add]. rewrite dec64_loop_step by (unfold DECSIZE; lia).
    assert (Hch : dec_char v = digit_char x)
      by (rewrite (dec_char_at pre (numeral (x :: ds) ++ rest) v HT Hp);
          reflexivity).
    unfold dec64_body. cbv zeta. fold (dec_char v).
    rewrite Hch, Hpt, Hz, Hdg. cbn [negb andb].
    destruct (Z.gtb_spec (v_d v + 1) (DECSIZE - 2));
      [unfold DECSIZE in *; lia|].
    assert (Hnz : v_found v && (v_j v =? 0) = false).
    { destruct (v_found v); [|reflexivity].
      destruct (Z.eqb_spec (v_j v) 0); [lia|reflexivity]. }
    rewrite Hnz. cbn [orb].
    rewrite (IH (pre ++ String (digit_char x) "")%string rest).
    + f_equal. cbn [v_c v_i v_j v_d v_found v_dec].
      destruct v as [c i j d found dec]. cbn in *.
      f_equal; try lia.
      * destruct found; [|reflexivity].
        destruct (Z.eqb_spec j 0); lia.
      * rewrite string_app_assoc. reflexivity.
    + rewrite HT, string_app_assoc. reflexivity.
    + cbn [v_c v_i]. rewrite string_app_length. cbn [String.length]. lia.
    + exact Hds'.
    + cbn [v_i]. lia.
    + cbn [v_i]. lia.
    + cbn [v_d]. lia.
    + cbn [v_found v_j].
      destruct (v_found v); destruct (Z.eqb_spec (v_j v) 0); lia.
Qed.

(** The decimal point starts the count of the fraction digits. *)
Lemma dec64_point (pre rest : string) (v : dec_vars) (fuel : nat) :
  T = (pre ++ String "." rest)%string ->
  Z.of_nat (String.length pre) = v_c v + v_i v ->
  v_i v < DECSIZE ->
  dec64_loop (1 + fuel) T dig v log
  = dec64_loop fuel T dig
      {| v_c := v_c v + 1; v_i := v_i v; v_j := dig; v_d := v_d v;
         v_found := true; v_dec := v_dec v |} log.
Proof.
  intros HT Hp Hi. change (1 + fuel)%nat with (S fuel).
  rewrite dec64_loop_step by exact Hi.
  assert (Hch : dec_char v = "."%char)
    by (rewrite (dec_char_at pre (String "." rest) v HT Hp); reflexivity).
  unfold dec64_body. cbv zeta. fold (dec_char v). rewrite Hch.
  cbn [Ascii.eqb Bool.eqb]. f_equal. f_equal. lia.
Qed.

(** A minus sign is copied when it is the first character. *)
Lemma dec64_minus (pre rest : string) (v : dec_vars) (fuel : nat) :
  T = (pre ++ String "-" rest)%string ->
  Z.of_nat (String.length pre) = v_c v ->
  v_i v = 0 -> v_j v = 0 -> v_found v = false -> v_d v <= 19 ->
  dec64_loop (S fuel) T dig v log
  = dec64_loop fuel T dig
      {| v_c := v_c v; v_i := 1; v_j := 0; v_d := v_d v; v_found := false;
         v_dec := (v_dec v ++ "-")%string |} log.
Proof.
  intros HT Hp Hi Hj Hf Hd.
  rewrite dec64_loop_step by (rewrite Hi; reflexivity).
  assert (Hch : dec_char v = "-"%char).
  { rewrite (dec_char_at pre (String "-" rest) v HT); [reflexivity|].
    rewrite Hi, Z.add_0_r. exact Hp. }
  assert (Hc : char_at T (Z.to_nat (v_c v)) = "-"%char).
  { unfold dec_char in Hch. rewrite Hi, Z.add_0_r in Hch. exact Hch. }
  unfold dec64_body. cbv zeta. fold (dec_char v). rewrite Hch, Hc, Hi, Hj, Hf.
  cbn [Ascii.eqb Bool.eqb isdigit negb andb orb Z.eqb].
  change (isdigit "-") with false. cbn [negb andb orb].
  destruct (Z.gtb_spec (v_d v) (DECSIZE - 2)); [unfold DECSIZE in *; lia|].
  reflexivity.
Qed.

(** At the end of the text the fraction is padded with zeros. *)
Lemma dec64_padding (k : nat) :
  forall (v : dec_vars) (fuel : nat),
    dec_char v = zero ->
    v_found v = true -> v_j v = Z.of_nat k ->
    0 <= v_i v -> v_i v + Z.of_nat k <= 20 ->
    v_d v + Z.of_nat k <= 19 ->
    dec64_loop (S k + fuel) T dig v log
    = EXIT_SUCCESS (v_dec v ++ numeral (repeat 0 k))%string.
Proof.
  induction k as [|k IH]; intros v fuel Hch Hf Hj Hi Hi' Hd.
  - cbn [Nat.add]. rewrite dec64_loop_step by (unfold DECSIZE; lia).
    unfold dec64_body. cbv zeta. fold (dec_char v). rewrite Hch, Hf, Hj.
    cbn. rewrite string_app_nil. reflexivity.
  - cbn [Nat.add]. rewrite dec64_loop_step by (unfold DECSIZE; lia).
    unfold dec64_body. cbv zeta. fold (dec_char v). rewrite Hch, Hf, Hj.
    change (Ascii.eqb zero ".") with false.
    change (Ascii.eqb zero zero) with true. cbv iota.
    destruct (Z.eqb_spec (Z.of_nat (S k)) 0); [lia|].
    destruct (Z.gtb_spec (v_d v + 1) (DECSIZE - 2));
      [unfold DECSIZE in *; lia|].
    change (S (k + fuel)) with (S k + fuel)%nat. rewrite IH.
    + cbn [v_dec repeat numeral]. rewrite string_app_assoc. reflexivity.
    + unfold dec_char in *. cbn [v_c v_i].
      replace (v_c v - 1 + (v_i v + 1)) with (v_c v + v_i v) by lia.
      exact Hch.
    + reflexivity.
    + cbn [v_j]. lia.
    + cbn [v_i]. lia.
    + cbn [v_i]. lia.
    + cbn [v_d]. lia.
Qed.

(** Without a decimal point the end of the text starts the padding. *)
Lemma dec64_body_end (v : dec_vars) :
  dec_char v = zero -> v_found v = false ->
  dec64_body T dig v
  = dec64_body T dig
      {| v_c := v_c v; v_i := v_i v; v_j := dig; v_d := v_d v;
         v_found := true; v_dec := v_dec v |}.
Proof.
  intros Hch Hf. unfold dec64_body. cbv zeta.
  change (char_at T (Z.to_nat (v_c v + v_i v))) with (dec_char v).
  cbn [v_c v_i v_j v_d v_found v_dec].
  change (char_at T (Z.to_nat (v_c v + v_i v))) with (dec_char v).
  rewrite Hch, Hf. reflexivity.
Qed.

End Dec64Loop.

(** No white space. *)
Fixpoint solid (s : string) : Prop :=
  match s with
  | EmptyString => True
  | String c r => isspace c = false /\ solid r
  end.

Lemma solid_app (a b : string) : solid a -> solid b -> solid (a ++ b).
Proof.
  induction a as [|c a IH]; cbn; [auto|]. intros [Hc Ha] Hb. auto.
Qed.

Lemma solid_numeral (ds : list Z) :
  Forall (fun x => 0 <= x <= 9) ds -> solid (numeral ds).
Proof.
  induction 1 as [|x ds Hx _ IH]; cbn; [exact I|].
  split; [apply (digit_char_decimal x Hx)|exact IH].
Qed.

Lemma solid_sign (neg : bool) : solid (sign_text neg).
Proof. destruct neg; cbn; auto. Qed.

Lemma identifier_len_solid (s : string) :
  solid s -> identifier_len s = String.length s.
Proof.
  induction s as [|c s IH]; cbn; [reflexivity|].
  intros [Hc Hs]. rewrite Hc, IH by exact Hs. reflexivity.
Qed.

Lemma leading_space_blank (lead body : string) :
  blank lead -> solid body ->
  leading_space (lead ++ body) = String.length lead.
Proof.
  intros Hl Hb. induction lead as [|c lead IH]; cbn.
  - destruct body as [|c r]; [reflexivity|]. cbn in *.
    destruct Hb as [-> _]. reflexivity.
  - destruct Hl as [Hc Hl]. rewrite Hc, IH by exact Hl. reflexivity.
Qed.

Lemma string_drop_app (a b : string) :
  string_drop (String.length a) (a ++ b) = b.
Proof.
  induction a as [|c a IH]; cbn; [destruct b; reflexivity|exact IH].
Qed.

Lemma numeral_length (ds : list Z) :
  String.length (numeral ds) = List.length ds.
Proof. induction ds as [|x ds IH]; cbn; congruence. Qed.

Lemma numeral_app (a b : list Z) :
  numeral (a ++ b) = (numeral a ++ numeral b)%string.
Proof. induction a as [|x a IH]; cbn; congruence. Qed.

Lemma sign_length (neg : bool) :
  String.length (sign_text neg) = if neg then 1%nat else 0%nat.
Proof. destruct neg; reflexivity. Qed.

(** The state of the loop after the sign and the integer digits. *)
Lemma dec64_integer_part (lead rest : string) (neg : bool) (ints : list Z)
    (dig : Z) (log : bool) (fuel : nat) :
  Forall (fun x => 0 <= x <= 9) ints ->
  Z.of_nat (List.length ints) <= 19 ->
  let T := (lead ++ sign_text neg ++ numeral ints ++ rest)%string in
  dec64_loop ((if neg then 1 else 0) + (List.length ints + fuel)) T dig
    {| v_c := Z.of_nat (String.length lead); v_i := 0; v_j := 0; v_d := 0;
       v_found := false; v_dec := "" |} log
  = dec64_loop fuel T dig
      {| v_c := Z.of_nat (String.length lead);
         v_i := Z.of_nat (String.length (sign_text neg))
                + Z.of_nat (List.length ints);
         v_j := 0; v_d := Z.of_nat (List.length ints); v_found := false;
         v_dec := (sign_text neg ++ numeral ints)%string |} log.
Proof.
  intros Hints Hlen T.
  destruct neg; cbn [sign_text String.length Nat.add Z.of_nat].
  - rewrite (dec64_minus T dig log lead (numeral ints ++ rest));
      try reflexivity; [|cbn [v_d]; lia].
    rewrite (dec64_digits_run T dig log ints (lead ++ "-") rest);
      try assumption; cbn [v_c v_i v_j v_d v_found v_dec];
      try reflexivity; try lia.
    + unfold T. cbn [sign_text]. rewrite string_app_assoc. reflexivity.
    + rewrite string_app_length. cbn [String.length]. lia.
  - rewrite (dec64_digits_run T dig log ints lead rest);
      try assumption; cbn [v_c v_i v_j v_d v_found v_dec];
      try reflexivity; lia.
Qed.

Lemma dec64_loop_same_body (T : string) (dig : Z) (log : bool)
    (v v' : dec_vars) (fuel : nat) :
  v_i v = v_i v' ->
  dec64_body T dig v = dec64_body T dig v' ->
  dec64_loop fuel T dig v log = dec64_loop fuel T dig v' log.
Proof.
  intros Hi Hb. destruct fuel as [|fuel]; [reflexivity|].
  cbn [dec64_loop]. rewrite Hi, Hb. reflexivity.
Qed.

(** The text handed to [parse_int] for a decimal literal: the sign and the
    digits without the point, the fraction padded with zeros to
    fraction-digits digits. *)
Lemma dec64_normalize_literal (lead : string) (neg : bool)
    (ints frac : list Z) (point : bool) (dig : Z) (log : bool) :
  blank lead ->
  Forall (fun x => 0 <= x <= 9) ints ->
  Forall (fun x => 0 <= x <= 9) frac ->
  (point = false -> frac = []) ->
  Z.of_nat (List.length frac) <= dig ->
  Z.of_nat (List.length ints) + dig <= 19 ->
  dec64_normalize
    (lead ++ sign_text neg ++ numeral ints
       ++ (if point then String "." (numeral frac) else ""))
    dig log
  = EXIT_SUCCESS
      (sign_text neg
         ++ numeral (ints ++ frac
                       ++ repeat 0 (Z.to_nat dig - List.length frac)))%string.
Proof.
  intros Hlead Hints Hfrac Hpoint Hfd Hid.
  set (tail := if point then String "." (numeral frac) else "").
  set (T := (lead ++ sign_text neg ++ numeral ints ++ tail)%string).
  set (k := (Z.to_nat dig - List.length frac)%nat).
  assert (Hsolid : solid (sign_text neg ++ numeral ints ++ tail)).
  { apply solid_app; [apply solid_sign|].
    apply solid_app; [apply solid_numeral, Hints|].
    unfold tail. destruct point; cbn; [|exact I].
    split; [reflexivity|apply solid_numeral, Hfrac]. }
  assert (Htail : String.length tail
                  = ((if point then 1 else 0) + List.length frac)%nat).
  { unfold tail. destruct point; cbn [String.length].
    - rewrite numeral_length. reflexivity.
    - rewrite (Hpoint eq_refl). reflexivity. }
  unfold dec64_normalize. unfold T.
  rewrite leading_space_blank by assumption.
  rewrite string_drop_app, identifier_len_solid by exact Hsolid.
  rewrite !string_app_length, numeral_length, sign_length, Htail.
  destruct (Z.gtb_spec
              (Z.of_nat ((if neg then 1 else 0)
                         + (List.length ints
                            + ((if point then 1 else 0)
                               + List.length frac)))) DECSIZE) as [Hlong|_].
  { unfold DECSIZE in Hlong. destruct neg, point; lia. }
  fold T.
  replace 64%nat
    with ((if neg then 1 else 0)
          + (List.length ints
             + ((if point then 1 else 0)
                + (List.length frac
                   + (S k + (64 - (if neg then 1 else 0) - List.length ints
                             - (if point then 1 else 0)
                             - List.length frac - S k))))))%nat
    by (unfold k; destruct neg, point; lia).
  unfold T. rewrite dec64_integer_part by (try assumption; lia).
  fold T. rewrite sign_length. rewrite numeral_app, numeral_app.
  destruct point.
  - rewrite (dec64_point T dig log (lead ++ sign_text neg ++ numeral ints)
               (numeral frac));
      [|unfold T, tail; rewrite !string_app_assoc; reflexivity
       |cbn [v_c v_i]; rewrite !string_app_length, numeral_length,
          sign_length; destruct neg; lia
       |cbn [v_i]; unfold DECSIZE; destruct neg; lia].
    rewrite (dec64_digits_run T dig log frac
               (lead ++ sign_text neg ++ numeral ints ++ ".") "");
      [|unfold T, tail; rewrite !string_app_assoc, string_app_nil;
        reflexivity
       |cbn [v_c v_i]; rewrite !string_app_length, numeral_length,
          sign_length; cbn [String.length]; destruct neg; lia
       |exact Hfrac
       |cbn [v_i]; destruct neg; lia
       |cbn [v_i]; destruct neg; lia
       |cbn [v_d]; lia
       |cbn [v_found v_j]; exact Hfd].
    cbn [v_c v_i v_j v_d v_found v_dec].
    rewrite dec64_padding; cbn [v_c v_i v_j v_d v_found v_dec].
    + rewrite !string_app_assoc. reflexivity.
    + unfold dec_char. cbn [v_c v_i].
      replace (Z.to_nat _)
        with (String.length
                (lead ++ sign_text neg ++ numeral ints ++ "."
                   ++ numeral frac)).
      * unfold T, tail.
        replace (lead ++ sign_text neg ++ numeral ints
                   ++ String "." (numeral frac))%string
          with ((lead ++ sign_text neg ++ numeral ints ++ "."
                   ++ numeral frac) ++ "")%string
          by (rewrite string_app_nil; reflexivity).
        rewrite char_at_app. reflexivity.
      * rewrite !string_app_length, !numeral_length, sign_length.
        cbn [String.length]. destruct neg; lia.
    + reflexivity.
    + unfold k. lia.
    + destruct neg; lia.
    + unfold k. destruct neg; lia.
    + unfold k. lia.
  - pose proof (Hpoint eq_refl) as Hnil.
    assert (Hk : Z.of_nat k = dig)
      by (unfold k; rewrite Hnil in *; cbn [List.length] in *; lia).
    rewrite Hnil. cbn [List.length numeral append]. rewrite !Nat.add_0_l.
    match goal with
    | |- dec64_loop ?f T dig ?v log = _ =>
        assert (Hend : dec_char T v = zero)
    end.
    { unfold dec_char. cbn [v_c v_i].
      replace (Z.to_nat _)
        with (String.length (lead ++ sign_text neg ++ numeral ints)).
      - unfold T, tail.
        replace (lead ++ sign_text neg ++ numeral ints ++ "")%string
          with ((lead ++ sign_text neg ++ numeral ints) ++ "")%string
          by (rewrite !string_app_assoc; reflexivity).
        rewrite char_at_app. reflexivity.
      - rewrite !string_app_length, !numeral_length, sign_length.
        destruct neg; lia. }
    match goal with
    | |- dec64_loop ?f T dig ?v log = _ =>
        rewrite (dec64_loop_same_body T dig log v
                   {| v_c := v_c v; v_i := v_i v; v_j := dig; v_d := v_d v;
                      v_found := true; v_dec := v_dec v |} f eq_refl
                   (dec64_body_end T dig v Hend eq_refl))
    end.
    rewrite dec64_padding; cbn [v_c v_i v_j v_d v_found v_dec].
    + rewrite string_app_assoc. reflexivity.
    + exact Hend.
    + reflexivity.
    + lia.
    + destruct neg; lia.
    + destruct neg; lia.
    + lia.
Qed.

Lemma fold_digits_app (b : Z) (a c : list Z) (acc : Z) :
  fold_left (fun x d => x * b + d) (a ++ c) acc
  = fold_left (fun x d => x * b + d) c
      (fold_left (fun x d => x * b + d) a acc).
Proof. apply fold_left_app. Qed.

Lemma fold_digits_zeros (b : Z) (k : nat) (acc : Z) :
  fold_left (fun x d => x * b + d) (repeat 0 k) acc = acc * b ^ Z.of_nat k.
Proof.
  revert acc. induction k as [|k IH]; intros acc.
  - cbn. lia.
  - cbn [repeat fold_left]. rewrite IH, Nat2Z.inj_succ, Z.pow_succ_r by lia.
    lia.
Qed.

Lemma number_app_zeros (b : Z) (ds : list Z) (k : nat) :
  number b (ds ++ repeat 0 k) = number b ds * b ^ Z.of_nat k.
Proof.
  unfold number. rewrite fold_digits_app. apply fold_digits_zeros.
Qed.

Lemma fold_digits_bound (ds : list Z) :
  Forall (fun x => 0 <= x <= 9) ds ->
  forall acc,
    0 <= acc ->
    0 <= fold_left (fun x d => x * 10 + d) ds acc
    < (acc + 1) * 10 ^ Z.of_nat (List.length ds).
Proof.
  induction 1 as [|x ds Hx _ IH]; intros acc Ha.
  - cbn. lia.
  - cbn [fold_left List.length]. rewrite Nat2Z.inj_succ, Z.pow_succ_r by lia.
    specialize (IH (acc * 10 + x) ltac:(lia)).
    assert (Hp : 0 < 10 ^ Z.of_nat (List.length ds))
      by (apply Z.pow_pos_nonneg; lia).
    nia.
Qed.

Lemma number_bound (ds : list Z) :
  Forall (fun x => 0 <= x <= 9) ds ->
  0 <= number 10 ds < 10 ^ Z.of_nat (List.length ds).
Proof.
  intros H. pose proof (fold_digits_bound ds H 0 ltac:(lia)) as Hb.
  unfold number. lia.
Qed.

(** In base 10 a literal may start with zeros. *)
Lemma subject_base10 (neg : bool) (ds : list Z) :
  ds <> [] -> Forall (fun x => 0 <= x <= 9) ds ->
  subject 10 (sign_text neg ++ numeral ds) = Some (neg, number 10 ds, "").
Proof.
  intros Hne Hds. destruct ds as [|d ds]; [congruence|].
  apply Forall_cons_iff in Hds as [Hd Hds].
  pose proof (decimal_digits ds Hds) as Hr.
  unfold subject, number. cbn [fold_left numeral].
  assert (Hc : d = 0 \/ d = 1 \/ d = 2 \/ d = 3 \/ d = 4 \/ d = 5 \/ d = 6
               \/ d = 7 \/ d = 8 \/ d = 9) by lia.
  pose proof (digits_numeral 10 ds "" Hr I) as Hrun.
  rewrite string_app_nil in Hrun.
  destruct neg; decompose [or] Hc; subst d;
    cbn -[digits numeral]; unfold digits; fold digits;
    cbn [in_base digit_value]; cbn -[digits numeral];
    rewrite Hrun; reflexivity.
Qed.

Section Dec64Facts.

Variable resolve_len_ran_interval : lys_type -> option (list len_ran_intv).
Variable regex_t : Type.
Variable regcomp : string -> option regex_t.
Variable regexec : regex_t -> string -> bool.
Variable transform_data_xml2json : string -> option string.
Variable resolve_identref_json : lys_type_info -> string -> option lys_ident.

(** X6.  A decimal64 literal, with or without a decimal point and with at most
    fraction-digits digits after it, is stored as the integer its digits make
    once the fraction is padded to fraction-digits digits: the value times
    10^fraction-digits. (The type has no range restriction: the range check is
    the subject of claim C1.) *)
Theorem decimal64_is_stored_scaled (fuel : nat) (leaf : lyd_node_leaf)
    (node_type type : lys_type) (options : lyd_options) (unres : unres_data)
    (log : bool) (lead : string) (neg : bool) (ints frac : list Z)
    (point : bool) (dig : Z) :
  base node_type = LY_TYPE_DEC64 ->
  locate_definitions node_type = Some type ->
  info_dec64_dig type = dig ->
  resolve_len_ran_interval node_type = Some [] ->
  blank lead ->
  Forall (fun x => 0 <= x <= 9) ints ->
  Forall (fun x => 0 <= x <= 9) frac ->
  (point = false -> frac = []) ->
  1 <= dig ->
  Z.of_nat (List.length frac) <= dig ->
  Z.of_nat (List.length ints) + dig <= 18 ->
  let text :=
    (lead ++ sign_text neg ++ numeral ints
       ++ (if point then String "." (numeral frac) else ""))%string in
  let num :=
    number 10 (ints ++ frac) * 10 ^ (dig - Z.of_nat (List.length frac)) in
  _xml_get_value resolve_len_ran_interval regex_t regcomp regexec
    transform_data_xml2json resolve_identref_json (S fuel) leaf node_type
    (Some text) options unres log
  = (set_value
       (set_value_type (set_value_str leaf (Some text))
          (plain LY_TYPE_DEC64))
       (val_dec64 (if neg then - num else num)),
     unres, EXIT_SUCCESS tt).
Proof.
  intros Hbase Hloc Hdig Hres Hlead Hints Hfrac Hpoint Hd1 Hfd Hid text num.
  set (k := (Z.to_nat dig - List.length frac)%nat).
  set (ds := ints ++ frac ++ repeat 0 k).
  assert (Hds : Forall (fun x => 0 <= x <= 9) ds).
  { unfold ds. apply Forall_app. split; [exact Hints|].
    apply Forall_app. split; [exact Hfrac|].
    apply Forall_forall. intros x Hx. apply repeat_spec in Hx. lia. }
  assert (Hlen : Z.of_nat (List.length ds) = Z.of_nat (List.length ints) + dig).
  { unfold ds, k. rewrite !length_app, repeat_length. lia. }
  assert (Hnum : number 10 ds = num).
  { unfold ds, num. rewrite app_assoc, number_app_zeros. f_equal. f_equal.
    unfold k. lia. }
  pose proof (number_bound ds Hds) as Hb. rewrite Hlen, Hnum in Hb.
  assert (Hpow : 10 ^ (Z.of_nat (List.length ints) + dig) <= 10 ^ 18)
    by (apply Z.pow_le_mono_r; lia).
  assert (Hne : ds <> []).
  { intros E. rewrite E in Hlen. cbn in Hlen. lia. }
  cbn [_xml_get_value]. rewrite Hbase.
  assert (Hf : forall (X : Type) (a b : X),
             match LYD_OPT_FILTER options,
                   value_str
                     (set_value_type (set_value_str leaf (Some text))
                        (plain LY_TYPE_DEC64)) with
             | true, None => a
             | _, _ => b
             end = b)
    by (intros; destruct (LYD_OPT_FILTER options); reflexivity).
  rewrite Hf. clear Hf.
  unfold case_dec64. rewrite Hloc. cbn [value_str set_value_type set_value_str].
  rewrite Hdig. unfold text.
  rewrite dec64_normalize_literal by (try assumption; lia).
  fold k. fold ds.
  unfold parse_int, strtoll. rewrite subject_base10 by assumption.
  rewrite Hnum.
  set (v := if neg then - num else num).
  assert (Hv : LLONG_MIN <= v <= LLONG_MAX)
    by (unfold v, LLONG_MIN, LLONG_MAX; destruct neg; lia).
  destruct (Z.gtb_spec v LLONG_MAX); [lia|].
  destruct (Z.ltb_spec v LLONG_MIN); [lia|].
  cbn [st_errno st_value st_endptr orb skip_space].
  destruct (Z.ltb_spec v LLONG_MIN); [lia|].
  destruct (Z.gtb_spec v LLONG_MAX); [lia|].
  cbn [orb].
  destruct (Z.leb_spec 0 dig); [|lia].
  destruct (Z.ltb_spec dig 31); [|lia].
  cbn [andb]. unfold validate_length_range. rewrite Hres. reflexivity.
Qed.

End Dec64Facts.

Definition dec64_2 : lys_type :=
  Lys_type 2 LY_TYPE_DEC64 (Some (builtin 1 LY_TYPE_DEC64)) (info_dec64 2).

Lemma decimal64_is_stored_scaled_witness :
  _xml_get_value no_restriction unit no_regcomp no_regexec no_transform
    no_identref 1 (fresh_leaf dec64_2) dec64_2 (Some " -12.5") no_options []
    true
  = (set_value
       (set_value_type
          (set_value_str (fresh_leaf dec64_2) (Some " -12.5"))
          (plain LY_TYPE_DEC64))
       (val_dec64 (-1250)),
     [], EXIT_SUCCESS tt).
Proof.
  apply (decimal64_is_stored_scaled no_restriction unit no_regcomp no_regexec
           no_transform no_identref 0 (fresh_leaf dec64_2) dec64_2 dec64_2
           no_options [] true " " true [1; 2] [5] true 2).
  - reflexivity.
  - reflexivity.
  - reflexivity.
  - reflexivity.
  - cbn; auto.
  - repeat constructor; lia.
  - repeat constructor; lia.
  - discriminate.
  - lia.
  - cbn; lia.
  - cbn; lia.
Defined.

(** The state of the loop after the sign, the integer digits, the decimal
    point and the fraction digits. *)
Lemma dec64_fraction_part (lead rest : string) (neg : bool)
    (ints frac : list Z) (dig : Z) (log : bool) (fuel : nat) :
  Forall (fun x => 0 <= x <= 9) ints ->
  Forall (fun x => 0 <= x <= 9) frac ->
  Z.of_nat (List.length frac) <= dig ->
  Z.of_nat (List.length ints) + Z.of_nat (List.length frac) <= 19 ->
  let T :=
    (lead ++ sign_text neg ++ numeral ints
       ++ String "." (numeral frac ++ rest))%string in
  dec64_loop
    ((if neg then 1 else 0)
     + (List.length ints + (1 + (List.length frac + fuel)))) T dig
    {| v_c := Z.of_nat (String.length lead); v_i := 0; v_j := 0; v_d := 0;
       v_found := false; v_dec := "" |} log
  = dec64_loop fuel T dig
      {| v_c := Z.of_nat (String.length lead) + 1;
         v_i := Z.of_nat (String.length (sign_text neg))
                + Z.of_nat (List.length ints)
                + Z.of_nat (List.length frac);
         v_j := dig - Z.of_nat (List.length frac);
         v_d := Z.of_nat (List.length ints) + Z.of_nat (List.length frac);
         v_found := true;
         v_dec := (sign_text neg ++ numeral ints ++ numeral frac)%string |}
      log.
Proof.
  intros Hints Hfrac Hfd Hd T.
  unfold T. rewrite dec64_integer_part by (try assumption; lia).
  fold T. rewrite sign_length.
  rewrite (dec64_point T dig log (lead ++ sign_text neg ++ numeral ints)
             (numeral frac ++ rest));
    [|unfold T; rewrite !string_app_assoc; reflexivity
     |cbn [v_c v_i]; rewrite !string_app_length, numeral_length,
        sign_length; destruct neg; lia
     |cbn [v_i]; unfold DECSIZE; destruct neg; lia].
  rewrite (dec64_digits_run T dig log frac
             (lead ++ sign_text neg ++ numeral ints ++ ".") rest);
    [|unfold T; rewrite !string_app_assoc; reflexivity
     |cbn [v_c v_i]; rewrite !string_app_length, numeral_length,
        sign_length; cbn [String.length]; destruct neg; lia
     |exact Hfrac
     |cbn [v_i]; destruct neg; lia
     |cbn [v_i]; destruct neg; lia
     |cbn [v_d]; lia
     |cbn [v_found v_j]; exact Hfd].
  cbn [v_c v_i v_j v_d v_found v_dec].
  rewrite !string_app_assoc. reflexivity.
Qed.

Lemma isspace_char (c : ascii) :
  isspace c = true ->
  isdigit c = false /\ Ascii.eqb c "." = false /\ Ascii.eqb c zero = false.
Proof.
  destruct c as [[] [] [] [] [] [] [] []]; intros H;
    try discriminate H; repeat split; reflexivity.
Qed.

Lemma leading_space_stop (lead : string) (c : ascii) (r : string) :
  blank lead -> isspace c = false ->
  leading_space (lead ++ String c r) = String.length lead.
Proof.
  intros Hl Hc. induction lead as [|x lead IH]; cbn.
  - rewrite Hc. reflexivity.
  - destruct Hl as [Hx Hl]. rewrite Hx, IH by exact Hl. reflexivity.
Qed.

Lemma identifier_len_stop (body : string) (c : ascii) (r : string) :
  solid body -> isspace c = true ->
  identifier_len (body ++ String c r) = String.length body.
Proof.
  intros Hb Hc. induction body as [|x body IH]; cbn.
  - rewrite Hc. reflexivity.
  - destruct Hb as [Hx Hb]. rewrite Hx, IH by exact Hb. reflexivity.
Qed.

Lemma dec64_normalize_trailing_space (lead rest : string) (neg : bool)
    (d : Z) (ints frac : list Z) (point : bool) (c : ascii) (dig : Z)
    (log : bool) :
  blank lead ->
  0 <= d <= 9 ->
  Forall (fun x => 0 <= x <= 9) ints ->
  Forall (fun x => 0 <= x <= 9) frac ->
  (point = false -> frac = []) ->
  Z.of_nat (List.length frac) <= dig ->
  Z.of_nat (List.length ints) + 1 + dig <= 19 ->
  isspace c = true ->
  dec64_normalize
    (lead ++ sign_text neg ++ numeral (d :: ints)
       ++ (if point then String "." (numeral frac) else "")
       ++ String c rest)
    dig log
  = fail_log log LYE_INVAL.
Proof.
  intros Hlead Hd Hints Hfrac Hpoint Hfd Hid Hc.
  assert (Hdi : Forall (fun x => 0 <= x <= 9) (d :: ints))
    by (constructor; assumption).
  set (tail := if point then String "." (numeral frac) else "").
  set (body := (sign_text neg ++ numeral (d :: ints) ++ tail)%string).
  assert (Hsolid : solid body).
  { apply solid_app; [apply solid_sign|].
    apply solid_app; [apply solid_numeral, Hdi|].
    unfold tail. destruct point; cbn; [|exact I].
    split; [reflexivity|apply solid_numeral, Hfrac]. }
  assert (Hbody : exists b r, body = String b r /\ isspace b = false).
  { unfold body. destruct neg; cbn [sign_text append numeral].
    - eexists _, _. split; reflexivity.
    - eexists _, _. split; [reflexivity|].
      apply (digit_char_decimal d Hd). }
  assert (Htext : (lead ++ sign_text neg ++ numeral (d :: ints) ++ tail
                     ++ String c rest)%string
                  = (lead ++ body ++ String c rest)%string).
  { unfold body. rewrite !string_app_assoc. reflexivity. }
  assert (Htail : String.length tail
                  = ((if point then 1 else 0) + List.length frac)%nat).
  { unfold tail. destruct point; cbn [String.length].
    - rewrite numeral_length. reflexivity.
    - rewrite (Hpoint eq_refl). reflexivity. }
  unfold dec64_normalize.
  assert (Hls : leading_space
                  (lead ++ sign_text neg ++ numeral (d :: ints) ++ tail
                     ++ String c rest) = String.length lead).
  { rewrite Htext. destruct Hbody as (b & r & -> & Hb).
    cbn [append]. apply leading_space_stop; assumption. }
  rewrite Hls. rewrite Htext at 1. rewrite string_drop_app.
  rewrite identifier_len_stop by assumption.
  unfold body at 1.
  rewrite !string_app_length, numeral_length, sign_length, Htail.
  cbn [List.length] in *.
  destruct (Z.gtb_spec
              (Z.of_nat ((if neg then 1 else 0)
                         + (S (List.length ints)
                            + ((if point then 1 else 0)
                               + List.length frac)))) DECSIZE) as [Hlong|_].
  { unfold DECSIZE in Hlong. destruct neg, point; lia. }
  assert (Hstep : forall (T : string) (v : dec_vars) (fuel : nat),
             dec_char T v = c -> 1 <= v_i v < DECSIZE ->
             dec64_loop (S fuel) T dig v log = fail_log log LYE_INVAL).
  { intros T v fuel Hch Hi. rewrite dec64_loop_step by lia.
    destruct (isspace_char c Hc) as (Hdg & Hpt & Hz).
    unfold dec64_body. cbv zeta. fold (dec_char T v).
    rewrite Hch, Hpt, Hz, Hdg.
    destruct (Z.eqb_spec (v_i v) 0); [lia|]. reflexivity. }
  destruct point; unfold tail.
  - replace 64%nat
      with ((if neg then 1 else 0)
            + (List.length (d :: ints)
               + (1 + (List.length frac
                       + S (64 - (if neg then 1 else 0)
                            - List.length (d :: ints) - 1
                            - List.length frac - 1)))))%nat
      by (cbn [List.length]; destruct neg; lia).
    change (String "." (numeral frac) ++ String c rest)%string
      with (String "." (numeral frac ++ String c rest)).
    rewrite dec64_fraction_part
      by (try assumption; cbn [List.length]; lia).
    apply Hstep.
    + unfold dec_char. cbn [v_c v_i].
      replace (Z.to_nat _)
        with (String.length
                (lead ++ sign_text neg ++ numeral (d :: ints) ++ "."
                   ++ numeral frac)).
      * replace (lead ++ sign_text neg ++ numeral (d :: ints)
                   ++ String "." (numeral frac ++ String c rest))%string
          with ((lead ++ sign_text neg ++ numeral (d :: ints) ++ "."
                   ++ numeral frac) ++ String c rest)%string
          by (rewrite !string_app_assoc; reflexivity).
        rewrite char_at_app. reflexivity.
      * rewrite !string_app_length, !numeral_length, sign_length.
        cbn [String.length List.length]. destruct neg; lia.
    + cbn [v_i]. rewrite sign_length. unfold DECSIZE.
      cbn [List.length]. destruct neg; lia.
  - replace 64%nat
      with ((if neg then 1 else 0)
            + (List.length (d :: ints)
               + S (64 - (if neg then 1 else 0)
                    - List.length (d :: ints) - 1)))%nat
      by (cbn [List.length]; destruct neg; lia).
    cbn [append].
    rewrite dec64_integer_part by (try assumption; cbn [List.length]; lia).
    apply Hstep.
    + unfold dec_char. cbn [v_c v_i].
      replace (Z.to_nat _)
        with (String.length
                (lead ++ sign_text neg ++ numeral (d :: ints))).
      * replace (lead ++ sign_text neg ++ numeral (d :: ints)
                   ++ String c rest)%string
          with ((lead ++ sign_text neg ++ numeral (d :: ints))
                  ++ String c rest)%string
          by (rewrite !string_app_assoc; reflexivity).
        rewrite char_at_app. reflexivity.
      * rewrite !string_app_length, !numeral_length, sign_length.
        destruct neg; lia.
    + cbn [v_i]. rewrite sign_length. unfold DECSIZE.
      cbn [List.length]. destruct neg; lia.
Qed.

Lemma dec64_normalize_excess_fraction (lead more : string) (neg : bool)
    (ints frac : list Z) (x : Z) (dig : Z) (log : bool) :
  blank lead ->
  Forall (fun x => 0 <= x <= 9) ints ->
  Forall (fun x => 0 <= x <= 9) frac ->
  0 <= x <= 9 ->
  solid more ->
  Z.of_nat (List.length frac) = dig ->
  Z.of_nat (List.length ints) + dig + Z.of_nat (String.length more) <= 18 ->
  dec64_normalize
    (lead ++ sign_text neg ++ numeral ints
       ++ String "." (numeral frac ++ String (digit_char x) more))
    dig log
  = fail_log log LYE_OORVAL.
Proof.
  intros Hlead Hints Hfrac Hx Hmore Hfd Hlen.
  set (body := (sign_text neg ++ numeral ints
                  ++ String "." (numeral frac
                                   ++ String (digit_char x) more))%string).
  assert (Hsolid : solid body).
  { apply solid_app; [apply solid_sign|].
    apply solid_app; [apply solid_numeral, Hints|].
    cbn. split; [reflexivity|].
    apply solid_app; [apply solid_numeral, Hfrac|].
    cbn. split; [apply (digit_char_decimal x Hx)|exact Hmore]. }
  unfold dec64_normalize. fold body.
  rewrite leading_space_blank, string_drop_app, identifier_len_solid
    by assumption.
  unfold body at 1.
  rewrite !string_app_length, numeral_length, sign_length.
  cbn [String.length]. rewrite string_app_length, numeral_length.
  cbn [String.length].
  match goal with
  | |- (if ?t then _ else _) = _ => destruct (Z.gtb_spec
      (Z.of_nat ((if neg then 1 else 0)
                 + (List.length ints
                    + S (List.length frac + S (String.length more)))))
      DECSIZE) as [Hlong|_]
  end.
  { unfold DECSIZE in Hlong. destruct neg; lia. }
  replace 64%nat
    with ((if neg then 1 else 0)
          + (List.length ints
             + (1 + (List.length frac
                     + S (64 - (if neg then 1 else 0)
                          - List.length ints - 1
                          - List.length frac - 1)))))%nat
    by (destruct neg; lia).
  unfold body.
  rewrite dec64_fraction_part by (try assumption; lia).
  match goal with
  | |- dec64_loop _ ?T dig ?v log = _ =>
      assert (Hch : dec_char T v = digit_char x)
  end.
  { unfold dec_char. cbn [v_c v_i].
    replace (Z.to_nat _)
      with (String.length
              (lead ++ sign_text neg ++ numeral ints ++ "."
                 ++ numeral frac)).
    - replace (lead ++ sign_text neg ++ numeral ints
                 ++ String "." (numeral frac
                                  ++ String (digit_char x) more))%string
        with ((lead ++ sign_text neg ++ numeral ints ++ "."
                 ++ numeral frac) ++ String (digit_char x) more)%string
        by (rewrite !string_app_assoc; reflexivity).
      rewrite char_at_app. reflexivity.
    - rewrite !string_app_length, !numeral_length, sign_length.
      cbn [String.length]. destruct neg; lia. }
  rewrite dec64_loop_step
    by (cbn [v_i]; rewrite sign_length; unfold DECSIZE; destruct neg; lia).
  destruct (digit_char_decimal x Hx) as (Hdg & Hpt & Hz & _).
  unfold dec64_body. cbv zeta.
  match goal with
  | |- context [char_at ?T (Z.to_nat (v_c ?v + v_i ?v))] =>
      change (char_at T (Z.to_nat (v_c v + v_i v))) with (dec_char T v)
  end.
  rewrite Hch, Hpt, Hz, Hdg. cbn [negb andb v_found v_j].
  destruct (Z.eqb_spec (dig - Z.of_nat (List.length frac)) 0); [|lia].
  rewrite orb_true_r. reflexivity.
Qed.

Section Dec64Rejects.

Variable resolve_len_ran_interval : lys_type -> option (list len_ran_intv).
Variable regex_t : Type.
Variable regcomp : string -> option regex_t.
Variable regexec : regex_t -> string -> bool.
Variable transform_data_xml2json : string -> option string.
Variable resolve_identref_json : lys_type_info -> string -> option lys_ident.

Lemma decode_dec64_invalid (fuel : nat) (leaf : lyd_node_leaf)
    (node_type type : lys_type) (text : string) (options : lyd_options)
    (unres : unres_data) (log : bool) (e : LY_ECODE) :
  base node_type = LY_TYPE_DEC64 ->
  locate_definitions node_type = Some type ->
  dec64_normalize text (info_dec64_dig type) log = fail_log log e ->
  snd (_xml_get_value resolve_len_ran_interval regex_t regcomp regexec
         transform_data_xml2json resolve_identref_json (S fuel) leaf
         node_type (Some text) options unres log)
  = fail_log log e.
Proof.
  intros Hbase Hloc Hn. cbn [_xml_get_value]. rewrite Hbase.
  assert (Hf : forall (X : Type) (a b : X),
             match LYD_OPT_FILTER options,
                   value_str
                     (set_value_type (set_value_str leaf (Some text))
                        (plain LY_TYPE_DEC64)) with
             | true, None => a
             | _, _ => b
             end = b)
    by (intros; destruct (LYD_OPT_FILTER options); reflexivity).
  rewrite Hf. unfold case_dec64. rewrite Hloc.
  cbn [value_str set_value_type set_value_str]. rewrite Hn. reflexivity.
Qed.

(** X7.  White space after the number makes a decimal64 value invalid, where
    the integer types accept it.  The loop that normalizes the number runs
    over the text up to its end, not only over the token measured before
    it: it meets the white-space character as a character that is not a
    digit, at an index other than 0, and returns INVAL there, before the
    character is stored in the buffer and before [parse_int] is called. *)
Theorem decimal64_rejects_trailing_space (fuel : nat) (leaf : lyd_node_leaf)
    (node_type type : lys_type) (options : lyd_options) (unres : unres_data)
    (log : bool) (lead rest : string) (neg : bool) (d : Z)
    (ints frac : list Z) (point : bool) (c : ascii) :
  base node_type = LY_TYPE_DEC64 ->
  locate_definitions node_type = Some type ->
  blank lead ->
  0 <= d <= 9 ->
  Forall (fun x => 0 <= x <= 9) ints ->
  Forall (fun x => 0 <= x <= 9) frac ->
  (point = false -> frac = []) ->
  Z.of_nat (List.length frac) <= info_dec64_dig type ->
  Z.of_nat (List.length ints) + 1 + info_dec64_dig type <= 19 ->
  isspace c = true ->
  snd (_xml_get_value resolve_len_ran_interval regex_t regcomp regexec
         transform_data_xml2json resolve_identref_json (S fuel) leaf
         node_type
         (Some (lead ++ sign_text neg ++ numeral (d :: ints)
                  ++ (if point then String "." (numeral frac) else "")
                  ++ String c rest)%string)
         options unres log)
  = fail_log log LYE_INVAL.
Proof.
  intros Hbase Hloc Hlead Hd Hints Hfrac Hpoint Hfd Hid Hc.
  apply (decode_dec64_invalid fuel leaf node_type type _ options unres log
           LYE_INVAL Hbase Hloc).
  apply dec64_normalize_trailing_space; assumption.
Qed.

(** X8.  One digit more after the point than fraction-digits allows is
    reported as a value out of range. *)
Theorem decimal64_rejects_excess_fraction (fuel : nat) (leaf : lyd_node_leaf)
    (node_type type : lys_type) (options : lyd_options) (unres : unres_data)
    (log : bool) (lead more : string) (neg : bool) (ints frac : list Z)
    (x : Z) :
  base node_type = LY_TYPE_DEC64 ->
  locate_definitions node_type = Some type ->
  blank lead ->
  Forall (fun x => 0 <= x <= 9) ints ->
  Forall (fun x => 0 <= x <= 9) frac ->
  0 <= x <= 9 ->
  solid more ->
  Z.of_nat (List.length frac) = info_dec64_dig type ->
  Z.of_nat (List.length ints) + info_dec64_dig type
  + Z.of_nat (String.length more) <= 18 ->
  snd (_xml_get_value resolve_len_ran_interval regex_t regcomp regexec
         transform_data_xml2json resolve_identref_json (S fuel) leaf
         node_type
         (Some (lead ++ sign_text neg ++ numeral ints
                  ++ String "." (numeral frac
                                   ++ String (digit_char x) more))%string)
         options unres log)
  = fail_log log LYE_OORVAL.
Proof.
  intros Hbase Hloc Hlead Hints Hfrac Hx Hmore Hfd Hlen.
  apply (decode_dec64_invalid fuel leaf node_type type _ options unres log
           LYE_OORVAL Hbase Hloc).
  apply dec64_normalize_excess_fraction; assumption.
Qed.

End Dec64Rejects.

Lemma decimal64_rejects_trailing_space_witness :
  snd (_xml_get_value no_restriction unit no_regcomp no_regexec no_transform
         no_identref 1 (fresh_leaf dec64_2) dec64_2 (Some "1.5 ") no_options
         [] true)
  = EXIT_FAILURE (Some LYE_INVAL).
Proof.
  apply (decimal64_rejects_trailing_space no_restriction unit no_regcomp
           no_regexec no_transform no_identref 0 (fresh_leaf dec64_2) dec64_2
           dec64_2 no_options [] true "" "" false 1 [] [5] true " ").
  - reflexivity.
  - reflexivity.
  - exact I.
  - lia.
  - constructor.
  - repeat constructor; lia.
  - discriminate.
  - cbn; lia.
  - cbn; lia.
  - reflexivity.
Defined.

Lemma decimal64_rejects_excess_fraction_witness :
  snd (_xml_get_value no_restriction unit no_regcomp no_regexec no_transform
         no_identref 1 (fresh_leaf dec64_2) dec64_2 (Some "1.505") no_options
         [] true)
  = EXIT_FAILURE (Some LYE_OORVAL).
Proof.
  apply (decimal64_rejects_excess_fraction no_restriction unit no_regcomp
           no_regexec no_transform no_identref 0 (fresh_leaf dec64_2) dec64_2
           dec64_2 no_options [] true "" "" false [1] [5; 0] 5).
  - reflexivity.
  - reflexivity.
  - exact I.
  - repeat constructor; lia.
  - repeat constructor; lia.
  - lia.
  - exact I.
  - reflexivity.
  - cbn; lia.
Defined.

(** ** Enumerations, strings and binary values *)

Lemma find_enum_some (enm : list lys_type_enum) (s : string)
    (e : lys_type_enum) :
  find_enum enm s = Some e -> In e enm /\ enm_name e = s.
Proof.
  induction enm as [|x enm IH]; cbn; [discriminate|].
  unfold strcmp. destruct (String.compare s (enm_name x)) eqn:E.
  - intros [= <-]. split; [left; reflexivity|].
    symmetry. apply String.compare_eq_iff, E.
  - intros H. destruct (IH H). auto.
  - intros H. destruct (IH H). auto.
Qed.

Lemma find_enum_none (enm : list lys_type_enum) (s : string) :
  find_enum enm s = None -> forall e, In e enm -> enm_name e <> s.
Proof.
  induction enm as [|x enm IH]; cbn; [intros _ e []|].
  unfold strcmp. destruct (String.compare s (enm_name x)) eqn:E;
    [discriminate| |];
    intros H e [<-|He]; try (apply IH; assumption);
    intros Heq; rewrite Heq in E;
    pose proof (String.compare_antisym s s) as Ha;
    rewrite E in Ha; discriminate Ha.
Qed.

Section ValueFacts.

Variable resolve_len_ran_interval : lys_type -> option (list len_ran_intv).
Variable regex_t : Type.
Variable regcomp : string -> option regex_t.
Variable regexec : regex_t -> string -> bool.
Variable transform_data_xml2json : string -> option string.
Variable resolve_identref_json : lys_type_info -> string -> option lys_ident.

Abbreviation decode_leaf :=
  (_xml_get_value resolve_len_ran_interval regex_t regcomp regexec
     transform_data_xml2json resolve_identref_json).

Lemma decode_with_content (fuel : nat) (leaf : lyd_node_leaf)
    (node_type : lys_type) (s : string) (options : lyd_options)
    (X : Type) (a b : X) :
  match LYD_OPT_FILTER options,
        value_str
          (set_value_type (set_value_str leaf (Some s))
             (plain (base node_type))) with
  | true, None => a
  | _, _ => b
  end = b.
Proof. destruct (LYD_OPT_FILTER options); reflexivity. Qed.

(** X9.  A freshly allocated leaf of an enumeration type is decoded exactly
    when its value is the name of a member of the enumeration, compared as a
    whole and case-sensitively; the member stored bears that name. Any other
    value is invalid. *)
Theorem enumeration_value_names_a_member (fuel : nat) (leaf : lyd_node_leaf)
    (node_type type : lys_type) (s : string) (options : lyd_options)
    (unres : unres_data) (log : bool) :
  base node_type = LY_TYPE_ENUM ->
  locate_definitions node_type = Some type ->
  value leaf = val_zero ->
  let r := decode_leaf (S fuel) leaf node_type (Some s) options unres log in
  ((exists e, In e (info_enums_enm type) /\ enm_name e = s) ->
   snd r = EXIT_SUCCESS tt
   /\ exists e, value (fst (fst r)) = val_enm e
                /\ In e (info_enums_enm type) /\ enm_name e = s)
  /\ ((forall e, In e (info_enums_enm type) -> enm_name e <> s) ->
      snd r = fail_log log LYE_INVAL).
Proof.
  intros Hbase Hloc Hval r. unfold r. cbn [_xml_get_value]. rewrite Hbase.
  rewrite (decode_with_content fuel leaf node_type s options).
  unfold case_enum. cbn [value_str set_value_type set_value_str].
  rewrite Hloc.
  destruct (find_enum (info_enums_enm type) s) as [e|] eqn:E.
  - apply find_enum_some in E as [Hin Hname]. split.
    + intros _. split; [reflexivity|]. exists e. auto.
    + intros Hno. exfalso. exact (Hno e Hin Hname).
  - pose proof (find_enum_none _ _ E) as Hno.
    cbn [value set_value_type set_value_str]. rewrite Hval. split.
    + intros (e & Hin & Hname). exfalso. exact (Hno e Hin Hname).
    + intros _. reflexivity.
Qed.

(** X10.  The length of a string or binary value is checked only when the type
    statement of the leaf itself has a length (and the patterns only when it
    has patterns): a leaf whose type is a bare reference to a typedef is given
    any value, whatever the typedef restricts. *)
Theorem inherited_length_is_not_checked (fuel : nat) (leaf : lyd_node_leaf)
    (node_type : lys_type) (s : string) (options : lyd_options)
    (unres : unres_data) (log : bool) :
  (base node_type = LY_TYPE_STRING \/ base node_type = LY_TYPE_BINARY) ->
  info node_type = info_none ->
  snd (decode_leaf (S fuel) leaf node_type (Some s) options unres log)
  = EXIT_SUCCESS tt.
Proof.
  intros Hbase Hinfo. cbn [_xml_get_value].
  rewrite (decode_with_content fuel leaf node_type s options).
  destruct Hbase as [-> | ->].
  - unfold case_string, info_str_length, info_str_patterns.
    rewrite Hinfo. reflexivity.
  - unfold case_binary, info_binary_length. rewrite Hinfo. reflexivity.
Qed.

End ValueFacts.

(** [typedef color { type enumeration { enum red; enum green; } }] and a
    leaf of type [color]. *)
Definition typedef_color : lys_type :=
  Lys_type 2 LY_TYPE_ENUM (Some (builtin 1 LY_TYPE_ENUM))
    (info_enums [ {| enm_name := "red"; enm_value := 0 |};
                  {| enm_name := "green"; enm_value := 1 |} ]).
Definition type_color : lys_type :=
  Lys_type 3 LY_TYPE_ENUM (Some typedef_color) info_none.

Lemma enumeration_value_names_a_member_witness :
  snd (_xml_get_value no_restriction unit no_regcomp no_regexec no_transform
         no_identref 1 (fresh_leaf type_color) type_color (Some "Red")
         no_options [] true)
  = EXIT_FAILURE (Some LYE_INVAL).
Proof.
  apply (enumeration_value_names_a_member no_restriction unit no_regcomp
           no_regexec no_transform no_identref 0 (fresh_leaf type_color)
           type_color typedef_color "Red" no_options [] true).
  - reflexivity.
  - reflexivity.
  - reflexivity.
  - intros e [<-|[<-|[]]]; discriminate.
Defined.

(** [typedef short { type string { length "1..4"; } }] and a leaf of type
    [short]; the restriction resolves to the interval 1..4. *)
Definition typedef_short : lys_type :=
  Lys_type 2 LY_TYPE_STRING (Some (builtin 1 LY_TYPE_STRING))
    (info_str (Some "1..4") []).
Definition type_short : lys_type :=
  Lys_type 3 LY_TYPE_STRING (Some typedef_short) info_none.
Definition resolve_1_4 : lys_type -> option (list len_ran_intv) :=
  fun _ => Some [uval 1 4].

Lemma inherited_length_is_not_checked_witness :
  snd (_xml_get_value resolve_1_4 unit no_regcomp no_regexec no_transform
         no_identref 1 (fresh_leaf type_short) type_short
         (Some "much too long") no_options [] true)
  = EXIT_SUCCESS tt.
Proof.
  apply (inherited_length_is_not_checked resolve_1_4 unit no_regcomp
           no_regexec no_transform no_identref 0 (fresh_leaf type_short)
           type_short "much too long" no_options [] true).
  - left; reflexivity.
  - reflexivity.
Defined.

(** ** Patterns and unions *)

(** The anchoring in the words of the specification: the expression gets
    a begin anchor unless it begins with [.*], and an end anchor unless it
    ends with [.*]. *)
Definition begins_with_any (expr : string) : bool :=
  match expr with
  | String a (String b _) => Ascii.eqb a "." && Ascii.eqb b "*"
  | _ => false
  end.

Fixpoint ends_with_any (expr : string) : bool :=
  match expr with
  | EmptyString => false
  | String _ rest => String.eqb expr ".*" || ends_with_any rest
  end.

Definition anchored (expr : string) : string :=
  ((if begins_with_any expr then "" else "^") ++ expr
   ++ (if ends_with_any expr then "" else "$"))%string.

Lemma ascii_compare_eqb (a b : ascii) :
  Ascii.compare a b = Eq <-> Ascii.eqb a b = true.
Proof.
  rewrite Ascii.eqb_eq. split.
  - apply Ascii.compare_eq_iff.
  - intros ->. unfold Ascii.compare. apply N.compare_refl.
Qed.

Lemma strncmp_any (s : string) :
  strncmp s ".*" 2 = Eq <-> begins_with_any s = true.
Proof.
  destruct s as [|a [|b r]]; cbn [strncmp begins_with_any].
  - split; discriminate.
  - destruct (Ascii.compare a "."); split; discriminate.
  - rewrite andb_true_iff, <- !ascii_compare_eqb.
    replace (strncmp r "" 0) with Eq by (destruct r; reflexivity).
    destruct (Ascii.compare a "."), (Ascii.compare b "*");
      split; try discriminate; try tauto;
      intros [H1 H2]; try discriminate H1; discriminate H2.
Qed.

(** The two characters the code compares are the last two. *)
Lemma last_two_any (expr : string) :
  (2 <= String.length expr)%nat ->
  begins_with_any (substring (String.length expr - 2) 2 expr)
  = ends_with_any expr.
Proof.
  induction expr as [|a r IH]; [cbn; lia|]. intros Hlen.
  destruct r as [|b [|c r']].
  - cbn in Hlen. lia.
  - cbn. destruct (Ascii.eqb a "."), (Ascii.eqb b "*"), (Ascii.eqb b ".");
      reflexivity.
  - replace (String.length (String a (String b (String c r'))) - 2)%nat
      with (S (String.length (String b (String c r')) - 2))
      by (cbn [String.length]; lia).
    change (substring (S (String.length (String b (String c r')) - 2)) 2
              (String a (String b (String c r'))))
      with (substring (String.length (String b (String c r')) - 2) 2
              (String b (String c r'))).
    rewrite IH by (cbn [String.length]; lia).
    cbn [ends_with_any].
    replace (String.eqb (String a (String b (String c r'))) ".*")
      with false; [reflexivity|].
    cbn. destruct (Ascii.eqb a "."), (Ascii.eqb b "*"); reflexivity.
Qed.

(** On an expression of two characters or more the code builds the
    expression anchored as the specification says. *)
Lemma posix_regex_anchored (expr : string) :
  (2 <= String.length expr)%nat -> posix_regex expr = Some (anchored expr).
Proof.
  intros Hlen. unfold posix_regex, anchored. cbv zeta.
  destruct (Nat.ltb_spec (String.length expr) 2) as [Hlt|_]; [lia|].
  pose proof (strncmp_any expr) as Hpre.
  pose proof (strncmp_any (substring (String.length expr - 2) 2 expr))
    as Hpost.
  rewrite (last_two_any expr Hlen) in Hpost.
  destruct (begins_with_any expr), (ends_with_any expr),
    (strncmp expr ".*" 2),
    (strncmp (substring (String.length expr - 2) 2 expr) ".*" 2);
    try reflexivity;
    try (destruct Hpre as [Hpre _]; discriminate (Hpre eq_refl));
    try (destruct Hpre as [_ Hpre]; discriminate (Hpre eq_refl));
    try (destruct Hpost as [Hpost _]; discriminate (Hpost eq_refl));
    try (destruct Hpost as [_ Hpost]; discriminate (Hpost eq_refl)).
Qed.

Section PatternChain.

Variable regex_t : Type.
Variable regcomp : string -> option regex_t.
Variable regexec : regex_t -> string -> bool.

(** The value matches the pattern [expr], anchored. *)
Definition matches (s : string) (expr : string) : bool :=
  match regcomp (anchored expr) with
  | Some preq => regexec preq s
  | None => false
  end.

(** X11.  [validate_pattern] on a chain of string types, every pattern of
    which has two characters at least and compiles once anchored (a begin
    anchor unless it begins with [.*], an end anchor unless it ends with
    [.*]), accepts a value exactly when it matches every anchored pattern
    of the chain, the typedefs' as well as the type's own; otherwise the
    value is invalid. *)
Theorem validate_pattern_checks_the_chain (s : string) (type : lys_type)
    (log : bool) :
  string_chain type ->
  Forall (fun expr => (2 <= String.length expr)%nat
                      /\ regcomp (anchored expr) <> None)
    (chain_patterns type) ->
  validate_pattern regex_t regcomp regexec (Some s) type log
  = if forallb (matches s) (chain_patterns type) then EXIT_SUCCESS tt
    else fail_log log LYE_INVAL.
Proof.
  intros Hchain Hall. rewrite validate_pattern_chain by exact Hchain.
  induction Hall as [|expr rest [Hlen Hcomp] _ IH].
  - reflexivity.
  - cbn [patterns_loop forallb]. unfold matches at 1.
    rewrite (posix_regex_anchored expr Hlen).
    destruct (regcomp (anchored expr)) as [preq|]; [|contradiction].
    destruct (regexec preq s); [exact IH|reflexivity].
Qed.

End PatternChain.

(** A stand-in for the regular expressions of the example: the anchored
    pattern "^[0-9]+$" matches the non-empty strings of digits. *)
Definition digits_regcomp (re : string) : option unit :=
  if String.eqb re "^[0-9]+$" then Some tt else None.

Fixpoint all_digits (s : string) : bool :=
  match s with
  | EmptyString => true
  | String c r => isdigit c && all_digits r
  end.

Definition digits_regexec (_ : unit) (s : string) : bool :=
  match s with EmptyString => false | _ => all_digits s end.

Lemma validate_pattern_checks_the_chain_witness :
  validate_pattern unit digits_regcomp digits_regexec (Some "abc")
    type_digits true
  = EXIT_FAILURE (Some LYE_INVAL).
Proof.
  apply (validate_pattern_checks_the_chain unit digits_regcomp
           digits_regexec "abc" type_digits true).
  - cbn. auto.
  - constructor; [split; [cbn; lia|discriminate]|constructor].
Defined.

Lemma next_in_member (alts : list lys_type) (prev_type : option positive)
    (found : bool) (r : lys_type) :
  fst (next_in alts prev_type found) = Some r -> In r alts.
Proof.
  revert found. induction alts as [|t alts IH]; intros found; cbn.
  - discriminate.
  - destruct prev_type as [prev|]; [|intros [= <-]; left; reflexivity].
    destruct found; [intros [= <-]; left; reflexivity|].
    destruct (Pos.eqb (type_addr t) prev); intros H; right;
      eapply IH; exact H.
Qed.

(** X12.  What [get_next_union_type] returns is one of the alternatives of the
    union and never a union itself: the union case of the decoder is never
    entered from within the loop over the alternatives. *)
Theorem get_next_union_type_yields_an_alternative (type : lys_type)
    (prev_type : option positive) (found : bool) (r : lys_type) :
  fst (get_next_union_type type prev_type found) = Some r ->
  In r (alternatives type) /\ base r <> LY_TYPE_UNION.
Proof.
  rewrite get_next_union_type_alternatives. intros H.
  apply next_in_member in H. split; [exact H|].
  pose proof (alternatives_plain type) as Hall.
  rewrite Forall_forall in Hall. apply Hall, H.
Qed.

Lemma get_next_union_type_yields_an_alternative_witness :
  In int16_of_U (alternatives union_U_V)
  /\ base int16_of_U <> LY_TYPE_UNION.
Proof.
  apply (get_next_union_type_yields_an_alternative union_U_V
           (Some (type_addr int8_of_U)) false int16_of_U).
  reflexivity.
Defined.

(** ** The bits a value sets *)

(** The array [leaf->value.bit] after the definitions at the indices [ks]
    have been stored in it. *)
Definition mark (bit : list lys_type_bit) (ks : list nat)
    (value_bit : list (option lys_type_bit)) : list (option lys_type_bit) :=
  fold_left (fun v k => set_nth v k (nth_error bit k)) ks value_bit.

Definition named_bits (bit : list lys_type_bit) : Prop :=
  Forall (fun b => bit_name b <> "") bit.

Lemma bits_loop_marks (bit : list lys_type_bit) (s : string) (i : nat)
    (vb : list (option lys_type_bit)) (log : bool) :
  named_bits bit ->
  snd (bits_loop bit s i vb log) = EXIT_SUCCESS tt ->
  exists ks,
    named bit ks (tokens s)
    /\ fst (bits_loop bit s i vb log) = mark bit ks vb.
Proof.
  intros Hne. funelim (bits_loop bit s i vb log).
  - intros _. exists []. repeat split; constructor.
  - intros Hs. rewrite tokens_unfold.
    destruct (H Hne Hs) as (ks & Hnamed & Hmark).
    apply find_bit_found in Heq.
    destruct Heq as (Hle & b & Hn & Hcmp & Hget).
    rewrite nth_error_skipn in Hn.
    replace (i + (k - i))%nat with k in Hn by lia.
    destruct (identifier_len (skip_space (String c r))) as [|n] eqn:E.
    + exfalso. apply nth_error_In in Hn.
      apply (proj1 (Forall_forall _ _) Hne) in Hn.
      destruct (bit_name b); [congruence|discriminate].
    + exists (k :: ks). split.
      * constructor; [|exact Hnamed].
        exists b. split; [exact Hn|].
        apply strncmp_names; auto.
        rewrite <- E. apply identifier_len_le.
      * exact Hmark.
  - unfold fail_log. simpl. destruct log; discriminate.
Qed.

Lemma set_nth_length {A : Type} (l : list A) (i : nat) (x : A) :
  List.length (set_nth l i x) = List.length l.
Proof.
  revert i. induction l as [|a l IH]; intros [|i]; cbn; auto.
Qed.

Lemma set_nth_same {A : Type} (l : list A) (i : nat) (x : A) :
  (i < List.length l)%nat -> nth_error (set_nth l i x) i = Some x.
Proof.
  revert i. induction l as [|a l IH]; intros [|i] H; cbn in *; try lia.
  - reflexivity.
  - apply IH. lia.
Qed.

Lemma set_nth_other {A : Type} (l : list A) (i j : nat) (x : A) :
  i <> j -> nth_error (set_nth l i x) j = nth_error l j.
Proof.
  revert i j. induction l as [|a l IH]; intros [|i] [|j] H; cbn; try lia;
    try reflexivity.
  apply IH. lia.
Qed.

Lemma mark_length (bit : list lys_type_bit) (ks : list nat)
    (vb : list (option lys_type_bit)) :
  List.length (mark bit ks vb) = List.length vb.
Proof.
  unfold mark. revert vb.
  induction ks as [|k ks IH]; intros vb; cbn [fold_left]; [reflexivity|].
  rewrite IH. apply set_nth_length.
Qed.

Lemma mark_lookup (bit : list lys_type_bit) (ks : list nat)
    (vb : list (option lys_type_bit)) (j : nat) :
  List.length vb = List.length bit ->
  Forall (fun k => (k < List.length bit)%nat) ks ->
  nth_error (mark bit ks vb) j
  = if existsb (Nat.eqb j) ks then Some (nth_error bit j)
    else nth_error vb j.
Proof.
  unfold mark. revert vb.
  induction ks as [|k ks IH]; intros vb Hl Hks; cbn [fold_left existsb].
  - reflexivity.
  - apply Forall_cons_iff in Hks as [Hk Hks].
    rewrite IH; [|rewrite set_nth_length; exact Hl|exact Hks].
    destruct (Nat.eqb j k) eqn:E; cbn [orb].
    + apply Nat.eqb_eq in E. subst k.
      rewrite set_nth_same by lia.
      destruct (existsb (Nat.eqb j) ks); reflexivity.
    + apply Nat.eqb_neq in E. rewrite set_nth_other by congruence.
      reflexivity.
Qed.

(** The bits of [bit] that the tokens [toks] name. *)
Definition bits_of (bit : list lys_type_bit) (toks : list string)
    : list (option lys_type_bit) :=
  map (fun b => if existsb (String.eqb (bit_name b)) toks then Some b
                else None) bit.

Lemma named_indices (bit : list lys_type_bit) (ks : list nat)
    (toks : list string) :
  named bit ks toks ->
  Forall (fun k => (k < List.length bit)%nat) ks.
Proof.
  induction 1 as [|k tok ks toks (b & Hb & _) _ IH]; constructor; auto.
  apply nth_error_Some. congruence.
Qed.

Lemma named_member (bit : list lys_type_bit) (ks : list nat)
    (toks : list string) (j : nat) (b : lys_type_bit) :
  NoDup (map bit_name bit) ->
  named bit ks toks ->
  nth_error bit j = Some b ->
  existsb (Nat.eqb j) ks = existsb (String.eqb (bit_name b)) toks.
Proof.
  intros Hnd Hn Hj.
  induction Hn as [|k tok ks toks (b' & Hb' & Hname) _ IH]; simpl;
    [reflexivity|].
  rewrite IH. f_equal.
  destruct (Nat.eqb j k) eqn:E.
  - apply Nat.eqb_eq in E. subst k.
    assert (b' = b) by congruence. subst b'. symmetry.
    apply String.eqb_eq. exact Hname.
  - symmetry. apply String.eqb_neq. intros He.
    apply Nat.eqb_neq in E. apply E.
    eapply unique_name_index; eauto. congruence.
Qed.

Lemma mark_bits_of (bit : list lys_type_bit) (ks : list nat)
    (toks : list string) :
  NoDup (map bit_name bit) ->
  named bit ks toks ->
  mark bit ks (repeat None (List.length bit)) = bits_of bit toks.
Proof.
  intros Hnd Hn. apply nth_error_ext. intros j.
  rewrite mark_lookup;
    [|apply repeat_length|eapply named_indices; exact Hn].
  unfold bits_of. rewrite nth_error_map.
  destruct (nth_error bit j) as [b|] eqn:Hj; simpl.
  - rewrite (named_member bit ks toks j b Hnd Hn Hj).
    destruct (existsb _ toks); [reflexivity|].
    rewrite nth_error_repeat; [reflexivity|].
    apply nth_error_Some. congruence.
  - assert (Hno : existsb (Nat.eqb j) ks = false).
    { apply not_true_is_false. intros He.
      apply existsb_exists in He. destruct He as (k & Hin & Hk).
      apply Nat.eqb_eq in Hk. subst k.
      pose proof (proj1 (Forall_forall _ _) (named_indices _ _ _ Hn) j Hin)
        as Hlt.
      cbv beta in Hlt. apply nth_error_None in Hj. lia. }
    rewrite Hno. apply nth_error_None. rewrite repeat_length.
    apply nth_error_None. exact Hj.
Qed.

(** *** White space after the last name *)

Fixpoint last_char (s : string) : option ascii :=
  match s with
  | EmptyString => None
  | String c EmptyString => Some c
  | String _ r => last_char r
  end.

Definition ends_with_space (s : string) : bool :=
  match last_char s with
  | Some c => isspace c
  | None => false
  end.

Lemma last_char_skip_space (s : string) :
  skip_space s <> "" -> last_char (skip_space s) = last_char s.
Proof.
  induction s as [|c r IH]; simpl; [reflexivity|].
  destruct (isspace c).
  - intros Hne. rewrite (IH Hne).
    destruct r; [exfalso; apply Hne; reflexivity|reflexivity].
  - reflexivity.
Qed.

Lemma last_char_identifier (s : string) :
  s <> "" ->
  match string_drop (identifier_len s) s with
  | EmptyString => ends_with_space s = false
  | rest => last_char rest = last_char s
  end.
Proof.
  induction s as [|c r IH]; intros Hne; [congruence|].
  cbn [identifier_len]. destruct (isspace c) eqn:E.
  - reflexivity.
  - cbn [string_drop]. destruct r as [|c' r'].
    + simpl. unfold ends_with_space. simpl. exact E.
    + specialize (IH ltac:(discriminate)).
      destruct (string_drop (identifier_len (String c' r')) (String c' r')).
      * unfold ends_with_space in *. exact IH.
      * rewrite IH. reflexivity.
Qed.

Lemma bits_loop_trailing_space (bit : list lys_type_bit) (s : string)
    (i : nat) (vb : list (option lys_type_bit)) (log : bool) :
  named_bits bit ->
  snd (bits_loop bit s i vb log) = EXIT_SUCCESS tt ->
  ends_with_space s = false.
Proof.
  intros Hne. funelim (bits_loop bit s i vb log).
  - reflexivity.
  - intros Hs. specialize (H Hne Hs).
    apply find_bit_found in Heq.
    destruct Heq as (Hle & b & Hn & Hcmp & Hget).
    rewrite nth_error_skipn in Hn. apply nth_error_In in Hn.
    apply (proj1 (Forall_forall _ _) Hne) in Hn.
    assert (Hs' : skip_space (String c r) <> "").
    { intros He. rewrite He in Hget. simpl in Hget.
      destruct (bit_name b); [congruence|discriminate]. }
    pose proof (last_char_identifier _ Hs') as Hlast.
    pose proof (last_char_skip_space _ Hs') as Hskip.
    unfold ends_with_space in *.
    destruct (string_drop _ (skip_space (String c r))).
    + rewrite <- Hskip. exact Hlast.
    + rewrite <- Hskip, <- Hlast. exact H.
  - unfold fail_log. simpl. destruct log; discriminate.
Qed.

Lemma skip_space_none (s : string) :
  identifier_len (skip_space s) = O -> skip_space s = "".
Proof.
  induction s as [|c r IH]; simpl; [reflexivity|].
  destruct (isspace c) eqn:E; [exact IH|]. simpl. rewrite E. discriminate.
Qed.

Lemma blank_ends_with_space (s : string) :
  s <> "" -> skip_space s = "" -> ends_with_space s = true.
Proof.
  unfold ends_with_space.
  induction s as [|c r IH]; intros Hne Hs; [congruence|].
  simpl in Hs. destruct (isspace c) eqn:E; [|discriminate].
  destruct r as [|c' r']; simpl; [exact E|].
  apply IH; [discriminate|exact Hs].
Qed.

Lemma strncmp_take (s : string) (len : nat) :
  (len <= String.length s)%nat -> strncmp (string_take len s) s len = Eq.
Proof.
  revert s. induction len as [|n IH]; intros s Hl; [reflexivity|].
  destruct s as [|c r]; simpl in Hl; [lia|]. simpl.
  unfold Ascii.compare. rewrite N.compare_refl.
  apply IH. lia.
Qed.

Lemma get_take (s : string) (len : nat) :
  String.get len (string_take len s) = None.
Proof.
  revert s. induction len as [|n IH]; intros [|c r]; simpl; auto.
Qed.

(** The search finds the definition a token names, whatever it starts
    from at or before it. *)
Lemma find_bit_complete (l : list lys_type_bit) (i k : nat) (s : string)
    (len : nat) (b : lys_type_bit) :
  NoDup (map bit_name l) ->
  nth_error l k = Some b ->
  bit_name b = string_take len s ->
  (len <= String.length s)%nat ->
  find_bit l i s len = Some (i + k)%nat.
Proof.
  revert i k. induction l as [|b0 rest IH]; intros i k Hnd Hk Hname Hlen.
  - destruct k; discriminate.
  - simpl in Hnd. apply NoDup_cons_iff in Hnd as [Hnot Hnd].
    destruct k as [|k]; simpl in Hk.
    + injection Hk as ->. simpl.
      rewrite Hname, strncmp_take, get_take by exact Hlen.
      f_equal. lia.
    + assert (Hskip : find_bit (b0 :: rest) i s len
                      = find_bit rest (S i) s len).
      { simpl.
        destruct (strncmp (bit_name b0) s len) eqn:E1; try reflexivity.
        destruct (String.get len (bit_name b0)) eqn:E2; try reflexivity.
        exfalso. apply Hnot.
        rewrite (strncmp_names _ _ _ E1 Hlen E2), <- Hname.
        apply in_map. eapply nth_error_In. exact Hk. }
      rewrite Hskip, (IH (S i) k Hnd Hk Hname Hlen). f_equal. lia.
Qed.

Lemma NoDup_skipn {A : Type} (n : nat) (l : list A) :
  NoDup l -> NoDup (skipn n l).
Proof.
  intros H. rewrite <- (firstn_skipn n l) in H.
  apply NoDup_app_remove_l in H. exact H.
Qed.

(** The converse of [bits_loop_ascending]. *)
Lemma bits_loop_accepts (bit : list lys_type_bit) (s : string) (i : nat)
    (vb : list (option lys_type_bit)) (log : bool) (ks : list nat) :
  NoDup (map bit_name bit) ->
  ascending i ks -> named bit ks (tokens s) ->
  ends_with_space s = false ->
  snd (bits_loop bit s i vb log) = EXIT_SUCCESS tt.
Proof.
  intros Hnd. revert ks.
  assert (Hfind : forall c r i ks,
            ascending i ks -> named bit ks (tokens (String c r)) ->
            ends_with_space (String c r) = false ->
            exists k ks',
              find_bit (skipn i bit) i (skip_space (String c r))
                (identifier_len (skip_space (String c r))) = Some k
              /\ ascending (S k) ks'
              /\ named bit ks'
                   (tokens
                      (string_drop (identifier_len (skip_space (String c r)))
                         (skip_space (String c r))))
              /\ ends_with_space
                   (string_drop (identifier_len (skip_space (String c r)))
                      (skip_space (String c r))) = false).
  { clear s i vb. intros c r i ks Hasc Hn Hend.
    rewrite tokens_unfold in Hn.
    assert (Hs : String c r <> "") by discriminate.
    revert Hn Hend Hs. generalize (String c r) as s. intros s Hn Hend Hs.
    destruct (identifier_len (skip_space s)) as [|n] eqn:E.
    - apply skip_space_none in E.
      rewrite (blank_ends_with_space s Hs E) in Hend. discriminate.
    - remember (skip_space s) as t eqn:Ht.
      inversion Hn as [|k tok ks' toks (b & Hb & Hname) Hn' Hk Htok].
      subst ks. clear Hn. destruct Hasc as [Hle Hasc].
      exists k, ks'. split; [|split; [exact Hasc|split; [exact Hn'|]]].
      + assert (Hf : find_bit (skipn i bit) i t (S n)
                     = Some (i + (k - i))%nat).
        { apply find_bit_complete with (b := b).
          * rewrite <- skipn_map. apply NoDup_skipn. exact Hnd.
          * rewrite nth_error_skipn.
            replace (i + (k - i))%nat with k by lia. exact Hb.
          * exact Hname.
          * rewrite <- E. apply identifier_len_le. }
        rewrite Hf. f_equal. lia.
      + assert (Hs' : t <> "")
          by (intros He; rewrite He in E; discriminate).
        pose proof (last_char_identifier _ Hs') as Hlast.
        rewrite E in Hlast. rewrite Ht in Hs'.
        pose proof (last_char_skip_space _ Hs') as Hskip.
        rewrite <- Ht in Hskip. unfold ends_with_space in *.
        destruct (string_drop (S n) t); [reflexivity|].
        rewrite Hlast, Hskip. exact Hend. }
  funelim (bits_loop bit s i vb log); intros ks Hasc Hn Hend.
  - reflexivity.
  - destruct (Hfind c r i ks Hasc Hn Hend) as (k' & ks' & Hf & Ha & Hn' & He).
    rewrite Heq in Hf. injection Hf as <-.
    eapply H; eauto.
  - destruct (Hfind c r i ks Hasc Hn Hend) as (k' & ks' & Hf & _).
    rewrite Heq in Hf. discriminate.
Qed.

Section BitsValue.

Variable resolve_len_ran_interval : lys_type -> option (list len_ran_intv).
Variable regex_t : Type.
Variable regcomp : string -> option regex_t.
Variable regexec : regex_t -> string -> bool.
Variable transform_data_xml2json : string -> option string.
Variable resolve_identref_json : lys_type_info -> string -> option lys_ident.

Abbreviation decode_bits_leaf :=
  (_xml_get_value resolve_len_ran_interval regex_t regcomp regexec
     transform_data_xml2json resolve_identref_json).

Lemma decode_bits_value (fuel : nat) (leaf : lyd_node_leaf) (a : positive)
    (d : option lys_type) (i : lys_type_info) (s : string)
    (options : lyd_options) (unres : unres_data) (log : bool)
    (type : lys_type) :
  locate_definitions (Lys_type a LY_TYPE_BITS d i) = Some type ->
  let '(leaf', _, r) :=
    decode_bits_leaf (S fuel) leaf (Lys_type a LY_TYPE_BITS d i) (Some s)
      options unres log in
  let run :=
    bits_loop (info_bits_bit type) s 0
      (repeat None (List.length (info_bits_bit type))) log in
  value leaf' = val_bit (fst run) /\ r = snd run.
Proof.
  intros Hl. cbn [_xml_get_value base].
  destruct (LYD_OPT_FILTER options);
    cbn [value_str set_value_type set_value_str];
    unfold case_bits; rewrite Hl;
    cbn [value_str set_value set_value_type set_value_str];
    destruct (bits_loop _ _ _ _ _); split; reflexivity.
Qed.

(** X13.  A bits value is accepted exactly when its tokens name bit
    definitions at strictly increasing indices and no white space follows the
    last name; the stored array then holds, at the index of each definition,
    the definition if the value names it and NULL if not. *)
Theorem bits_value_is_the_set_of_named_bits :
  forall (a : positive) (d : option lys_type) (i : lys_type_info)
         (type : lys_type) (fuel : nat) (leaf : lyd_node_leaf) (s : string)
         (options : lyd_options) (unres : unres_data) (log : bool),
    locate_definitions (Lys_type a LY_TYPE_BITS d i) = Some type ->
    let bit := info_bits_bit type in
    NoDup (map bit_name bit) ->
    named_bits bit ->
    let '(leaf', _, r) :=
      decode_bits_leaf (S fuel) leaf (Lys_type a LY_TYPE_BITS d i) (Some s)
        options unres log in
    (r = EXIT_SUCCESS tt
     <-> (exists ks, ascending 0 ks /\ named bit ks (tokens s))
         /\ ends_with_space s = false)
    /\ (r = EXIT_SUCCESS tt ->
        value leaf' = val_bit (bits_of bit (tokens s))).
Proof.
  intros a d i type fuel leaf s options unres log Hl bit Hnd Hne.
  pose proof (decode_bits_value fuel leaf a d i s options unres log type Hl)
    as Hrun.
  destruct (decode_bits_leaf _ _ _ _ _ _ _) as [[leaf' unres'] r].
  cbv zeta in Hrun. destruct Hrun as [Hv Hr]. fold bit in Hv, Hr.
  split; [split|].
  - intros Hok. rewrite Hr in Hok. split.
    + eapply bits_loop_ascending. exact Hok.
    + eapply bits_loop_trailing_space; [exact Hne|exact Hok].
  - intros [(ks & Hasc & Hn) Hend]. rewrite Hr.
    eapply bits_loop_accepts; eauto.
  - intros Hok. rewrite Hr in Hok. rewrite Hv. f_equal.
    destruct (bits_loop_marks bit s 0 (repeat None (List.length bit)) log
                Hne Hok) as (ks & Hn & Hmark).
    rewrite Hmark. apply mark_bits_of; assumption.
Qed.

End BitsValue.

Lemma bits_value_is_the_set_of_named_bits_witness :
  (let '(leaf, _, r) :=
     _xml_get_value no_restriction unit no_regcomp no_regexec no_transform
       no_identref 1 (fresh_leaf bits_abc) bits_abc (Some " a  c")
       no_options [] true in
   r = EXIT_SUCCESS tt
   /\ value leaf
      = val_bit [Some {| bit_name := "a"; bit_pos := 0 |}; None;
                 Some {| bit_name := "c"; bit_pos := 2 |}])
  /\ snd (_xml_get_value no_restriction unit no_regcomp no_regexec
            no_transform no_identref 1 (fresh_leaf bits_abc) bits_abc
            (Some "a c ") no_options [] true)
     = EXIT_FAILURE (Some LYE_INVAL).
Proof.
  assert (Hnd : NoDup (map bit_name (info_bits_bit bits_abc)))
    by (simpl; repeat constructor; simpl; intuition discriminate).
  assert (Hne : named_bits (info_bits_bit bits_abc))
    by (repeat constructor; discriminate).
  pose proof (bits_value_is_the_set_of_named_bits no_restriction unit
                no_regcomp no_regexec no_transform no_identref
                2%positive (Some (builtin 1 LY_TYPE_BITS))
                (info bits_abc) bits_abc 0%nat (fresh_leaf bits_abc) " a  c"
                no_options [] true eq_refl Hnd Hne) as Hacc.
  pose proof (bits_value_is_the_set_of_named_bits no_restriction unit
                no_regcomp no_regexec no_transform no_identref
                2%positive (Some (builtin 1 LY_TYPE_BITS))
                (info bits_abc) bits_abc 0%nat (fresh_leaf bits_abc) "a c "
                no_options [] true eq_refl Hnd Hne) as Hrej.
  pose proof (decode_bits no_restriction unit no_regcomp no_regexec
                no_transform no_identref 0%nat (fresh_leaf bits_abc)
                2%positive (Some (builtin 1 LY_TYPE_BITS)) (info bits_abc)
                "a c " no_options [] true bits_abc eq_refl) as Hrun.
  change (Lys_type 2 LY_TYPE_BITS (Some (builtin 1 LY_TYPE_BITS))
            (info bits_abc)) with bits_abc in Hacc, Hrej, Hrun.
  destruct (_xml_get_value _ _ _ _ _ _ 1 _ bits_abc (Some " a  c") _ _ _)
    as [[leaf1 u1] r1].
  destruct (_xml_get_value _ _ _ _ _ _ 1 _ bits_abc (Some "a c ") _ _ _)
    as [[leaf2 u2] r2].
  destruct Hacc as [Hiff Hval]. destruct Hrej as [Hiff' _].
  cbn [snd] in Hrun |- *.
  assert (Hok : r1 = EXIT_SUCCESS tt).
  { apply Hiff. split; [|reflexivity].
    exists [0%nat; 2%nat]. split; [simpl; lia|].
    repeat constructor; eexists; split; reflexivity. }
  split; [split; [exact Hok|exact (Hval Hok)]|].
  destruct (bits_loop_outcome (info_bits_bit bits_abc) "a c " 0
              (repeat None (List.length (info_bits_bit bits_abc))) true)
    as [Hs|Hf]; rewrite <- Hrun in *; [|exact Hf].
  apply Hiff' in Hs. destruct Hs as [_ Hend]. discriminate Hend.
Defined.

(** ** Range restrictions on numeric leaves *)

(** The value lies in the interval, bounds included: the order of the
    rationals, whatever the kind of the bounds. *)
Definition lies_in (v : Q) (iv : len_ran_intv) : Prop :=
  match iv with
  | uval min max | sval min max => (inject_Z min <= v <= inject_Z max)%Q
  | fval min max => (min <= v <= max)%Q
  end.

(** The kind the integer cases hand to [validate_length_range]. *)
Definition integer_kind (b : LY_DATA_TYPE) : Z :=
  match b with
  | LY_TYPE_INT8 | LY_TYPE_INT16 | LY_TYPE_INT32 | LY_TYPE_INT64 => 1
  | _ => 0
  end.

Lemma intv_sorted_wf (kind : Z) (intv : list len_ran_intv) :
  intv_sorted kind intv -> Forall (intv_wf kind) intv.
Proof.
  induction intv as [|a rest IH]; [constructor|].
  intros (Hwf & _ & Hrest). constructor; [exact Hwf|apply IH, Hrest].
Qed.

(** On intervals of its kind, the test of the code is the order of the
    numbers. *)
Lemma in_intv_lies_in (kind v : Z) (iv : len_ran_intv) :
  kind = 0 \/ kind = 1 ->
  intv_wf kind iv ->
  in_intv kind (if kind =? 0 then v else 0) (if kind =? 1 then v else 0)
    0%Q iv
  <-> lies_in (inject_Z v) iv.
Proof.
  intros Hk Hwf. unfold in_intv, inside_intv, lies_in.
  destruct iv as [mn mx|mn mx|mn mx]; destruct Hwf as [Hkind Hle];
    destruct Hk as [-> | ->]; try discriminate Hkind; cbn;
    rewrite andb_true_iff, !Z.leb_le, <- !Zle_Qle; tauto.
Qed.

Lemma exists_in_intv_lies_in (kind v : Z) (intv : list len_ran_intv) :
  kind = 0 \/ kind = 1 ->
  intv_sorted kind intv ->
  Exists
    (in_intv kind (if kind =? 0 then v else 0) (if kind =? 1 then v else 0)
       0%Q) intv
  <-> Exists (lies_in (inject_Z v)) intv.
Proof.
  intros Hk Hs. apply intv_sorted_wf in Hs.
  induction Hs as [|iv rest Hwf _ IH].
  - split; intros H; inversion H.
  - rewrite !Exists_cons, IH, (in_intv_lies_in kind v iv Hk Hwf). tauto.
Qed.

(** [type decimal64 { fraction-digits 1; range "1.0..2.0|5.0..6.0"; }]. *)
Definition dec64_1_2_5_6 : lys_type :=
  Lys_type 2 LY_TYPE_DEC64 (Some (builtin 1 LY_TYPE_DEC64)) (info_dec64 1).

Definition resolve_1_2_5_6 : lys_type -> option (list len_ran_intv) :=
  fun _ => Some [fval 1 2; fval 5 6].

Section RangeFacts.

Variable resolve_len_ran_interval : lys_type -> option (list len_ran_intv).
Variable regex_t : Type.
Variable regcomp : string -> option regex_t.
Variable regexec : regex_t -> string -> bool.
Variable transform_data_xml2json : string -> option string.
Variable resolve_identref_json : lys_type_info -> string -> option lys_ident.

Abbreviation decode_number :=
  (_xml_get_value resolve_len_ran_interval regex_t regcomp regexec
     transform_data_xml2json resolve_identref_json).

(** The range check of an integer case, on the number the text was read
    as. *)
Lemma integer_range_check (kind v : Z) (node_type : lys_type)
    (intv : list len_ran_intv) :
  kind = 0 \/ kind = 1 ->
  resolve_len_ran_interval node_type = Some intv ->
  intv <> [] -> intv_sorted kind intv ->
  let r :=
    validate_length_range resolve_len_ran_interval kind
      (if kind =? 0 then v else 0) (if kind =? 1 then v else 0) 0%Q
      node_type in
  (r = EXIT_SUCCESS tt <-> Exists (lies_in (inject_Z v)) intv)
  /\ (~ Exists (lies_in (inject_Z v)) intv ->
      r = EXIT_FAILURE (Some LYE_OORVAL)).
Proof.
  intros Hk Hr Hne Hs r.
  destruct (validate_length_range_iff resolve_len_ran_interval kind
              (if kind =? 0 then v else 0) (if kind =? 1 then v else 0) 0%Q
              node_type intv Hr Hne Hs) as [Hiff Hrej].
  pose proof (exists_in_intv_lies_in kind v intv Hk Hs) as Hb.
  split; [unfold r; rewrite Hiff; exact Hb|].
  intros Hn. apply Hrej. rewrite Hb. exact Hn.
Qed.

(** A decimal literal that denotes a number within the bounds of an
    integer type is read as that number by the case of the type. *)
Lemma integer_literal_is_read (b : LY_DATA_TYPE) (lo hi : Z)
    (lead trail : string) (neg : bool) (d : Z) (ds : list Z) (log : bool) :
  integer_range b = Some (lo, hi) ->
  blank lead -> blank trail ->
  1 <= d <= 9 -> Forall (fun x => 0 <= x <= 9) ds ->
  let v := if neg then - number 10 (d :: ds) else number 10 (d :: ds) in
  let s := (lead ++ sign_text neg ++ numeral (d :: ds) ++ trail)%string in
  lo <= v <= hi ->
  if integer_kind b =? 1
  then parse_int (Some s) lo hi 0 log = EXIT_SUCCESS v
  else parse_uint (Some s) hi 0 log = EXIT_SUCCESS v.
Proof.
  intros Hb Hlead Htrail Hd Hds v s Hv.
  assert (Hpos : 1 <= number 10 (d :: ds)).
  { unfold number. cbn [fold_left].
    pose proof (fold_digits_ge 10 ds ltac:(lia) (decimal_digits ds Hds)
                  (0 * 10 + d) ltac:(lia)). lia. }
  assert (Hsub : subject 0 s = Some (neg, number 10 (d :: ds), trail)).
  { apply subject_decimal; try assumption; [left; reflexivity|].
    apply ends_digits_blank. exact Htrail. }
  assert (Hkind : (integer_kind b =? 1) = true /\ LLONG_MIN <= lo
                                          /\ hi <= LLONG_MAX
                  \/ (integer_kind b =? 1) = false /\ lo = 0
                     /\ hi <= ULLONG_MAX).
  { destruct b; try discriminate; injection Hb as <- <-;
      unfold LLONG_MIN, LLONG_MAX, ULLONG_MAX;
      first [ left; split; [reflexivity|lia]
            | right; split; [reflexivity|lia] ]. }
  destruct Hkind as [(-> & Hlo & Hhi) | (-> & -> & Hhi)].
  - unfold parse_int, strtoll. rewrite Hsub. fold v.
    destruct (Z.gtb_spec v LLONG_MAX); [lia|].
    destruct (Z.ltb_spec v LLONG_MIN); [lia|].
    cbn [st_errno st_value st_endptr orb].
    destruct (Z.ltb_spec v lo); [lia|].
    destruct (Z.gtb_spec v hi); [lia|]. cbn [orb].
    rewrite skip_space_blank_all by exact Htrail. reflexivity.
  - assert (Hneg : neg = false) by (destruct neg; [unfold v in Hv; lia|auto]).
    subst neg. unfold parse_uint, strtoull. rewrite Hsub.
    destruct (Z.gtb_spec (number 10 (d :: ds)) ULLONG_MAX);
      [unfold v in Hv; lia|].
    cbn [st_errno st_value st_endptr orb]. fold v.
    destruct (Z.gtb_spec v hi); [lia|].
    rewrite skip_space_blank_all by exact Htrail. reflexivity.
Qed.

Lemma int_case_checks_range (leaf : lyd_node_leaf) (unres : unres_data)
    (node_type : lys_type) (lo hi : Z) (store : Z -> lyd_val) (log : bool)
    (v : Z) :
  parse_int (value_str leaf) lo hi 0 log = EXIT_SUCCESS v ->
  snd (int_case resolve_len_ran_interval leaf unres node_type lo hi store
         log)
  = validate_length_range resolve_len_ran_interval 1 0 v 0%Q node_type.
Proof.
  intros Hp. unfold int_case. rewrite Hp.
  destruct (validate_length_range _ _ _ _ _ _) as [[]|e| |]; reflexivity.
Qed.

Lemma uint_case_checks_range (leaf : lyd_node_leaf) (unres : unres_data)
    (node_type : lys_type) (hi : Z) (store : Z -> lyd_val) (log : bool)
    (v : Z) :
  parse_uint (value_str leaf) hi 0 log = EXIT_SUCCESS v ->
  snd (uint_case resolve_len_ran_interval leaf unres node_type hi store log)
  = validate_length_range resolve_len_ran_interval 0 v 0 0%Q node_type.
Proof.
  intros Hp. unfold uint_case. rewrite Hp.
  destruct (validate_length_range _ _ _ _ _ _) as [[]|e| |]; reflexivity.
Qed.

(** C4 (the code departs from the claim).  The claim: for every numeric
    leaf with a range restriction of several intervals, the value is
    accepted iff it lies in at least one of the sorted disjoint intervals.
    For the leaves of the eight integer types the code does that: a
    decimal literal within the bounds of the type is accepted exactly when
    the number it denotes lies in one of the intervals, and rejected with
    OORVAL otherwise; so are 5, 15, 25 and 31 for the uint8 leaf with range
    "0..10|20..30".  For a decimal64 leaf the number handed to the range
    check is the scaled integer divided by 2^fraction-digits, not by
    10^fraction-digits: with one fraction digit and the range
    "1.0..2.0|5.0..6.0" the value "1.5", which lies in the first interval,
    is rejected with OORVAL, and the value "0.3", which lies in none, is
    accepted. *)
Theorem range_check_of_numeric_leaves :
  (forall (node_type : lys_type) (lo hi : Z) (fuel : nat)
          (leaf : lyd_node_leaf) (options : lyd_options)
          (unres : unres_data) (log : bool) (intv : list len_ran_intv)
          (lead trail : string) (neg : bool) (d : Z) (ds : list Z),
     integer_range (base node_type) = Some (lo, hi) ->
     resolve_len_ran_interval node_type = Some intv ->
     intv <> [] ->
     intv_sorted (integer_kind (base node_type)) intv ->
     blank lead -> blank trail ->
     1 <= d <= 9 -> Forall (fun x => 0 <= x <= 9) ds ->
     let v := if neg then - number 10 (d :: ds) else number 10 (d :: ds) in
     lo <= v <= hi ->
     let r :=
       snd (decode_number (S fuel) leaf node_type
              (Some (lead ++ sign_text neg ++ numeral (d :: ds) ++ trail)
                 %string)
              options unres log) in
     (r = EXIT_SUCCESS tt <-> Exists (lies_in (inject_Z v)) intv)
     /\ (~ Exists (lies_in (inject_Z v)) intv ->
         r = EXIT_FAILURE (Some LYE_OORVAL)))
  /\ (let decode_uint8 (s : string) :=
        snd (_xml_get_value resolve_0_10_20_30 unit no_regcomp no_regexec
               no_transform no_identref 1 (fresh_leaf uint8_0_10_20_30)
               uint8_0_10_20_30 (Some s) no_options [] true) in
      decode_uint8 "5" = EXIT_SUCCESS tt
      /\ decode_uint8 "15" = EXIT_FAILURE (Some LYE_OORVAL)
      /\ decode_uint8 "25" = EXIT_SUCCESS tt
      /\ decode_uint8 "31" = EXIT_FAILURE (Some LYE_OORVAL))
  /\ (let decode_dec64 (s : string) :=
        snd (_xml_get_value resolve_1_2_5_6 unit no_regcomp no_regexec
               no_transform no_identref 1 (fresh_leaf dec64_1_2_5_6)
               dec64_1_2_5_6 (Some s) no_options [] true) in
      Exists (lies_in (15 # 10)) [fval 1 2; fval 5 6]
      /\ decode_dec64 "1.5" = EXIT_FAILURE (Some LYE_OORVAL)
      /\ ~ Exists (lies_in (3 # 10)) [fval 1 2; fval 5 6]
      /\ decode_dec64 "0.3" = EXIT_SUCCESS tt).
Proof.
  split; [|split].
  - intros node_type lo hi fuel leaf options unres log intv lead trail neg d
      ds Hb Hr Hne Hs Hlead Htrail Hd Hds v Hv r.
    pose proof (integer_literal_is_read (base node_type) lo hi lead trail
                  neg d ds log Hb Hlead Htrail Hd Hds Hv) as Hread.
    assert (Hkind : integer_kind (base node_type) = 0
                    \/ integer_kind (base node_type) = 1)
      by (destruct (base node_type); cbn; auto).
    pose proof (integer_range_check (integer_kind (base node_type)) v
                  node_type intv Hkind Hr Hne Hs) as Hcheck.
    cbv zeta in Hcheck.
    assert (Hrun :
      r = validate_length_range resolve_len_ran_interval
            (integer_kind (base node_type))
            (if integer_kind (base node_type) =? 0 then v else 0)
            (if integer_kind (base node_type) =? 1 then v else 0) 0%Q
            node_type); [|rewrite Hrun; exact Hcheck].
    unfold r. cbn [_xml_get_value].
    assert (Hf : forall (X : Type) (a b : X),
               match LYD_OPT_FILTER options,
                     value_str
                       (set_value_type
                          (set_value_str leaf
                             (Some (lead ++ sign_text neg
                                      ++ numeral (d :: ds) ++ trail)%string))
                          (plain (base node_type))) with
               | true, None => a
               | _, _ => b
               end = b)
      by (intros; destruct (LYD_OPT_FILTER options); reflexivity).
    rewrite Hf. clear Hf.
    destruct (base node_type); try discriminate Hb;
      injection Hb as <- <-; cbn [integer_kind Z.eqb] in Hread |- *;
      first [ apply int_case_checks_range
            | apply uint_case_checks_range ];
      exact Hread.
  - cbv zeta. repeat split; vm_compute; reflexivity.
  - cbv zeta. split; [|split; [|split]].
    + left. cbn. split; vm_compute; discriminate.
    + vm_compute. reflexivity.
    + intros H. inversion H as [? ? H1|? ? H']; subst.
      * cbn in H1. destruct H1 as [H1 _]. vm_compute in H1. apply H1.
        reflexivity.
      * inversion H' as [? ? H1|? ? H'']; subst.
        -- cbn in H1. destruct H1 as [H1 _]. vm_compute in H1. apply H1.
           reflexivity.
        -- inversion H''.
    + vm_compute. reflexivity.
Qed.

End RangeFacts.

End ParserXml.

(* ===================================================================== *)
(** * parser_xml.c: the data tree *)
(* ===================================================================== *)

Module DataTree.
Import Libc ParserXml.

(** ** Schema nodes, XML elements, data nodes *)

Inductive LYS_NODE : Type :=
| LYS_CONTAINER | LYS_CHOICE | LYS_LEAF | LYS_LEAFLIST | LYS_LIST
| LYS_ANYXML | LYS_GROUPING | LYS_CASE | LYS_INPUT | LYS_OUTPUT
| LYS_NOTIF | LYS_RPC | LYS_USES | LYS_AUGMENT.

Definition LYS_NODE_eqb (a b : LYS_NODE) : bool :=
  match a, b with
  | LYS_CONTAINER, LYS_CONTAINER | LYS_CHOICE, LYS_CHOICE
  | LYS_LEAF, LYS_LEAF | LYS_LEAFLIST, LYS_LEAFLIST | LYS_LIST, LYS_LIST
  | LYS_ANYXML, LYS_ANYXML | LYS_GROUPING, LYS_GROUPING
  | LYS_CASE, LYS_CASE | LYS_INPUT, LYS_INPUT | LYS_OUTPUT, LYS_OUTPUT
  | LYS_NOTIF, LYS_NOTIF | LYS_RPC, LYS_RPC | LYS_USES, LYS_USES
  | LYS_AUGMENT, LYS_AUGMENT => true
  | _, _ => false
  end.

(** The bits of [flags] the parser tests. *)
Record lys_flags : Type := { LYS_CONFIG_R : bool; LYS_USERORDERED : bool }.

(** [struct lys_node]: its address, name, the namespace of its module, its
    kind, flags, the type of a leaf or leaf-list, and its children. *)
Inductive lys_node : Type :=
| Lys_node (node_addr : positive) (node_name : string) (node_ns : string)
           (nodetype : LYS_NODE) (flags : lys_flags)
           (node_type : option lys_type) (child : list lys_node).

Definition node_addr (n : lys_node) : positive :=
  match n with Lys_node a _ _ _ _ _ _ => a end.
Definition node_name (n : lys_node) : string :=
  match n with Lys_node _ s _ _ _ _ _ => s end.
Definition node_ns (n : lys_node) : string :=
  match n with Lys_node _ _ s _ _ _ _ => s end.
Definition nodetype (n : lys_node) : LYS_NODE :=
  match n with Lys_node _ _ _ t _ _ _ => t end.
Definition flags (n : lys_node) : lys_flags :=
  match n with Lys_node _ _ _ _ f _ _ => f end.
Definition node_type (n : lys_node) : option lys_type :=
  match n with Lys_node _ _ _ _ _ t _ => t end.
Definition child (n : lys_node) : list lys_node :=
  match n with Lys_node _ _ _ _ _ _ c => c end.

(** A [struct lys_node *]: the node and, for its [parent] pointers, the
    nodes it lies in, the nearest first. *)
Record schema_ptr : Type :=
  { sch_node : lys_node; sch_parents : list lys_node }.

Inductive LYXML_ATTR_TYPE : Type := LYXML_ATTR_STD | LYXML_ATTR_NS.

(** [struct lyxml_attr]; [attr_ns] is [attr->ns->value], [None] for a NULL
    [attr->ns]. *)
Record lyxml_attr : Type :=
  { attr_type : LYXML_ATTR_TYPE; attr_name : string;
    attr_ns : option string; attr_value : string }.

(** [struct lyxml_elem]: name, [ns->value] ([None] when there is no
    namespace), attributes, content, children. *)
Inductive lyxml_elem : Type :=
| Lyxml_elem (xml_name : string) (xml_ns : option string)
             (xml_attr : list lyxml_attr) (xml_content : option string)
             (xml_child : list lyxml_elem).

Definition xml_attr (x : lyxml_elem) : list lyxml_attr :=
  match x with Lyxml_elem _ _ a _ _ => a end.
Definition clear_attr (x : lyxml_elem) : lyxml_elem :=
  match x with Lyxml_elem n ns _ c ch => Lyxml_elem n ns [] c ch end.

(** [struct lyd_node] and its variants: the schema node, the children, the
    leaf part of a leaf or leaf-list, the attributes, the element kept by
    an anyxml. *)
Inductive lyd_node : Type :=
| Lyd_node (schema : schema_ptr) (d_child : list lyd_node)
           (d_leaf : option lyd_node_leaf) (d_attr : list lyxml_attr)
           (d_value : option lyxml_elem).

Definition schema (d : lyd_node) : schema_ptr :=
  match d with Lyd_node s _ _ _ _ => s end.
Definition d_child (d : lyd_node) : list lyd_node :=
  match d with Lyd_node _ c _ _ _ => c end.
Definition d_leaf (d : lyd_node) : option lyd_node_leaf :=
  match d with Lyd_node _ _ l _ _ => l end.
Definition d_attr (d : lyd_node) : list lyxml_attr :=
  match d with Lyd_node _ _ _ a _ => a end.
Definition free_children (d : lyd_node) : lyd_node :=
  match d with Lyd_node s _ l a v => Lyd_node s [] l a v end.

(** [a->schema == b]: the same schema node. *)
Definition same_schema (a : lyd_node) (b : schema_ptr) : bool :=
  Pos.eqb (node_addr (sch_node (schema a))) (node_addr (sch_node b)).

(** A module of [ctx->models.list]: its namespace and top-level nodes. *)
Record ly_module : Type := { mod_ns : string; mod_data : list lys_node }.

(** ** Finding the schema node of an element *)

(** [xml_data_search_schemanode] on one node of the list [start]. *)
Fixpoint search_schemanode (name ns : string) (parents : list lys_node)
    (result : lys_node) {struct result} : option schema_ptr :=
  match result with
  | Lys_node _ n m t _ _ ch =>
      match t with
      | LYS_GROUPING => None
      | LYS_CHOICE | LYS_CASE | LYS_USES =>
          (fix for_each (l : list lys_node) : option schema_ptr :=
             match l with
             | [] => None
             | c :: rest =>
                 match search_schemanode name ns (result :: parents) c with
                 | Some aux => Some aux
                 | None => for_each rest
                 end
             end) ch
      | _ =>
          if String.eqb n name && String.eqb m ns
          then Some {| sch_node := result; sch_parents := parents |}
          else None
      end
  end.

Fixpoint xml_data_search_schemanode (name ns : string)
    (parents : list lys_node) (start : list lys_node) : option schema_ptr :=
  match start with
  | [] => None
  | result :: next =>
      match search_schemanode name ns parents result with
      | Some r => Some r
      | None => xml_data_search_schemanode name ns parents next
      end
  end.

(** The search at the root: the first module of the namespace, then its
    first top-level node of the name. *)
Definition find_root_schema (models : list ly_module) (name ns : string)
    : option schema_ptr :=
  match find (fun m => String.eqb (mod_ns m) ns) models with
  | None => None
  | Some m =>
      match find (fun n => String.eqb (node_name n) name) (mod_data m) with
      | Some n => Some {| sch_node := n; sch_parents := [] |}
      | None => None
      end
  end.

(** ** The insert and value attributes *)

(** The guard of both attribute loops, negated: a standard attribute named
    [what] in the YANG namespace. *)
Definition yang_attr (LY_NSYANG what : string) (attr : lyxml_attr) : bool :=
  match attr_type attr, attr_ns attr with
  | LYXML_ATTR_STD, Some ns =>
      match strcmp (attr_name attr) what, strcmp ns LY_NSYANG with
      | Eq, Eq => true
      | _, _ => false
      end
  | _, _ => false
  end.

Definition streq (a b : string) : bool :=
  match strcmp a b with Eq => true | _ => false end.

(** The first loop: over the insert attributes. *)
Fixpoint insert_loop (LY_NSYANG : string) (userordered : bool)
    (attr : list lyxml_attr) (i : Z) : outcome Z :=
  match attr with
  | [] => EXIT_SUCCESS i
  | a :: next =>
      if negb (yang_attr LY_NSYANG "insert" a)
      then insert_loop LY_NSYANG userordered next i
      else if negb userordered then EXIT_FAILURE (Some LYE_INATTR)
      else if negb (i =? 0) then EXIT_FAILURE (Some LYE_TOOMANY)
      else if streq (attr_value a) "first" || streq (attr_value a) "last"
      then insert_loop LY_NSYANG userordered next 1
      else if streq (attr_value a) "before" || streq (attr_value a) "after"
      then insert_loop LY_NSYANG userordered next 2
      else EXIT_FAILURE (Some LYE_INARG)
  end.

(** The second loop: over the value attributes. *)
Fixpoint value_loop (LY_NSYANG : string) (attr : list lyxml_attr) (i : Z)
    : outcome Z :=
  match attr with
  | [] => EXIT_SUCCESS i
  | a :: next =>
      if negb (yang_attr LY_NSYANG "value" a)
      then value_loop LY_NSYANG next i
      else if i <? 2 then EXIT_FAILURE (Some LYE_INATTR)
      else value_loop LY_NSYANG next (i + 1)
  end.

(** The block "check insert attribute and its values". *)
Definition check_insert_attr (LY_NSYANG : string) (options : lyd_options)
    (schema : schema_ptr) (attr : list lyxml_attr) : outcome unit :=
  if LYD_OPT_EDIT options then
    (i <- insert_loop LY_NSYANG (LYS_USERORDERED (flags (sch_node schema)))
            attr 0 ;;
     i <- value_loop LY_NSYANG attr i ;;
     if i =? 2 then EXIT_FAILURE (Some LYE_MISSATTR)
     else if i >? 3 then EXIT_FAILURE (Some LYE_TOOMANY)
     else EXIT_SUCCESS tt)%outcome
  else EXIT_SUCCESS tt.

(** ** Data from different cases of a choice *)

Definition is_choice (n : lys_node) : bool :=
  LYS_NODE_eqb (nodetype n) LYS_CHOICE.
Definition is_case (n : lys_node) : bool :=
  LYS_NODE_eqb (nodetype n) LYS_CASE.

(** The test of the [for] loop of the block on an earlier sibling whose
    schema node has the parent [dp], itself in the nodes [up]; [cs] and
    [ch] are the case (NULL for a node directly in the choice) and the
    choice of the new node. *)
Definition other_case (cs : option lys_node) (ch : lys_node)
    (dp : lys_node) (up : list lys_node) : bool :=
  (is_choice dp && Pos.eqb (node_addr dp) (node_addr ch))
  || (is_case dp && match cs with None => true | Some _ => false end)
  || (is_case dp
      && match cs with
         | None => false
         | Some c =>
             negb (Pos.eqb (node_addr dp) (node_addr c))
             && match up with
                | dpp :: _ => Pos.eqb (node_addr dpp) (node_addr ch)
                | [] => false
                end
         end).

(** The [for] loop: over the earlier siblings, the latest first.  A
    sibling whose schema node has no parent has its NULL [parent]
    dereferenced. *)
Fixpoint choice_loop (cs : option lys_node) (ch : lys_node)
    (diter : list lyd_node) : outcome unit :=
  match diter with
  | [] => EXIT_SUCCESS tt
  | d :: prev =>
      match sch_parents (schema d) with
      | [] => UNDEFINED
      | dp :: up =>
          if other_case cs ch dp up
          then EXIT_FAILURE (Some LYE_MCASEDATA)
          else choice_loop cs ch prev
      end
  end.

(** The block "check that there are no data from different choice case";
    [siblings] are the earlier siblings in document order. *)
Definition check_choice_case (options : lyd_options) (schema : schema_ptr)
    (siblings : list lyd_node) : outcome unit :=
  if LYD_OPT_FILTER options then EXIT_SUCCESS tt
  else
    match sch_parents schema with
    | [] => EXIT_SUCCESS tt
    | p :: up =>
        if is_case p || is_choice p then
          if is_choice p then choice_loop None p (rev siblings)
          else
            match up with
            | [] => UNDEFINED
            | ch :: _ => choice_loop (Some p) ch (rev siblings)
            end
        else EXIT_SUCCESS tt
    end.

(** ** [xml_parse_data] *)

(** The [switch] on the kind of the schema node: [havechildren]. *)
Definition havechildren_of (t : LYS_NODE) : outcome bool :=
  match t with
  | LYS_CONTAINER | LYS_LIST => EXIT_SUCCESS true
  | LYS_LEAF | LYS_LEAFLIST | LYS_ANYXML => EXIT_SUCCESS false
  | _ => EXIT_FAILURE (Some LYE_INT)
  end.

(** Where the parser stands in the XML tree when it copies [xml->attr] and
    later follows [xml->next]: the attributes it finds, the elements
    before that place, and whether [xml->next] is the element that
    followed.  For an anyxml outside filter mode the element is unlinked
    and the parser goes on from [xml->prev].  xml.c is not under src/: the
    sibling list of the XML tree is taken to be the ring of the data tree
    (the prev of the first element is the last element), and
    [lyxml_unlink_elem] to join the neighbours of the element. *)
Record cursor : Type :=
  { cur_attr : list lyxml_attr;
    cur_before : list lyxml_elem;
    cur_next : bool }.

Definition stay (xml : lyxml_elem) (before : list lyxml_elem) : cursor :=
  {| cur_attr := xml_attr xml; cur_before := clear_attr xml :: before;
     cur_next := true |}.

Definition unlink_anyxml (xml : lyxml_elem) (before after : list lyxml_elem)
    : cursor :=
  match before with
  | prev_xml :: more =>
      {| cur_attr := xml_attr prev_xml;
         cur_before := clear_attr prev_xml :: more; cur_next := true |}
  | [] =>
      {| cur_attr := xml_attr (last after xml); cur_before := [];
         cur_next := false |}
  end.

(** The node is kept, or dropped with [goto cleargotosiblings]; either way
    with the earlier siblings as the checks leave them. *)
Inductive verdict : Type :=
| keep (siblings : list lyd_node)
| clear (siblings : list lyd_node).

(** What the parse of an element leaves at the label [siblings]: the data
    siblings, whether [result] is set (the node was made and kept; it is
    then the last of the siblings), the queue, the elements before the next
    one, and whether the next one is parsed. *)
Record parsed : Type :=
  { p_siblings : list lyd_node; p_result : bool; p_unres : unres_data;
    p_before : list lyxml_elem; p_next : bool }.

Section Parser.

Variable resolve_len_ran_interval : lys_type -> option (list len_ran_intv).
Variable regex_t : Type.
Variable regcomp : string -> option regex_t.
Variable regexec : regex_t -> string -> bool.
Variable transform_data_xml2json : string -> option string.
Variable resolve_identref_json : lys_type_info -> string -> option lys_ident.

(** The namespace of the YANG attributes (the macro is not under src/). *)
Variable LY_NSYANG : string.
(** [ctx->models.list]. *)
Variable models : list ly_module.
(** [ly_ctx_get_module_by_ns(ctx, ns, NULL)] is not NULL. *)
Variable ly_ctx_get_module_by_ns : string -> bool.
(** [lys_is_disabled(schema, 2)] is not NULL. *)
Variable lys_is_disabled : schema_ptr -> bool.
(** [lyv_keys_present] and [ly_check_mandatory]: the schema node found
    missing, if any. *)
Variable lyv_keys_present : lyd_node -> option lys_node.
Variable ly_check_mandatory : lyd_node -> option lys_node.
(** [lyd_compare(a, b, unique)] and [lyd_filter_compare(a, b)] return 0. *)
Variable lyd_compare : lyd_node -> lyd_node -> bool -> bool.
Variable lyd_filter_compare : lyd_node -> lyd_node -> bool.
(** [lyd_filter_merge(to, from)]: what it makes of [to]. *)
Variable lyd_filter_merge : lyd_node -> lyd_node -> lyd_node.
(** The fuel of the value decoder. *)
Variable fuel : nat.

(** "find schema node". *)
Definition find_schema (parent : option schema_ptr) (name ns : string)
    : option schema_ptr :=
  match parent with
  | None => find_root_schema models name ns
  | Some p =>
      xml_data_search_schemanode name ns (sch_node p :: sch_parents p)
        (child (sch_node p))
  end.

(** "type detection and assigning the value" of a leaf or leaf-list. *)
Definition leaf_value (schema : schema_ptr) (content : option string)
    (options : lyd_options) (unres : unres_data)
    : outcome (option lyd_node_leaf * unres_data) :=
  match nodetype (sch_node schema) with
  | LYS_LEAF | LYS_LEAFLIST =>
      match node_type (sch_node schema) with
      | None => UNDEFINED
      | Some t =>
          match xml_get_value resolve_len_ran_interval regex_t regcomp
                  regexec transform_data_xml2json resolve_identref_json
                  fuel (fresh_leaf t) content options unres with
          | (leaf, unres', EXIT_SUCCESS _) => EXIT_SUCCESS (Some leaf, unres')
          | (_, _, EXIT_FAILURE e) => EXIT_FAILURE e
          | (_, _, UNDEFINED) => UNDEFINED
          | (_, _, TIMEOUT) => TIMEOUT
          end
      end
  | _ => EXIT_SUCCESS (None, unres)
  end.

(** "check presence of all keys in case of list". *)
Definition check_keys (options : lyd_options) (result : lyd_node)
    : outcome unit :=
  match nodetype (sch_node (schema result)), LYD_OPT_FILTER options with
  | LYS_LIST, false =>
      match lyv_keys_present result with
      | Some _ => EXIT_FAILURE (Some LYE_MISSELEM)
      | None => EXIT_SUCCESS tt
      end
  | _, _ => EXIT_SUCCESS tt
  end.

(** "mandatory children". *)
Definition check_mandatory (options : lyd_options) (havechildren : bool)
    (result : lyd_node) : outcome unit :=
  if havechildren && negb (LYD_OPT_FILTER options || LYD_OPT_EDIT options)
  then
    match ly_check_mandatory result with
    | Some siter =>
        match nodetype siter with
        | LYS_LIST | LYS_LEAFLIST => EXIT_FAILURE (Some LYE_SPEC)
        | _ => EXIT_FAILURE (Some LYE_MISSELEM)
        end
    | None => EXIT_SUCCESS tt
    end
  else EXIT_SUCCESS tt.

Definition leaf_value_str (d : lyd_node) : option string :=
  match d_leaf d with Some l => value_str l | None => None end.

Definition option_string_eqb (a b : option string) : bool :=
  match a, b with
  | Some x, Some y => String.eqb x y
  | None, None => true
  | _, _ => false
  end.

(** "normalize the filter": the loop over the earlier siblings, the latest
    first; [visited] are the siblings already passed.  [Some]: the new
    node is dropped, with these siblings. *)
Fixpoint normalize_filter (diter : list lyd_node) (visited : list lyd_node)
    (result : lyd_node) : option (list lyd_node) :=
  match diter with
  | [] => None
  | d :: prev =>
      if same_schema d (schema result) then
        match nodetype (sch_node (schema result)) with
        | LYS_CONTAINER =>
            match d_child d, d_child result with
            | [], _ => Some (rev prev ++ d :: visited)
            | _ :: _, [] => Some (rev prev ++ free_children d :: visited)
            | _ :: _, _ :: _ => normalize_filter prev (d :: visited) result
            end
        | LYS_LEAF =>
            if option_string_eqb (leaf_value_str d) (leaf_value_str result)
            then Some (rev prev ++ d :: visited)
            else normalize_filter prev (d :: visited) result
        | LYS_ANYXML => Some (rev prev ++ d :: visited)
        | _ => normalize_filter prev (d :: visited) result
        end
      else normalize_filter prev (d :: visited) result
  end.

(** "check number of instances for non-list nodes". *)
Definition check_instances (options : lyd_options)
    (siblings : list lyd_node) (result : lyd_node) : outcome verdict :=
  match nodetype (sch_node (schema result)) with
  | LYS_CONTAINER | LYS_LEAF | LYS_ANYXML =>
      if LYD_OPT_FILTER options then
        match normalize_filter (rev siblings) [] result with
        | Some siblings' => EXIT_SUCCESS (clear siblings')
        | None => EXIT_SUCCESS (keep siblings)
        end
      else if existsb (fun d => same_schema d (schema result)) siblings
      then EXIT_FAILURE (Some LYE_TOOMANY)
      else EXIT_SUCCESS (keep siblings)
  | _ => EXIT_SUCCESS (keep siblings)
  end.

(** The loop over the earlier instances of a leaf-list, the latest first
    (the chain of [lprev] pointers is skipped through by the test on the
    schema node). *)
Fixpoint leaflist_loop (options : lyd_options) (diter : list lyd_node)
    (siblings : list lyd_node) (result : lyd_node) : outcome verdict :=
  match diter with
  | [] => EXIT_SUCCESS (keep siblings)
  | d :: lprev =>
      if same_schema d (schema result) && lyd_compare d result false then
        if LYD_OPT_FILTER options then EXIT_SUCCESS (clear siblings)
        else EXIT_FAILURE (Some LYE_DUPLEAFLIST)
      else leaflist_loop options lprev siblings result
  end.

(** The loop over the earlier instances of a list. *)
Fixpoint list_loop (options : lyd_options) (diter : list lyd_node)
    (visited : list lyd_node) (siblings : list lyd_node)
    (result : lyd_node) : outcome verdict :=
  match diter with
  | [] => EXIT_SUCCESS (keep siblings)
  | d :: lprev =>
      if same_schema d (schema result) then
        if LYD_OPT_FILTER options then
          if lyd_filter_compare d result
          then EXIT_SUCCESS
                 (clear (rev lprev ++ lyd_filter_merge d result :: visited))
          else list_loop options lprev (d :: visited) siblings result
        else if lyd_compare d result true
        then EXIT_FAILURE (Some LYE_DUPLIST)
        else list_loop options lprev (d :: visited) siblings result
      else list_loop options lprev (d :: visited) siblings result
  end.

(** "uniqueness of (leaf-)list instances". *)
Definition check_unique (options : lyd_options) (siblings : list lyd_node)
    (result : lyd_node) : outcome verdict :=
  match nodetype (sch_node (schema result)) with
  | LYS_LEAFLIST => leaflist_loop options (rev siblings) siblings result
  | LYS_LIST => list_loop options (rev siblings) [] siblings result
  | _ => EXIT_SUCCESS (keep siblings)
  end.

(** The "various validation checks" on the node made for an element, in
    the order of the code. *)
Definition validate_node (options : lyd_options) (havechildren : bool)
    (siblings : list lyd_node) (result : lyd_node) : outcome verdict :=
  (check_keys options result ;;;
   check_mandatory options havechildren result ;;;
   v <- check_instances options siblings result ;;
   match v with
   | clear s => EXIT_SUCCESS (clear s)
   | keep s =>
       v <- check_unique options s result ;;
       match v with
       | clear s => EXIT_SUCCESS (clear s)
       | keep s =>
           check_choice_case options (schema result) s ;;;
           EXIT_SUCCESS (keep s)
       end
   end)%outcome.

(** The checks that precede the allocation of the node. *)
Definition element_checks (options : lyd_options) (schema : schema_ptr)
    (attr : list lyxml_attr) : outcome bool :=
  if lys_is_disabled schema then EXIT_FAILURE (Some LYE_INELEM)
  else if LYD_OPT_EDIT options && LYS_CONFIG_R (flags (sch_node schema))
  then EXIT_FAILURE (Some LYE_INELEM)
  else
    (check_insert_attr LY_NSYANG options schema attr ;;;
     havechildren_of (nodetype (sch_node schema)))%outcome.

(** [xml_parse_data] on the element [xml], up to the label [siblings]:
    [before] and [after] are the elements around it, [parent] the schema
    node of the parent data node (NULL at the root), [siblings] the data
    nodes made so far for the elements before it. *)
Fixpoint xml_parse_node (xml : lyxml_elem) (before after : list lyxml_elem)
    (parent : option schema_ptr) (siblings : list lyd_node)
    (options : lyd_options) (unres : unres_data) {struct xml}
    : outcome parsed :=
  match xml with
  | Lyxml_elem name ns attr content children =>
      match ns with
      | None => EXIT_FAILURE (Some LYE_XML_MISS)
      | Some ns =>
          match find_schema parent name ns with
          | None =>
              if LYD_OPT_STRICT options || ly_ctx_get_module_by_ns ns
              then EXIT_FAILURE (Some LYE_INELEM)
              else EXIT_SUCCESS
                     {| p_siblings := siblings; p_result := false;
                        p_unres := unres;
                        p_before := xml :: before; p_next := true |}
          | Some schema =>
              (havechildren <- element_checks options schema attr ;;
               lu <- leaf_value schema content options unres ;;
               let '(leaf, unres) := lu in
               let detach :=
                 LYS_NODE_eqb (nodetype (sch_node schema)) LYS_ANYXML
                 && negb (LYD_OPT_FILTER options) in
               let cur :=
                 if detach then unlink_anyxml xml before after
                 else stay xml before in
               cu <-
                 (if havechildren then
                    (fix parse_children (before : list lyxml_elem)
                         (l : list lyxml_elem) (siblings : list lyd_node)
                         (unres : unres_data) {struct l}
                         : outcome (list lyd_node * unres_data) :=
                       match l with
                       | [] => EXIT_SUCCESS (siblings, unres)
                       | x :: next =>
                           p <- xml_parse_node x before next (Some schema)
                                  siblings options unres ;;
                           if p_next p
                           then parse_children (p_before p) next
                                  (p_siblings p) (p_unres p)
                           else EXIT_SUCCESS (p_siblings p, p_unres p)
                       end) [] children [] unres
                  else EXIT_SUCCESS ([], unres)) ;;
               let '(kids, unres) := cu in
               let result :=
                 Lyd_node schema kids leaf (cur_attr cur)
                   (if detach then Some xml else None) in
               v <- validate_node options havechildren siblings result ;;
               EXIT_SUCCESS
                 {| p_siblings :=
                      match v with
                      | keep s => s ++ [result]
                      | clear s => s
                      end;
                    p_result :=
                      match v with keep _ => true | clear _ => false end;
                    p_unres := unres;
                    p_before := cur_before cur;
                    p_next := cur_next cur |})%outcome
          end
      end
  end.

(** What a call of [xml_parse_data] gives: the pointer it returns, NULL
    ([None]) or the node made for its own element, read as that node with
    the siblings that follow it through [next]; the ring of siblings that
    [prev] lies in, which is the list of the children of [parent] when
    there is one; and the queue.  What the call made for the elements after
    its own is linked into the ring, and is in what it returns only behind
    its own node: when it returns NULL at the root with no [prev], nothing
    points to these nodes any more. *)
Record parse_result : Type :=
  { returned : option (list lyd_node);
    ring : list lyd_node;
    unres_queue : unres_data }.

(** [xml_parse_data(ctx, xml, parent, prev, options, unres)]: the element
    [xml] and, through [xml->next], those after it; [siblings] is the ring
    of [prev].  The value of the call on [xml->next] is dropped, as in the
    code, which only tests whether that call failed. *)
Fixpoint xml_parse_data (before : list lyxml_elem) (xml : list lyxml_elem)
    (parent : option schema_ptr) (siblings : list lyd_node)
    (options : lyd_options) (unres : unres_data) {struct xml}
    : outcome parse_result :=
  match xml with
  | [] =>
      EXIT_SUCCESS
        {| returned := None; ring := siblings; unres_queue := unres |}
  | x :: next =>
      (p <- xml_parse_node x before next parent siblings options unres ;;
       r <- (if p_next p
             then xml_parse_data (p_before p) next parent (p_siblings p)
                    options (p_unres p)
             else EXIT_SUCCESS
                    {| returned := None; ring := p_siblings p;
                       unres_queue := p_unres p |}) ;;
       EXIT_SUCCESS
         {| returned :=
              if p_result p
              then Some (skipn (List.length (p_siblings p) - 1) (ring r))
              else None;
            ring := ring r;
            unres_queue := unres_queue r |})%outcome
  end.

End Parser.

(** * Properties of the data parser *)

(** ** The insert and value attributes *)

Lemma streq_eq (a b : string) : streq a b = true <-> a = b.
Proof.
  unfold streq, strcmp. split.
  - destruct (String.compare a b) eqn:E; try discriminate.
    intros _. apply String.compare_eq_iff. exact E.
  - intros ->. pose proof (String.compare_antisym b b) as H.
    destruct (String.compare b b); simpl in H; congruence.
Qed.

(** The values of the insert attributes of an element, and its value
    attributes. *)
Definition insert_attrs (LY_NSYANG : string) (attr : list lyxml_attr)
    : list string :=
  map attr_value (filter (yang_attr LY_NSYANG "insert") attr).
Definition value_attrs (LY_NSYANG : string) (attr : list lyxml_attr)
    : list lyxml_attr :=
  filter (yang_attr LY_NSYANG "value") attr.

Definition first_or_last (v : string) : bool :=
  streq v "first" || streq v "last".
Definition before_or_after (v : string) : bool :=
  streq v "before" || streq v "after".

Lemma insert_loop_rest (NS : string) (attr : list lyxml_attr) (i : Z) :
  i <> 0 ->
  insert_loop NS true attr i
  = match insert_attrs NS attr with
    | [] => EXIT_SUCCESS i
    | _ :: _ => EXIT_FAILURE (Some LYE_TOOMANY)
    end.
Proof.
  intros Hi. unfold insert_attrs.
  induction attr as [|a next IH]; simpl; [reflexivity|].
  destruct (yang_attr NS "insert" a); simpl; [|exact IH].
  destruct (Z.eqb_spec i 0); [contradiction|reflexivity].
Qed.

Lemma insert_loop_first (NS : string) (attr : list lyxml_attr) :
  insert_loop NS true attr 0
  = match insert_attrs NS attr with
    | [] => EXIT_SUCCESS 0
    | v :: rest =>
        if first_or_last v then
          match rest with
          | [] => EXIT_SUCCESS 1
          | _ :: _ => EXIT_FAILURE (Some LYE_TOOMANY)
          end
        else if before_or_after v then
          match rest with
          | [] => EXIT_SUCCESS 2
          | _ :: _ => EXIT_FAILURE (Some LYE_TOOMANY)
          end
        else EXIT_FAILURE (Some LYE_INARG)
    end.
Proof.
  induction attr as [|a next IH]; [reflexivity|].
  unfold insert_attrs in *. simpl.
  destruct (yang_attr NS "insert" a); simpl; [|exact IH].
  fold (first_or_last (attr_value a)). fold (before_or_after (attr_value a)).
  destruct (first_or_last (attr_value a)).
  - rewrite insert_loop_rest by discriminate. reflexivity.
  - destruct (before_or_after (attr_value a)); [|reflexivity].
    rewrite insert_loop_rest by discriminate. reflexivity.
Qed.

Lemma value_loop_count (NS : string) (attr : list lyxml_attr) (i : Z) :
  value_loop NS attr i
  = match value_attrs NS attr with
    | [] => EXIT_SUCCESS i
    | l =>
        if i <? 2 then EXIT_FAILURE (Some LYE_INATTR)
        else EXIT_SUCCESS (i + Z.of_nat (List.length l))
    end.
Proof.
  revert i. unfold value_attrs.
  induction attr as [|a next IH]; intros i; [reflexivity|]. simpl.
  destruct (yang_attr NS "value" a); simpl; [|apply IH].
  destruct (Z.ltb_spec i 2); [reflexivity|].
  rewrite IH. destruct (filter _ next) as [|b l].
  - reflexivity.
  - destruct (Z.ltb_spec (i + 1) 2); [lia|]. f_equal.
    cbn [List.length]. lia.
Qed.

Section InsertFacts.

Variable resolve_len_ran_interval : lys_type -> option (list len_ran_intv).
Variable regex_t : Type.
Variable regcomp : string -> option regex_t.
Variable regexec : regex_t -> string -> bool.
Variable transform_data_xml2json : string -> option string.
Variable resolve_identref_json : lys_type_info -> string -> option lys_ident.
Variable LY_NSYANG : string.
Variable models : list ly_module.
Variable ly_ctx_get_module_by_ns : string -> bool.
Variable lys_is_disabled : schema_ptr -> bool.
Variable lyv_keys_present : lyd_node -> option lys_node.
Variable ly_check_mandatory : lyd_node -> option lys_node.
Variable lyd_compare : lyd_node -> lyd_node -> bool -> bool.
Variable lyd_filter_compare : lyd_node -> lyd_node -> bool.
Variable lyd_filter_merge : lyd_node -> lyd_node -> lyd_node.
Variable fuel : nat.

Abbreviation parse_data :=
  (xml_parse_data resolve_len_ran_interval regex_t regcomp regexec
     transform_data_xml2json resolve_identref_json LY_NSYANG models
     ly_ctx_get_module_by_ns lys_is_disabled lyv_keys_present
     ly_check_mandatory lyd_compare lyd_filter_compare lyd_filter_merge fuel).
Abbreviation parse_node :=
  (xml_parse_node resolve_len_ran_interval regex_t regcomp regexec
     transform_data_xml2json resolve_identref_json LY_NSYANG models
     ly_ctx_get_module_by_ns lys_is_disabled lyv_keys_present
     ly_check_mandatory lyd_compare lyd_filter_compare lyd_filter_merge fuel).

(** An element whose schema node is found, enabled and, in edit-config
    mode, not state data: a failure of the attribute check is the failure
    of the parse. *)
Lemma insert_failure_fails_parse (name ns : string)
    (attr : list lyxml_attr) (content : option string)
    (children before after : list lyxml_elem) (parent : option schema_ptr)
    (siblings : list lyd_node) (options : lyd_options) (unres : unres_data)
    (schema : schema_ptr) (e : option LY_ECODE) :
  find_schema models parent name ns = Some schema ->
  lys_is_disabled schema = false ->
  LYD_OPT_EDIT options && LYS_CONFIG_R (flags (sch_node schema)) = false ->
  check_insert_attr LY_NSYANG options schema attr = EXIT_FAILURE e ->
  parse_data before (Lyxml_elem name (Some ns) attr content children :: after)
    parent siblings options unres
  = EXIT_FAILURE e.
Proof.
  intros Hf Hd Hc He. cbn [xml_parse_data xml_parse_node].
  rewrite Hf. unfold element_checks. rewrite Hd, Hc, He. reflexivity.
Qed.

(** C6.  In edit-config mode, for an element of a user-ordered schema node
    (found, enabled, not state data): an insert attribute with a value
    other than first, last, before, after fails (INARG) and these four are
    accepted; insert="before" or "after" without a value attribute fails
    with MISSATTR; with more than one value attribute it fails with
    TOO_MANY; more than one insert attribute fails with TOO_MANY. *)
Theorem insert_and_value_attributes :
  forall (name ns : string) (attr : list lyxml_attr)
         (content : option string)
         (children before after : list lyxml_elem)
         (parent : option schema_ptr) (siblings : list lyd_node)
         (options : lyd_options) (unres : unres_data) (schema : schema_ptr),
    LYD_OPT_EDIT options = true ->
    LYS_USERORDERED (flags (sch_node schema)) = true ->
    find_schema models parent name ns = Some schema ->
    lys_is_disabled schema = false ->
    LYS_CONFIG_R (flags (sch_node schema)) = false ->
    let check := check_insert_attr LY_NSYANG options schema attr in
    let result :=
      parse_data before
        (Lyxml_elem name (Some ns) attr content children :: after)
        parent siblings options unres in
    let inserts := insert_attrs LY_NSYANG attr in
    let values := List.length (value_attrs LY_NSYANG attr) in
    (forall v rest,
       inserts = v :: rest ->
       v <> "first" -> v <> "last" -> v <> "before" -> v <> "after" ->
       result = EXIT_FAILURE (Some LYE_INARG))
    /\ (forall v,
          inserts = [v] -> v = "first" \/ v = "last" -> values = O ->
          check = EXIT_SUCCESS tt)
    /\ (forall v,
          inserts = [v] -> v = "before" \/ v = "after" -> values = 1%nat ->
          check = EXIT_SUCCESS tt)
    /\ (forall v,
          inserts = [v] -> v = "before" \/ v = "after" -> values = O ->
          result = EXIT_FAILURE (Some LYE_MISSATTR))
    /\ (forall v,
          inserts = [v] -> v = "before" \/ v = "after" ->
          (2 <= values)%nat ->
          result = EXIT_FAILURE (Some LYE_TOOMANY))
    /\ (forall v w rest,
          inserts = v :: w :: rest ->
          v = "first" \/ v = "last" \/ v = "before" \/ v = "after" ->
          result = EXIT_FAILURE (Some LYE_TOOMANY)).
Proof.
  intros name ns attr content children before after parent siblings options
    unres schema He Hu Hf Hd Hc check result inserts values.
  assert (Hcheck :
    check =
    (i <- match inserts with
          | [] => EXIT_SUCCESS 0
          | v :: rest =>
              if first_or_last v then
                match rest with
                | [] => EXIT_SUCCESS 1
                | _ :: _ => EXIT_FAILURE (Some LYE_TOOMANY)
                end
              else if before_or_after v then
                match rest with
                | [] => EXIT_SUCCESS 2
                | _ :: _ => EXIT_FAILURE (Some LYE_TOOMANY)
                end
              else EXIT_FAILURE (Some LYE_INARG)
          end ;;
     i <- match value_attrs LY_NSYANG attr with
          | [] => EXIT_SUCCESS i
          | l =>
              if i <? 2 then EXIT_FAILURE (Some LYE_INATTR)
              else EXIT_SUCCESS (i + Z.of_nat (List.length l))
          end ;;
     if i =? 2 then EXIT_FAILURE (Some LYE_MISSATTR)
     else if i >? 3 then EXIT_FAILURE (Some LYE_TOOMANY)
     else EXIT_SUCCESS tt)%outcome).
  { unfold check, check_insert_attr. rewrite He, Hu, insert_loop_first.
    fold inserts. destruct inserts as [|v rest]; cbn [bind].
    - rewrite value_loop_count. reflexivity.
    - destruct (first_or_last v); [destruct rest|
        destruct (before_or_after v); [destruct rest|]];
        cbn [bind]; try rewrite value_loop_count; reflexivity. }
  assert (Hfail : forall e, check = EXIT_FAILURE e -> result = EXIT_FAILURE e).
  { intros e Hce. unfold result. apply insert_failure_fails_parse
      with (schema := schema); auto. rewrite Hc. apply andb_false_r. }
  assert (Hfl : forall v, v = "first" \/ v = "last" ->
                          first_or_last v = true).
  { intros v [->| ->]; reflexivity. }
  assert (Hba : forall v, v = "before" \/ v = "after" ->
                          first_or_last v = false
                          /\ before_or_after v = true).
  { intros v [->| ->]; split; reflexivity. }
  repeat split.
  - intros v rest Hi H1 H2 H3 H4. apply Hfail. rewrite Hcheck, Hi.
    assert (first_or_last v = false) as ->.
    { unfold first_or_last. apply orb_false_iff.
      split; apply not_true_is_false; rewrite streq_eq; assumption. }
    assert (before_or_after v = false) as ->.
    { unfold before_or_after. apply orb_false_iff.
      split; apply not_true_is_false; rewrite streq_eq; assumption. }
    reflexivity.
  - intros v Hi Hv Hn. rewrite Hcheck, Hi, (Hfl v Hv).
    destruct (value_attrs LY_NSYANG attr); [reflexivity|discriminate].
  - intros v Hi Hv Hn. rewrite Hcheck, Hi.
    destruct (Hba v Hv) as [-> ->]. unfold values in Hn.
    destruct (value_attrs LY_NSYANG attr) as [|x [|y l]];
      try discriminate. reflexivity.
  - intros v Hi Hv Hn. apply Hfail. rewrite Hcheck, Hi.
    destruct (Hba v Hv) as [-> ->]. unfold values in Hn.
    destruct (value_attrs LY_NSYANG attr); [reflexivity|discriminate].
  - intros v Hi Hv Hn. apply Hfail. rewrite Hcheck, Hi.
    destruct (Hba v Hv) as [-> ->]. unfold values in Hn.
    destruct (value_attrs LY_NSYANG attr) as [|x [|y l]];
      cbn [List.length] in Hn; try lia.
    cbn [bind]. change (2 <? 2) with false. cbv iota.
    remember (2 + Z.of_nat (List.length (x :: y :: l))) as n eqn:En.
    assert (Hn4 : 4 <= n) by (subst n; cbn [List.length]; lia).
    cbn [bind].
    destruct (Z.eqb_spec n 2); [lia|].
    destruct (Z.gtb_spec n 3); [reflexivity|lia].
  - intros v w rest Hi Hv. apply Hfail. rewrite Hcheck, Hi.
    destruct Hv as [Hv|[Hv|[Hv|Hv]]].
    + rewrite (Hfl v (or_introl Hv)). reflexivity.
    + rewrite (Hfl v (or_intror Hv)). reflexivity.
    + destruct (Hba v (or_introl Hv)) as [-> ->]. reflexivity.
    + destruct (Hba v (or_intror Hv)) as [-> ->]. reflexivity.
Qed.

End InsertFacts.

(** ** Data from different cases of a choice *)

(** The schema node lies in the case at address [cs] of the choice at
    address [ch]: the case and, right above it, the choice are among its
    parents. *)
Definition in_case_of_choice (cs ch : positive) (s : schema_ptr) : Prop :=
  exists inner c h outer,
    sch_parents s = inner ++ c :: h :: outer
    /\ is_case c = true /\ is_choice h = true
    /\ node_addr c = cs /\ node_addr h = ch.

(** Two schema nodes under the same choice ancestor, in different cases. *)
Definition different_cases_of_a_choice (s1 s2 : schema_ptr) : Prop :=
  exists ch cs1 cs2,
    cs1 <> cs2 /\ in_case_of_choice cs1 ch s1 /\ in_case_of_choice cs2 ch s2.

(** The same, with the choice as the nearest one: each node is a child of
    the choice or of one of its cases, and the two are not in one case. *)
Definition directly_in_other_case (s : schema_ptr) (d : lyd_node) : Prop :=
  match sch_parents s, sch_parents (schema d) with
  | p :: up, dp :: dup =>
      (is_case p = true /\ is_case dp = true
       /\ node_addr dp <> node_addr p
       /\ exists ch up' dch dup',
            up = ch :: up' /\ dup = dch :: dup'
            /\ node_addr dch = node_addr ch)
      \/ (is_case p = true /\ is_choice dp = true
          /\ exists ch up', up = ch :: up' /\ node_addr dp = node_addr ch)
      \/ (is_choice p = true /\ is_case dp = true
          /\ exists dch dup', dup = dch :: dup'
                              /\ node_addr dch = node_addr p)
      \/ (is_choice p = true /\ is_choice dp = true
          /\ node_addr dp = node_addr p
          /\ node_addr (sch_node (schema d)) <> node_addr (sch_node s))
  | _, _ => False
  end.

Lemma case_is_not_choice (n : lys_node) :
  is_case n = true -> is_choice n = false.
Proof. unfold is_case, is_choice. destruct (nodetype n); simpl; congruence. Qed.

(** A schema node found below a parent has that parent or a choice or
    case of it above it: the loop of the check meets no NULL parent among
    the siblings below a data node. *)
Lemma search_schemanode_parents :
  forall (result : lys_node) (name ns : string) (parents : list lys_node)
         (s : schema_ptr),
    parents <> [] ->
    search_schemanode name ns parents result = Some s ->
    sch_parents s <> [].
Proof.
  fix IH 1. intros [a n m t f ty ch] name ns parents s Hp.
  cbn [search_schemanode].
  assert (Hleaf : (if String.eqb n name && String.eqb m ns
                   then Some {| sch_node := Lys_node a n m t f ty ch;
                                sch_parents := parents |}
                   else None) = Some s -> sch_parents s <> []).
  { destruct (String.eqb n name && String.eqb m ns); [|discriminate].
    intros [= <-]. exact Hp. }
  destruct t; try exact Hleaf; try discriminate; clear Hleaf;
    match goal with
    | |- context [?x :: parents] =>
        assert (Hps : x :: parents <> []) by discriminate;
        revert Hps; generalize (x :: parents)
    end;
    intros ps Hps; induction ch as [|c rest IHl]; try discriminate;
    (destruct (search_schemanode name ns ps c) as [aux|] eqn:E;
     [intros [= <-]; exact (IH c name ns ps aux Hps E)|exact IHl]).
Qed.

Lemma find_schema_below_parent (models : list ly_module) (p s : schema_ptr)
    (name ns : string) :
  find_schema models (Some p) name ns = Some s -> sch_parents s <> [].
Proof.
  unfold find_schema.
  assert (Hps : sch_node p :: sch_parents p <> []) by discriminate.
  revert Hps. generalize (sch_node p :: sch_parents p) as ps.
  intros ps Hps. induction (child (sch_node p)) as [|c rest IH];
    cbn [xml_data_search_schemanode]; [discriminate|].
  destruct (search_schemanode name ns ps c) as [r|] eqn:E.
  - intros [= <-]. exact (search_schemanode_parents c name ns ps r Hps E).
  - exact IH.
Qed.
(** The loop reports the conflict, whatever lies between the new node and
    the conflicting sibling, as long as no NULL parent is met on the way. *)
Lemma choice_loop_conflict (cs : option lys_node) (ch : lys_node)
    (later earlier : list lyd_node) (d : lyd_node) (dp : lys_node)
    (dup : list lys_node) :
  Forall (fun x => sch_parents (schema x) <> []) later ->
  sch_parents (schema d) = dp :: dup ->
  other_case cs ch dp dup = true ->
  choice_loop cs ch (later ++ d :: earlier)
  = EXIT_FAILURE (Some LYE_MCASEDATA).
Proof.
  intros Hl Hd Ho. induction later as [|x later IH]; simpl.
  - rewrite Hd, Ho. reflexivity.
  - inversion Hl as [|? ? Hx Hl']; subst.
    destruct (sch_parents (schema x)) as [|xp xup]; [contradiction|].
    destruct (other_case cs ch xp xup); [reflexivity|]. apply IH, Hl'.
Qed.

Lemma check_choice_case_conflict (options : lyd_options) (s : schema_ptr)
    (earlier later : list lyd_node) (d : lyd_node) :
  LYD_OPT_FILTER options = false ->
  directly_in_other_case s d ->
  Forall (fun x => sch_parents (schema x) <> []) later ->
  check_choice_case options s (earlier ++ d :: later)
  = EXIT_FAILURE (Some LYE_MCASEDATA).
Proof.
  intros Hf Hc Hl. unfold check_choice_case. rewrite Hf.
  unfold directly_in_other_case in Hc.
  destruct (sch_parents s) as [|p up]; [contradiction|].
  destruct (sch_parents (schema d)) as [|dp dup] eqn:Hd; [contradiction|].
  rewrite rev_app_distr. cbn [rev]. rewrite <- app_assoc. cbn [app].
  assert (Hl' : Forall (fun x => sch_parents (schema x) <> []) (rev later))
    by (apply Forall_rev; exact Hl).
  destruct Hc as [(Hp & Hdp & Hne & ch & up' & dch & dup' & -> & -> & Ha)
                 |[(Hp & Hdp & ch & up' & -> & Ha)
                 |[(Hp & Hdp & dch & dup' & -> & Ha)
                 |(Hp & Hdp & Ha & _)]]].
  - rewrite Hp, (case_is_not_choice p Hp). cbn [orb].
    eapply choice_loop_conflict; eauto. unfold other_case.
    rewrite Hdp, (case_is_not_choice dp Hdp). cbn [andb orb].
    apply Pos.eqb_neq in Hne. rewrite Hne.
    apply Pos.eqb_eq in Ha. rewrite Ha. reflexivity.
  - rewrite Hp, (case_is_not_choice p Hp). cbn [orb].
    eapply choice_loop_conflict; eauto. unfold other_case.
    apply Pos.eqb_eq in Ha. rewrite Hdp, Ha. reflexivity.
  - rewrite Hp, orb_true_r.
    eapply choice_loop_conflict; eauto. unfold other_case.
    rewrite Hdp, (case_is_not_choice dp Hdp). reflexivity.
  - rewrite Hp, orb_true_r.
    eapply choice_loop_conflict; eauto. unfold other_case.
    apply Pos.eqb_eq in Ha. rewrite Hdp, Ha. reflexivity.
Qed.

Lemma normal_leaflist_loop (lyd_compare : lyd_node -> lyd_node -> bool -> bool)
    (options : lyd_options) (diter siblings : list lyd_node)
    (result : lyd_node) (v : verdict) :
  LYD_OPT_FILTER options = false ->
  leaflist_loop lyd_compare options diter siblings result = EXIT_SUCCESS v ->
  v = keep siblings.
Proof.
  intros Hf. induction diter as [|d lprev IH]; simpl.
  - congruence.
  - rewrite Hf.
    destruct (same_schema d (schema result) && lyd_compare d result false);
      [discriminate|exact IH].
Qed.

Lemma normal_list_loop (lyd_compare : lyd_node -> lyd_node -> bool -> bool)
    (lyd_filter_compare : lyd_node -> lyd_node -> bool)
    (lyd_filter_merge : lyd_node -> lyd_node -> lyd_node)
    (options : lyd_options) (diter visited siblings : list lyd_node)
    (result : lyd_node) (v : verdict) :
  LYD_OPT_FILTER options = false ->
  list_loop lyd_compare lyd_filter_compare lyd_filter_merge options diter
    visited siblings result = EXIT_SUCCESS v ->
  v = keep siblings.
Proof.
  intros Hf. revert visited.
  induction diter as [|d lprev IH]; intros visited; simpl.
  - congruence.
  - rewrite Hf. destruct (same_schema d (schema result)); [|apply IH].
    destruct (lyd_compare d result true); [discriminate|apply IH].
Qed.

Section ChoiceFacts.

Variable resolve_len_ran_interval : lys_type -> option (list len_ran_intv).
Variable regex_t : Type.
Variable regcomp : string -> option regex_t.
Variable regexec : regex_t -> string -> bool.
Variable transform_data_xml2json : string -> option string.
Variable resolve_identref_json : lys_type_info -> string -> option lys_ident.
Variable LY_NSYANG : string.
Variable models : list ly_module.
Variable ly_ctx_get_module_by_ns : string -> bool.
Variable lys_is_disabled : schema_ptr -> bool.
Variable lyv_keys_present : lyd_node -> option lys_node.
Variable ly_check_mandatory : lyd_node -> option lys_node.
Variable lyd_compare : lyd_node -> lyd_node -> bool -> bool.
Variable lyd_filter_compare : lyd_node -> lyd_node -> bool.
Variable lyd_filter_merge : lyd_node -> lyd_node -> lyd_node.
Variable fuel : nat.

Abbreviation parse_data' :=
  (xml_parse_data resolve_len_ran_interval regex_t regcomp regexec
     transform_data_xml2json resolve_identref_json LY_NSYANG models
     ly_ctx_get_module_by_ns lys_is_disabled lyv_keys_present
     ly_check_mandatory lyd_compare lyd_filter_compare lyd_filter_merge fuel).
Abbreviation validate' :=
  (validate_node lyv_keys_present ly_check_mandatory lyd_compare
     lyd_filter_compare lyd_filter_merge).

(** Outside filter mode the earlier checks leave the siblings as they
    are, so the checks on a node end in the failure of one of them or in
    what the choice check says. *)
Lemma validate_node_normal (options : lyd_options) (havechildren : bool)
    (siblings : list lyd_node) (result : lyd_node) :
  LYD_OPT_FILTER options = false ->
  (exists e, validate' options havechildren siblings result = EXIT_FAILURE e)
  \/ validate' options havechildren siblings result = UNDEFINED
  \/ validate' options havechildren siblings result = TIMEOUT
  \/ (check_keys lyv_keys_present options result = EXIT_SUCCESS tt
      /\ check_mandatory ly_check_mandatory options havechildren result
         = EXIT_SUCCESS tt
      /\ check_instances options siblings result
         = EXIT_SUCCESS (keep siblings)
      /\ check_unique lyd_compare lyd_filter_compare lyd_filter_merge
           options siblings result = EXIT_SUCCESS (keep siblings)
      /\ validate' options havechildren siblings result
         = (check_choice_case options (schema result) siblings ;;;
            EXIT_SUCCESS (keep siblings))%outcome).
Proof.
  intros Hf. unfold validate_node.
  destruct (check_keys lyv_keys_present options result) as [[]|e| |];
    cbn [bind]; eauto.
  destruct (check_mandatory ly_check_mandatory options havechildren result)
    as [[]|e| |]; cbn [bind]; eauto.
  assert (Hi : forall v, check_instances options siblings result
                         = EXIT_SUCCESS v -> v = keep siblings).
  { unfold check_instances. rewrite Hf. intros v.
    destruct (nodetype (sch_node (schema result)));
      try congruence;
      destruct (existsb _ siblings); congruence. }
  destruct (check_instances options siblings result) as [v|e| |] eqn:Ei;
    cbn [bind]; eauto.
  rewrite (Hi v eq_refl).
  assert (Hu : forall v, check_unique lyd_compare lyd_filter_compare
                           lyd_filter_merge options siblings result
                         = EXIT_SUCCESS v -> v = keep siblings).
  { unfold check_unique. intros v'.
    destruct (nodetype (sch_node (schema result))); try congruence.
    - apply normal_leaflist_loop; exact Hf.
    - apply normal_list_loop; exact Hf. }
  destruct (check_unique lyd_compare lyd_filter_compare lyd_filter_merge
              options siblings result) as [v'|e| |] eqn:Eu;
    cbn [bind]; eauto.
  rewrite (Hu v' eq_refl). right. right. right. auto.
Qed.

(** What the block checks.  Outside filter mode, when an earlier data
    sibling lies in the same choice as the element being parsed, each as a
    child of the choice or of one of its cases, but not in the same case,
    and the loop meets no sibling without a schema parent on its way
    there (those found below a parent element have one,
    [find_schema_below_parent]): the choice check reports MCASEDATA; the
    checks on the new node never succeed, and fail with MCASEDATA when the
    checks before pass; and the parse does not succeed. *)
Lemma data_of_another_case_is_rejected :
  forall (options : lyd_options) (s : schema_ptr)
         (earlier later : list lyd_node) (d : lyd_node),
    LYD_OPT_FILTER options = false ->
    directly_in_other_case s d ->
    Forall (fun x => sch_parents (schema x) <> []) later ->
    let siblings := earlier ++ d :: later in
    check_choice_case options s siblings = EXIT_FAILURE (Some LYE_MCASEDATA)
    /\ (forall (havechildren : bool) (result : lyd_node),
          schema result = s ->
          (forall v, validate' options havechildren siblings result
                     <> EXIT_SUCCESS v)
          /\ (check_keys lyv_keys_present options result = EXIT_SUCCESS tt ->
              check_mandatory ly_check_mandatory options havechildren result
              = EXIT_SUCCESS tt ->
              check_instances options siblings result
              = EXIT_SUCCESS (keep siblings) ->
              check_unique lyd_compare lyd_filter_compare lyd_filter_merge
                options siblings result = EXIT_SUCCESS (keep siblings) ->
              validate' options havechildren siblings result
              = EXIT_FAILURE (Some LYE_MCASEDATA)))
    /\ (forall (name ns : string) (attr : list lyxml_attr)
               (content : option string)
               (children before after : list lyxml_elem)
               (parent : option schema_ptr) (unres : unres_data) r,
          find_schema models parent name ns = Some s ->
          parse_data' before
            (Lyxml_elem name (Some ns) attr content children :: after)
            parent siblings options unres
          <> EXIT_SUCCESS r).
Proof.
  intros options s earlier later d Hf Hc Hl siblings.
  assert (Hchoice : check_choice_case options s siblings
                    = EXIT_FAILURE (Some LYE_MCASEDATA))
    by (apply check_choice_case_conflict; assumption).
  assert (Hval : forall havechildren result,
            schema result = s ->
            forall v, validate' options havechildren siblings result
                      <> EXIT_SUCCESS v).
  { intros hc result Hs v.
    destruct (validate_node_normal options hc siblings result Hf)
      as [[e He]|[He|[He|(_ & _ & _ & _ & He)]]]; rewrite He;
      try discriminate.
    rewrite Hs, Hchoice. discriminate. }
  split; [exact Hchoice|]. split.
  - intros hc result Hs. split; [apply Hval; exact Hs|].
    intros Hk Hm Hi Hu. unfold validate_node.
    rewrite Hk, Hm. cbn [bind]. rewrite Hi. cbn [bind]. rewrite Hu.
    cbn [bind]. rewrite Hs, Hchoice. reflexivity.
  - intros name ns attr content children before after parent unres r Hfs.
    cbn [xml_parse_data].
    match goal with
    | |- bind ?m _ <> _ =>
        assert (Hnode : forall p, m <> EXIT_SUCCESS p);
        [|destruct m as [p|e| |]; cbn [bind]; try discriminate;
          exfalso; exact (Hnode p eq_refl)]
    end.
    intros p. cbn [xml_parse_node]. rewrite Hfs.
    destruct (element_checks LY_NSYANG lys_is_disabled options s attr)
      as [hc|e| |]; cbn [bind]; try discriminate.
    destruct (leaf_value resolve_len_ran_interval regex_t regcomp regexec
                transform_data_xml2json resolve_identref_json fuel s
                content options unres) as [[leaf unres1]|e| |];
      cbn [bind]; try discriminate.
    match goal with
    | |- bind ?m _ <> _ =>
        destruct m as [[kids unres2]|e| |]; cbn [bind]; try discriminate
    end.
    match goal with
    | |- bind (validate_node ?f1 ?f2 ?f3 ?f4 ?f5 ?o ?h ?sb ?res) _ <> _ =>
        pose proof (Hval h res eq_refl) as Hv;
        destruct (validate_node f1 f2 f3 f4 f5 o h sb res) as [v|err| |];
        cbn [bind]; try discriminate
    end.
    exfalso. exact (Hv v eq_refl).
Qed.

End ChoiceFacts.

(** A user-ordered leaf-list [ll] of strings at the top of a module, and
    the context that holds the module. *)
Definition NSYANG : string := "urn:ietf:params:xml:ns:yang:1".

Definition leaflist_ll : lys_node :=
  Lys_node 1 "ll" "urn:x" LYS_LEAFLIST
    {| LYS_CONFIG_R := false; LYS_USERORDERED := true |}
    (Some (Lys_type 3 LY_TYPE_STRING (Some (builtin 2 LY_TYPE_STRING))
             info_none))
    [].

Definition models_x : list ly_module :=
  [ {| mod_ns := "urn:x"; mod_data := [leaflist_ll] |} ].

Definition edit_config : lyd_options :=
  {| LYD_OPT_FILTER := false; LYD_OPT_EDIT := true;
     LYD_OPT_STRICT := false |}.

Definition insert_before : lyxml_attr :=
  {| attr_type := LYXML_ATTR_STD; attr_name := "insert";
     attr_ns := Some NSYANG; attr_value := "before" |}.

Lemma insert_and_value_attributes_witness :
  xml_parse_data no_restriction unit no_regcomp no_regexec no_transform
    no_identref NSYANG models_x (fun _ => true) (fun _ => false)
    (fun _ => None) (fun _ => None) (fun _ _ _ => false)
    (fun _ _ => false) (fun d _ => d) 2 []
    [Lyxml_elem "ll" (Some "urn:x") [insert_before] (Some "w") []]
    None [] edit_config []
  = EXIT_FAILURE (Some LYE_MISSATTR).
Proof.
  destruct (insert_and_value_attributes no_restriction unit no_regcomp
              no_regexec no_transform no_identref NSYANG models_x
              (fun _ => true) (fun _ => false) (fun _ => None)
              (fun _ => None) (fun _ _ _ => false) (fun _ _ => false)
              (fun d _ => d) 2%nat
              "ll" "urn:x" [insert_before] (Some "w") [] [] [] None []
              edit_config []
              {| sch_node := leaflist_ll; sch_parents := [] |}
              eq_refl eq_refl eq_refl eq_refl eq_refl)
    as (_ & _ & _ & Hmiss & _).
  apply (Hmiss "before"); [reflexivity|left; reflexivity|reflexivity].
Defined.

(** The schema
    [container P { choice c { case a { leaf la; }
                              case b { leaf lb;
                                       choice d { case z { leaf lz; } } } } }]
    in the namespace [urn:x]. *)
Definition no_flags : lys_flags :=
  {| LYS_CONFIG_R := false; LYS_USERORDERED := false |}.
Definition string_type (a : positive) : lys_type :=
  Lys_type a LY_TYPE_STRING (Some (builtin 1 LY_TYPE_STRING)) info_none.
Definition leaf_la : lys_node :=
  Lys_node 11 "la" "urn:x" LYS_LEAF no_flags (Some (string_type 101)) [].
Definition leaf_lb : lys_node :=
  Lys_node 12 "lb" "urn:x" LYS_LEAF no_flags (Some (string_type 102)) [].
Definition leaf_lz : lys_node :=
  Lys_node 13 "lz" "urn:x" LYS_LEAF no_flags (Some (string_type 103)) [].
Definition case_z : lys_node :=
  Lys_node 14 "z" "urn:x" LYS_CASE no_flags None [leaf_lz].
Definition choice_d : lys_node :=
  Lys_node 15 "d" "urn:x" LYS_CHOICE no_flags None [case_z].
Definition case_a : lys_node :=
  Lys_node 16 "a" "urn:x" LYS_CASE no_flags None [leaf_la].
Definition case_b : lys_node :=
  Lys_node 17 "b" "urn:x" LYS_CASE no_flags None [leaf_lb; choice_d].
Definition choice_c : lys_node :=
  Lys_node 18 "c" "urn:x" LYS_CHOICE no_flags None [case_a; case_b].
Definition container_P : lys_node :=
  Lys_node 19 "P" "urn:x" LYS_CONTAINER no_flags None [choice_c].
Definition models_P : list ly_module :=
  [ {| mod_ns := "urn:x"; mod_data := [container_P] |} ].

(** The element [<P xmlns="urn:x">...</P>] and a leaf element in it. *)
Definition element_P (children : list lyxml_elem) : lyxml_elem :=
  Lyxml_elem "P" (Some "urn:x") [] None children.
Definition leaf_element (name content : string) : lyxml_elem :=
  Lyxml_elem name (Some "urn:x") [] (Some content) [].

(** The parser on a document in the context of [models_P], in a setting
    where the checks of the other compilation units find nothing. *)
Definition parse_P (document : list lyxml_elem) : outcome parse_result :=
  xml_parse_data no_restriction unit no_regcomp no_regexec no_transform
    no_identref NSYANG models_P (fun _ => true) (fun _ => false)
    (fun _ => None) (fun _ => None) (fun _ _ _ => false) (fun _ _ => false)
    (fun d _ => d) 2 [] document None [] no_options [].

(** The data node of a string leaf of [P]. *)
Definition data_leaf (n : lys_node) (parents : list lys_node)
    (t : lys_type) (content : string) : lyd_node :=
  Lyd_node {| sch_node := n; sch_parents := parents |} []
    (Some {| schema_type := t; value_str := Some content;
             value_type := plain LY_TYPE_STRING;
             value := val_string (Some content) |})
    [] None.

Definition data_la : lyd_node :=
  data_leaf leaf_la [case_a; choice_c; container_P] (string_type 101) "1".
Definition data_lz : lyd_node :=
  data_leaf leaf_lz [case_z; choice_d; case_b; choice_c; container_P]
    (string_type 103) "2".

(** The data node of the container [P] with the children [kids]. *)
Definition data_P (kids : list lyd_node) : lyd_node :=
  Lyd_node {| sch_node := container_P; sch_parents := [] |} kids None []
    None.

(** C8 (the code departs from the claim).  The claim: two data siblings
    whose schema nodes lie under the same choice in different cases make
    the parse fail with MCASEDATA.  The block "check that there are no
    data from different choice case" does so for the scenario of the
    specification, one leaf from case [a] and one from case [b] of the
    choice [c].  But it compares only the nearest case and choice of the
    new node with the parent and grandparent of each sibling, and says so
    itself ("TODO check schemas with a choice inside a case", with a
    warning): [la] lies in case [a] and [lz], in the choice [d] nested in
    case [b], lies in case [b] of the same choice [c], yet a container with
    both is parsed successfully and keeps both. *)
Theorem nested_choice_is_not_checked :
  different_cases_of_a_choice (schema data_la) (schema data_lz)
  /\ parse_P [element_P [leaf_element "la" "1"; leaf_element "lz" "2"]]
     = EXIT_SUCCESS
         {| returned := Some [data_P [data_la; data_lz]];
            ring := [data_P [data_la; data_lz]];
            unres_queue := [] |}
  /\ parse_P [element_P [leaf_element "lz" "2"; leaf_element "la" "1"]]
     = EXIT_SUCCESS
         {| returned := Some [data_P [data_lz; data_la]];
            ring := [data_P [data_lz; data_la]];
            unres_queue := [] |}
  /\ parse_P [element_P [leaf_element "la" "1"; leaf_element "lb" "2"]]
     = EXIT_FAILURE (Some LYE_MCASEDATA).
Proof.
  split; [|split; [|split]].
  - exists 18%positive, 16%positive, 17%positive.
    split; [discriminate|]. split.
    + exists [], case_a, choice_c, [container_P]. repeat split.
    + exists [case_z; choice_d], case_b, choice_c, [container_P].
      repeat split.
  - vm_compute. reflexivity.
  - vm_compute. reflexivity.
  - vm_compute. reflexivity.
Qed.

(** * Further properties of the data parser *)

(** ** The schema node of an element *)

(** The kinds of node the search looks through. *)
Definition transparent (t : LYS_NODE) : bool :=
  match t with
  | LYS_CHOICE | LYS_CASE | LYS_USES => true
  | _ => false
  end.

(** Induction on a schema node, with the property for its children. *)
Section lys_node_induction.

Variable P : lys_node -> Prop.
Hypothesis step :
  forall a n m t f ty ch, Forall P ch -> P (Lys_node a n m t f ty ch).

Fixpoint lys_node_induction (node : lys_node) : P node :=
  match node with
  | Lys_node a n m t f ty ch =>
      step a n m t f ty ch
        ((fix all (l : list lys_node) : Forall P l :=
            match l with
            | [] => Forall_nil P
            | c :: r => Forall_cons c (lys_node_induction c) (all r)
            end) ch)
  end.

End lys_node_induction.

(** What the search returns: a node of the name and namespace asked for,
    not a grouping, choice, case or uses, below [parents] with only
    choices, cases and uses in between. *)
Definition data_node_below (name ns : string) (parents : list lys_node)
    (s : schema_ptr) : Prop :=
  node_name (sch_node s) = name /\ node_ns (sch_node s) = ns
  /\ transparent (nodetype (sch_node s)) = false
  /\ nodetype (sch_node s) <> LYS_GROUPING
  /\ exists inner,
       sch_parents s = inner ++ parents
       /\ Forall (fun n => transparent (nodetype n) = true) inner.

Lemma search_schemanode_sound (result : lys_node) :
  forall (name ns : string) (parents : list lys_node) (s : schema_ptr),
    search_schemanode name ns parents result = Some s ->
    data_node_below name ns parents s.
Proof.
  induction result as [a n m t f ty ch IHch] using lys_node_induction.
  intros name ns parents s. cbn [search_schemanode].
  assert (Hinner :
            transparent t = true ->
            (fix for_each (l : list lys_node) : option schema_ptr :=
               match l with
               | [] => None
               | c :: rest =>
                   match search_schemanode name ns
                           (Lys_node a n m t f ty ch :: parents) c with
                   | Some aux => Some aux
                   | None => for_each rest
                   end
               end) ch = Some s ->
            data_node_below name ns parents s).
  { intros Ht.
    assert (Hself : transparent (nodetype (Lys_node a n m t f ty ch)) = true)
      by exact Ht.
    revert Hself. generalize (Lys_node a n m t f ty ch) as self.
    intros self Hself.
    induction IHch as [|c rest Hc _ IHl]; [discriminate|].
    destruct (search_schemanode name ns (self :: parents) c) as [aux|] eqn:E.
    - intros [= <-].
      destruct (Hc name ns _ aux E) as (H1 & H2 & H3 & H4 & inner & Hp & Hin).
      unfold data_node_below. repeat split; try assumption.
      exists (inner ++ [self]). split.
      + rewrite Hp, <- app_assoc. reflexivity.
      + apply Forall_app. split; [exact Hin|]. constructor; [exact Hself|].
        constructor.
    - exact IHl. }
  assert (Hleaf :
            transparent t = false -> t <> LYS_GROUPING ->
            (if String.eqb n name && String.eqb m ns
             then Some {| sch_node := Lys_node a n m t f ty ch;
                          sch_parents := parents |}
             else None) = Some s ->
            data_node_below name ns parents s).
  { intros Ht Hg.
    destruct (String.eqb n name) eqn:En; [|discriminate].
    destruct (String.eqb m ns) eqn:Em; [|discriminate].
    intros [= <-]. apply String.eqb_eq in En, Em. unfold data_node_below.
    cbn. repeat split; try assumption.
    exists []. split; [reflexivity|constructor]. }
  destruct t; try (apply Hleaf; [reflexivity|discriminate]);
    try discriminate; apply Hinner; reflexivity.
Qed.

Lemma xml_data_search_schemanode_sound (start : list lys_node)
    (name ns : string) (parents : list lys_node) (s : schema_ptr) :
  xml_data_search_schemanode name ns parents start = Some s ->
  data_node_below name ns parents s.
Proof.
  induction start as [|c rest IH]; cbn [xml_data_search_schemanode];
    [discriminate|].
  destruct (search_schemanode name ns parents c) as [r|] eqn:E.
  - intros [= <-]. exact (search_schemanode_sound c name ns parents r E).
  - exact IH.
Qed.

(** X14.  The schema node found for an element below a parent: it bears the
    name and the namespace of the element, it is a data node (the search looks
    through choices, cases and uses and skips groupings), and above it come
    only choices, cases and uses up to the schema node of the parent. *)
Theorem found_schema_node_is_a_data_node (models : list ly_module)
    (p s : schema_ptr) (name ns : string) :
  find_schema models (Some p) name ns = Some s ->
  data_node_below name ns (sch_node p :: sch_parents p) s.
Proof.
  unfold find_schema. apply xml_data_search_schemanode_sound.
Qed.

Lemma found_schema_node_is_a_data_node_witness :
  data_node_below "lz" "urn:x" [container_P]
    {| sch_node := leaf_lz;
       sch_parents := [case_z; choice_d; case_b; choice_c; container_P] |}.
Proof.
  apply (found_schema_node_is_a_data_node models_P
           {| sch_node := container_P; sch_parents := [] |}).
  reflexivity.
Defined.

(** ** The checks on a new data node *)

Section NodeFacts.

Variable resolve_len_ran_interval : lys_type -> option (list len_ran_intv).
Variable regex_t : Type.
Variable regcomp : string -> option regex_t.
Variable regexec : regex_t -> string -> bool.
Variable transform_data_xml2json : string -> option string.
Variable resolve_identref_json : lys_type_info -> string -> option lys_ident.
Variable LY_NSYANG : string.
Variable models : list ly_module.
Variable ly_ctx_get_module_by_ns : string -> bool.
Variable lys_is_disabled : schema_ptr -> bool.
Variable lyv_keys_present : lyd_node -> option lys_node.
Variable ly_check_mandatory : lyd_node -> option lys_node.
Variable lyd_compare : lyd_node -> lyd_node -> bool -> bool.
Variable lyd_filter_compare : lyd_node -> lyd_node -> bool.
Variable lyd_filter_merge : lyd_node -> lyd_node -> lyd_node.
Variable fuel : nat.

Abbreviation parse :=
  (xml_parse_data resolve_len_ran_interval regex_t regcomp regexec
     transform_data_xml2json resolve_identref_json LY_NSYANG models
     ly_ctx_get_module_by_ns lys_is_disabled lyv_keys_present
     ly_check_mandatory lyd_compare lyd_filter_compare lyd_filter_merge fuel).
Abbreviation parse_element :=
  (xml_parse_node resolve_len_ran_interval regex_t regcomp regexec
     transform_data_xml2json resolve_identref_json LY_NSYANG models
     ly_ctx_get_module_by_ns lys_is_disabled lyv_keys_present
     ly_check_mandatory lyd_compare lyd_filter_compare lyd_filter_merge fuel).
Abbreviation validate :=
  (validate_node lyv_keys_present ly_check_mandatory lyd_compare
     lyd_filter_compare lyd_filter_merge).

(** X15.  An element that has no schema node is an error in strict mode and
    when its namespace is that of a module of the context.  Otherwise the
    element is passed over with all it contains: the elements after it are
    parsed into the same siblings, and the call itself returns NULL, whatever
    they gave.  At the root, where nothing else points to the nodes, the
    data of the elements after a first element that is passed over is
    lost to the caller. *)
Theorem element_without_schema_node (name ns : string)
    (attr : list lyxml_attr) (content : option string)
    (children before next : list lyxml_elem) (parent : option schema_ptr)
    (siblings : list lyd_node) (options : lyd_options) (unres : unres_data) :
  find_schema models parent name ns = None ->
  parse before (Lyxml_elem name (Some ns) attr content children :: next)
    parent siblings options unres
  = if LYD_OPT_STRICT options || ly_ctx_get_module_by_ns ns
    then EXIT_FAILURE (Some LYE_INELEM)
    else
      (r <- parse (Lyxml_elem name (Some ns) attr content children :: before)
              next parent siblings options unres ;;
       EXIT_SUCCESS
         {| returned := None; ring := ring r;
            unres_queue := unres_queue r |})%outcome.
Proof.
  intros Hf. cbn [xml_parse_data xml_parse_node]. rewrite Hf.
  destruct (LYD_OPT_STRICT options || ly_ctx_get_module_by_ns ns);
    reflexivity.
Qed.

(** When the checks on the node of an element cannot succeed, neither can
    the parse. *)
Lemma parse_fails_with_validation (s : schema_ptr)
    (siblings : list lyd_node) (options : lyd_options) :
  (forall havechildren result v,
     schema result = s ->
     validate options havechildren siblings result <> EXIT_SUCCESS v) ->
  forall (name ns : string) (attr : list lyxml_attr)
         (content : option string) (children before after : list lyxml_elem)
         (parent : option schema_ptr) (unres : unres_data) r,
    find_schema models parent name ns = Some s ->
    parse before (Lyxml_elem name (Some ns) attr content children :: after)
      parent siblings options unres
    <> EXIT_SUCCESS r.
Proof.
  intros Hval name ns attr content children before after parent unres r Hfs.
  cbn [xml_parse_data].
  match goal with
  | |- bind ?m _ <> _ =>
      assert (Hnode : forall p, m <> EXIT_SUCCESS p);
      [|destruct m as [p|e| |]; cbn [bind]; try discriminate;
        exfalso; exact (Hnode p eq_refl)]
  end.
  intros p. cbn [xml_parse_node]. rewrite Hfs.
  destruct (element_checks LY_NSYANG lys_is_disabled options s attr)
    as [hc|e| |]; cbn [bind]; try discriminate.
  destruct (leaf_value resolve_len_ran_interval regex_t regcomp regexec
              transform_data_xml2json resolve_identref_json fuel s
              content options unres) as [[leaf unres1]|e| |];
    cbn [bind]; try discriminate.
  match goal with
  | |- bind ?m _ <> _ =>
      destruct m as [[kids unres2]|e| |]; cbn [bind]; try discriminate
  end.
  match goal with
  | |- bind (validate_node ?f1 ?f2 ?f3 ?f4 ?f5 ?o ?h ?sb ?res) _ <> _ =>
      pose proof (Hval h res) as Hv;
      destruct (validate_node f1 f2 f3 f4 f5 o h sb res) as [v|err| |];
      cbn [bind]; try discriminate
  end.
  exfalso. exact (Hv v eq_refl eq_refl).
Qed.

Lemma existsb_same_schema (siblings : list lyd_node) (d : lyd_node)
    (s : schema_ptr) :
  In d siblings -> same_schema d s = true ->
  existsb (fun x => same_schema x s) siblings = true.
Proof.
  intros Hin Hs. apply existsb_exists. exists d. auto.
Qed.

(** X16.  Outside filter mode a container, leaf or anyxml may occur once among
    its siblings: the checks on a second instance report TOOMANY, and no tree
    is returned. *)
Theorem second_instance_is_rejected (options : lyd_options) (s : schema_ptr)
    (siblings : list lyd_node) (d : lyd_node) :
  LYD_OPT_FILTER options = false ->
  nodetype (sch_node s) = LYS_CONTAINER \/ nodetype (sch_node s) = LYS_LEAF
  \/ nodetype (sch_node s) = LYS_ANYXML ->
  In d siblings -> same_schema d s = true ->
  (forall havechildren result,
     schema result = s ->
     check_mandatory ly_check_mandatory options havechildren result
     = EXIT_SUCCESS tt ->
     validate options havechildren siblings result
     = EXIT_FAILURE (Some LYE_TOOMANY))
  /\ (forall (name ns : string) (attr : list lyxml_attr)
             (content : option string)
             (children before after : list lyxml_elem)
             (parent : option schema_ptr) (unres : unres_data) r,
        find_schema models parent name ns = Some s ->
        parse before
          (Lyxml_elem name (Some ns) attr content children :: after)
          parent siblings options unres
        <> EXIT_SUCCESS r).
Proof.
  intros Hf Hkind Hin Hsame.
  pose proof (existsb_same_schema siblings d s Hin Hsame) as Hex.
  assert (Hkeys : forall result,
             schema result = s ->
             check_keys lyv_keys_present options result = EXIT_SUCCESS tt).
  { intros result <-. unfold check_keys.
    destruct Hkind as [-> | [-> | ->]]; reflexivity. }
  assert (Hinst : forall result,
             schema result = s ->
             check_instances options siblings result
             = EXIT_FAILURE (Some LYE_TOOMANY)).
  { intros result Hs. unfold check_instances. rewrite Hs, Hf, Hex.
    destruct Hkind as [-> | [-> | ->]]; reflexivity. }
  split.
  - intros hc result Hs Hm. unfold validate_node.
    rewrite (Hkeys result Hs), Hm. cbn [bind].
    rewrite (Hinst result Hs). reflexivity.
  - apply parse_fails_with_validation.
    intros hc result v Hs. unfold validate_node.
    rewrite (Hkeys result Hs). cbn [bind].
    destruct (check_mandatory ly_check_mandatory options hc result)
      as [[]|e| |]; cbn [bind]; try discriminate.
    rewrite (Hinst result Hs). discriminate.
Qed.

Lemma leaflist_loop_duplicate (options : lyd_options)
    (diter siblings : list lyd_node) (d result : lyd_node) :
  In d diter -> same_schema d (schema result) = true ->
  lyd_compare d result false = true ->
  leaflist_loop lyd_compare options diter siblings result
  = if LYD_OPT_FILTER options then EXIT_SUCCESS (clear siblings)
    else EXIT_FAILURE (Some LYE_DUPLEAFLIST).
Proof.
  intros Hin Hs Hc. induction diter as [|x diter IH]; [destruct Hin|].
  cbn [leaflist_loop].
  destruct (same_schema x (schema result) && lyd_compare x result false)
    eqn:E; [reflexivity|].
  destruct Hin as [-> | Hin]; [rewrite Hs, Hc in E; discriminate|].
  apply IH, Hin.
Qed.

(** X17.  A leaf-list entry equal to an earlier one (as [lyd_compare] finds)
    is an error, DUPLEAFLIST; in a filter it is dropped without a word and the
    earlier siblings stay as they are. *)
Theorem duplicate_leaflist_entry (options : lyd_options)
    (siblings : list lyd_node) (d result : lyd_node) :
  nodetype (sch_node (schema result)) = LYS_LEAFLIST ->
  In d siblings -> same_schema d (schema result) = true ->
  lyd_compare d result false = true ->
  validate options false siblings result
  = if LYD_OPT_FILTER options then EXIT_SUCCESS (clear siblings)
    else EXIT_FAILURE (Some LYE_DUPLEAFLIST).
Proof.
  intros Hkind Hin Hs Hc. unfold validate_node, check_keys, check_mandatory,
    check_instances, check_unique.
  rewrite Hkind. cbn [andb bind].
  rewrite (leaflist_loop_duplicate options (rev siblings) siblings d result)
    by (try apply in_rev; try rewrite rev_involutive; assumption).
  destruct (LYD_OPT_FILTER options); reflexivity.
Qed.

Lemma list_loop_duplicate (options : lyd_options)
    (diter visited siblings : list lyd_node) (d result : lyd_node) :
  LYD_OPT_FILTER options = false ->
  In d diter -> same_schema d (schema result) = true ->
  lyd_compare d result true = true ->
  list_loop lyd_compare lyd_filter_compare lyd_filter_merge options diter
    visited siblings result
  = EXIT_FAILURE (Some LYE_DUPLIST).
Proof.
  intros Hf Hin Hs Hc. revert visited.
  induction diter as [|x diter IH]; intros visited; [destruct Hin|].
  cbn [list_loop]. rewrite Hf.
  destruct Hin as [-> | Hin]; [rewrite Hs, Hc; reflexivity|].
  destruct (same_schema x (schema result)); [|apply IH, Hin].
  destruct (lyd_compare x result true); [reflexivity|apply IH, Hin].
Qed.

Lemma list_loop_merge (options : lyd_options)
    (later earlier visited siblings : list lyd_node) (d result : lyd_node) :
  LYD_OPT_FILTER options = true ->
  same_schema d (schema result) = true ->
  lyd_filter_compare d result = true ->
  Forall (fun x => same_schema x (schema result) = true ->
                   lyd_filter_compare x result = false) later ->
  list_loop lyd_compare lyd_filter_compare lyd_filter_merge options
    (rev later ++ d :: rev earlier) visited siblings result
  = EXIT_SUCCESS
      (clear (earlier ++ lyd_filter_merge d result :: later ++ visited)).
Proof.
  intros Hf Hs Hc Hlater. revert visited.
  induction later as [|x later IH] using rev_ind; intros visited.
  - cbn [rev app list_loop]. rewrite Hs, Hf, Hc, rev_involutive.
    reflexivity.
  - rewrite rev_app_distr. cbn [rev app list_loop].
    apply Forall_app in Hlater as [Hlater Hx].
    apply Forall_cons_iff in Hx as [Hx _].
    rewrite Hf.
    assert (Hskip : forall k : outcome verdict,
               (if same_schema x (schema result)
                then if lyd_filter_compare x result
                     then EXIT_SUCCESS
                            (clear (rev (rev later ++ d :: rev earlier)
                                      ++ lyd_filter_merge x result
                                      :: visited))
                     else k
                else k) = k).
    { intros k. destruct (same_schema x (schema result)); [|reflexivity].
      rewrite (Hx eq_refl). reflexivity. }
    rewrite Hskip, (IH Hlater), <- app_assoc. reflexivity.
Qed.

(** X18.  A list entry that repeats the keys or a unique combination of an
    earlier one (as [lyd_compare] finds) is an error, DUPLIST. In a filter, an
    entry with the content match nodes of an earlier one is merged into the
    latest such entry and dropped. *)
Theorem duplicate_list_entry (options : lyd_options)
    (earlier later : list lyd_node) (d result : lyd_node)
    (havechildren : bool) :
  nodetype (sch_node (schema result)) = LYS_LIST ->
  same_schema d (schema result) = true ->
  (LYD_OPT_FILTER options = false ->
   lyv_keys_present result = None ->
   check_mandatory ly_check_mandatory options havechildren result
   = EXIT_SUCCESS tt ->
   lyd_compare d result true = true ->
   validate options havechildren (earlier ++ d :: later) result
   = EXIT_FAILURE (Some LYE_DUPLIST))
  /\ (LYD_OPT_FILTER options = true ->
      lyd_filter_compare d result = true ->
      Forall (fun x => same_schema x (schema result) = true ->
                       lyd_filter_compare x result = false) later ->
      validate options havechildren (earlier ++ d :: later) result
      = EXIT_SUCCESS
          (clear (earlier ++ lyd_filter_merge d result :: later))).
Proof.
  intros Hkind Hs. split.
  - intros Hf Hkeys Hm Hc. unfold validate_node, check_keys.
    rewrite Hkind, Hf, Hkeys, Hm. cbn [bind].
    unfold check_instances, check_unique. rewrite Hkind. cbn [bind].
    rewrite list_loop_duplicate with (d := d); try assumption;
      [reflexivity|].
    apply in_rev. rewrite rev_involutive. apply in_or_app. right. left.
    reflexivity.
  - intros Hf Hc Hlater. unfold validate_node, check_keys, check_mandatory.
    rewrite Hkind, Hf. cbn [orb negb andb bind].
    rewrite andb_false_r. cbn [bind].
    unfold check_instances, check_unique. rewrite Hkind. cbn [bind].
    rewrite rev_app_distr. cbn [rev]. rewrite <- app_assoc. cbn [app].
    rewrite list_loop_merge by assumption.
    rewrite app_nil_r. reflexivity.
Qed.


Lemma validate_keeps_siblings (options : lyd_options) (havechildren : bool)
    (siblings : list lyd_node) (result : lyd_node) (v : verdict) :
  LYD_OPT_FILTER options = false ->
  validate options havechildren siblings result = EXIT_SUCCESS v ->
  v = keep siblings.
Proof.
  intros Hf Hv.
  destruct (validate_node_normal lyv_keys_present ly_check_mandatory
              lyd_compare lyd_filter_compare lyd_filter_merge options
              havechildren siblings result Hf)
    as [[e He]|[He|[He|(_ & _ & _ & _ & He)]]]; rewrite He in Hv;
    try discriminate.
  destruct (check_choice_case options (schema result) siblings)
    as [[]|e| |]; cbn [bind] in Hv; try discriminate.
  congruence.
Qed.

(** The element has a schema node below the parent. *)
Definition known (parent : option schema_ptr) (x : lyxml_elem) : bool :=
  match x with
  | Lyxml_elem name (Some ns) _ _ _ =>
      match find_schema models parent name ns with
      | Some _ => true
      | None => false
      end
  | Lyxml_elem _ None _ _ _ => false
  end.

(** The schema node of the element is not an anyxml. *)
Definition not_anyxml (parent : option schema_ptr) (x : lyxml_elem) : Prop :=
  match x with
  | Lyxml_elem name ns _ _ _ =>
      forall ns' s,
        ns = Some ns' -> find_schema models parent name ns' = Some s ->
        nodetype (sch_node s) <> LYS_ANYXML
  end.

(** The data node [d] is the one of the element [x]: its schema node is
    the one found for the name and namespace of the element, it has the
    attributes of the element, and its value is the content of the
    element decoded against the type of the schema node. *)
Definition made_for (parent : option schema_ptr) (options : lyd_options)
    (x : lyxml_elem) (d : lyd_node) : Prop :=
  match x with
  | Lyxml_elem name ns attr content _ =>
      exists ns',
        ns = Some ns'
        /\ find_schema models parent name ns' = Some (schema d)
        /\ d_attr d = attr
        /\ exists unres unres',
             leaf_value resolve_len_ran_interval regex_t regcomp regexec
               transform_data_xml2json resolve_identref_json fuel (schema d)
               content options unres
             = EXIT_SUCCESS (d_leaf d, unres')
  end.

(** What the parse of one element leaves of the data siblings, outside
    filter mode: for an element with a schema node, the siblings with the
    node of the element at the end; for one without, the siblings as they
    were.  The parse goes on with the next element. *)
Lemma parse_element_appends (options : lyd_options) (x : lyxml_elem)
    (before after : list lyxml_elem) (parent : option schema_ptr)
    (siblings : list lyd_node) (unres : unres_data) (p : parsed) :
  LYD_OPT_FILTER options = false ->
  not_anyxml parent x ->
  parse_element x before after parent siblings options unres
  = EXIT_SUCCESS p ->
  p_next p = true
  /\ if known parent x
     then exists d,
            p_siblings p = siblings ++ [d] /\ p_result p = true
            /\ made_for parent options x d
     else p_siblings p = siblings /\ p_result p = false.
Proof.
  intros Hf. destruct x as [name ns attr content children].
  cbn [xml_parse_node known not_anyxml made_for]. intros Hany.
  destruct ns as [ns|]; [|discriminate].
  destruct (find_schema models parent name ns) as [s|] eqn:Hfs.
  - assert (Hkind : LYS_NODE_eqb (nodetype (sch_node s)) LYS_ANYXML = false).
    { specialize (Hany ns s eq_refl Hfs).
      destruct (nodetype (sch_node s)); try reflexivity. contradiction. }
    rewrite Hkind. cbn [andb].
    destruct (element_checks LY_NSYANG lys_is_disabled options s attr)
      as [hc|e| |]; cbn [bind]; try discriminate.
    destruct (leaf_value resolve_len_ran_interval regex_t regcomp regexec
                transform_data_xml2json resolve_identref_json fuel s
                content options unres) as [[leaf unres1]|e| |] eqn:Hleaf;
      cbn [bind]; try discriminate.
    match goal with
    | |- bind ?m _ = _ -> _ =>
        destruct m as [[kids unres2]|e| |]; cbn [bind]; try discriminate
    end.
    match goal with
    | |- bind (validate_node ?f1 ?f2 ?f3 ?f4 ?f5 ?o ?h ?sb ?res) _ = _ -> _ =>
        destruct (validate_node f1 f2 f3 f4 f5 o h sb res) as [v|err| |]
          eqn:Hv; cbn [bind]; try discriminate;
        apply (validate_keeps_siblings o h sb res v Hf) in Hv; subst v;
        intros [= <-]; cbn [p_next p_siblings p_result cur_next stay];
        split; [reflexivity|]; exists res
    end.
    split; [reflexivity|]. split; [reflexivity|].
    exists ns. cbn [schema d_attr d_leaf cur_attr stay xml_attr].
    split; [reflexivity|]. split; [exact Hfs|]. split; [reflexivity|].
    exists unres, unres1. exact Hleaf.
  - destruct (LYD_OPT_STRICT options || ly_ctx_get_module_by_ns ns);
      [discriminate|].
    intros [= <-]. cbn. auto.
Qed.

(** X19.  Outside filter mode, for elements none of which is an anyxml, a
    successful parse leaves the siblings it was given as they are and, after
    them, one node for each element that has a schema node, in the order of
    the elements: each node has the schema node, the attributes and the
    decoded content of its element.  The call returns these nodes when its
    own element has a schema node, and NULL when it has none. *)
Theorem parsing_appends_in_document_order (options : lyd_options)
    (parent : option schema_ptr) :
  LYD_OPT_FILTER options = false ->
  forall (xml before : list lyxml_elem) (siblings : list lyd_node)
         (unres : unres_data) (r : parse_result),
    Forall (not_anyxml parent) xml ->
    parse before xml parent siblings options unres = EXIT_SUCCESS r ->
    exists added,
      ring r = siblings ++ added
      /\ Forall2 (made_for parent options) (filter (known parent) xml) added
      /\ returned r
         = match xml with
           | x :: _ => if known parent x then Some added else None
           | [] => None
           end.
Proof.
  intros Hf. induction xml as [|x next IH];
    intros before siblings unres r Hany; cbn [xml_parse_data].
  - intros [= <-]. exists []. cbn [ring returned filter].
    rewrite app_nil_r. repeat split. constructor.
  - apply Forall_cons_iff in Hany as [Hx Hany].
    destruct (parse_element x before next parent siblings options unres)
      as [p|e| |] eqn:Hp; cbn [bind]; try discriminate.
    destruct (parse_element_appends options x before next parent siblings
                unres p Hf Hx Hp) as [Hnext Hmade].
    rewrite Hnext.
    destruct (parse (p_before p) next parent (p_siblings p) options
                (p_unres p)) as [r'|e| |] eqn:Hrest; cbn [bind];
      try discriminate.
    destruct (IH _ _ _ _ Hany Hrest) as (added & Hring & Hall & _).
    intros [= <-]. cbn [ring returned filter].
    destruct (known parent x).
    + destruct Hmade as (d & Hsib & Hres & Hd).
      exists (d :: added). rewrite Hring, Hsib, Hres, <- app_assoc.
      cbn [app]. split; [reflexivity|]. split.
      * constructor; assumption.
      * rewrite length_app. cbn [List.length].
        replace (List.length siblings + 1 - 1)%nat
          with (List.length siblings + 0)%nat by lia.
        rewrite skipn_app, Nat.add_0_r, skipn_all, Nat.sub_diag.
        reflexivity.
    + destruct Hmade as [Hsib Hres].
      exists added. rewrite Hring, Hsib, Hres. auto.
Qed.

End NodeFacts.

(** The elements [<Q xmlns="urn:y"/>] and [<P xmlns="urn:x"/>] at the
    root, in a context whose only module has the namespace "urn:x": the
    node of [P] is made, and NULL is returned. *)
Lemma element_without_schema_node_witness :
  xml_parse_data no_restriction unit no_regcomp no_regexec no_transform
    no_identref NSYANG models_P (String.eqb "urn:x") (fun _ => false)
    (fun _ => None) (fun _ => None) (fun _ _ _ => false) (fun _ _ => false)
    (fun d _ => d) 2 []
    [Lyxml_elem "Q" (Some "urn:y") [] None []; element_P []] None []
    no_options []
  = EXIT_SUCCESS
      {| returned := None; ring := [data_P []]; unres_queue := [] |}.
Proof.
  rewrite (element_without_schema_node no_restriction unit no_regcomp
             no_regexec no_transform no_identref NSYANG models_P
             (String.eqb "urn:x") (fun _ => false) (fun _ => None)
             (fun _ => None) (fun _ _ _ => false) (fun _ _ => false)
             (fun d _ => d) 2 "Q" "urn:y" [] None [] [] [element_P []] None
             [] no_options [] eq_refl).
  reflexivity.
Defined.

(** A second [la] beside the first. *)
Lemma second_instance_is_rejected_witness :
  validate_node (fun _ => None) (fun _ => None) (fun _ _ _ => false)
    (fun _ _ => false) (fun d _ => d) no_options false [data_la]
    (data_leaf leaf_la [case_a; choice_c; container_P] (string_type 101) "2")
  = EXIT_FAILURE (Some LYE_TOOMANY).
Proof.
  apply (proj1 (second_instance_is_rejected no_restriction unit no_regcomp
                  no_regexec no_transform no_identref NSYANG models_P
                  (fun _ => true) (fun _ => false) (fun _ => None)
                  (fun _ => None) (fun _ _ _ => false) (fun _ _ => false)
                  (fun d _ => d) 2 no_options (schema data_la) [data_la]
                  data_la eq_refl (or_intror (or_introl eq_refl))
                  (or_introl eq_refl) eq_refl)).
  - reflexivity.
  - reflexivity.
Defined.

(** Two entries of the leaf-list [ll], compared by their values. *)
Definition data_ll (content : string) : lyd_node :=
  data_leaf leaflist_ll [] (string_type 3) content.

Definition same_value (a b : lyd_node) : bool :=
  match d_leaf a, d_leaf b with
  | Some x, Some y =>
      match value_str x, value_str y with
      | Some s, Some t => String.eqb s t
      | _, _ => false
      end
  | _, _ => false
  end.

Lemma duplicate_leaflist_entry_witness :
  validate_node (fun _ => None) (fun _ => None) (fun a b _ => same_value a b)
    (fun _ _ => false) (fun d _ => d) no_options false
    [data_ll "a"; data_ll "b"] (data_ll "a")
  = EXIT_FAILURE (Some LYE_DUPLEAFLIST).
Proof.
  apply (duplicate_leaflist_entry (fun _ => None) (fun _ => None)
           (fun a b _ => same_value a b) (fun _ _ => false) (fun d _ => d)
           no_options [data_ll "a"; data_ll "b"] (data_ll "a") (data_ll "a")).
  - reflexivity.
  - left; reflexivity.
  - reflexivity.
  - reflexivity.
Defined.

(** [list L { key k; leaf k { type string; } }] at the top of a module, and
    entries compared by the value of their first child. *)
Definition leaf_k : lys_node :=
  Lys_node 31 "k" "urn:x" LYS_LEAF no_flags (Some (string_type 104)) [].
Definition list_L : lys_node :=
  Lys_node 32 "L" "urn:x" LYS_LIST no_flags None [leaf_k].

Definition data_L (key : string) : lyd_node :=
  Lyd_node {| sch_node := list_L; sch_parents := [] |}
    [data_leaf leaf_k [list_L] (string_type 104) key] None [] None.

Definition same_key (a b : lyd_node) : bool :=
  match d_child a, d_child b with
  | x :: _, y :: _ => same_value x y
  | _, _ => false
  end.

Lemma duplicate_list_entry_witness :
  validate_node (fun _ => None) (fun _ => None) (fun a b _ => same_key a b)
    (fun _ _ => false) (fun d _ => d) no_options true
    [data_L "1"; data_L "2"] (data_L "1")
  = EXIT_FAILURE (Some LYE_DUPLIST).
Proof.
  apply (proj1 (duplicate_list_entry (fun _ => None) (fun _ => None)
                  (fun a b _ => same_key a b) (fun _ _ => false)
                  (fun d _ => d) no_options [] [data_L "2"] (data_L "1")
                  (data_L "1") true eq_refl eq_refl));
    reflexivity.
Defined.

(** The elements [<la>1</la>], [<Q xmlns="urn:y"/>] and [<lz>2</lz>]
    below [P]. *)
Lemma parsing_appends_in_document_order_witness :
  exists added,
    [data_la; data_lz] = [] ++ added
    /\ Forall2
         (made_for no_restriction unit no_regcomp no_regexec no_transform
            no_identref models_P 2
            (Some {| sch_node := container_P; sch_parents := [] |})
            no_options)
         [leaf_element "la" "1"; leaf_element "lz" "2"] added
    /\ Some [data_la; data_lz] = Some added.
Proof.
  apply (parsing_appends_in_document_order no_restriction unit no_regcomp
           no_regexec no_transform no_identref NSYANG models_P
           (fun _ => false) (fun _ => false) (fun _ => None) (fun _ => None)
           (fun _ _ _ => false) (fun _ _ => false) (fun d _ => d) 2
           no_options
           (Some {| sch_node := container_P; sch_parents := [] |}) eq_refl
           [leaf_element "la" "1"; Lyxml_elem "Q" (Some "urn:y") [] None [];
            leaf_element "lz" "2"] [] [] []
           {| returned := Some [data_la; data_lz];
              ring := [data_la; data_lz]; unres_queue := [] |}).
  - repeat constructor; cbn; intros ns' s [= <-]; vm_compute;
      intros [= <-]; discriminate.
  - vm_compute. reflexivity.
Defined.

End DataTree.

(* ===================================================================== *)
(** * parser_yang.c: revisions and imports *)
(* ===================================================================== *)

Module ParserYang.
Import Libc.

(** ** Revisions *)

(** [struct lys_revision]; [date] is the array [char date[LY_REV_SIZE]]
    read as a C string. *)
Record lys_revision : Type :=
  { date : string; dsc : option string; ref : option string }.

(** A string in memory: the address a [char *] holds and the text there. *)
Record c_string : Type := { str_addr : positive; str_text : string }.

(** [struct lys_import]: prefix, revision date (empty when none is given)
    and the name of the imported module, [imp->module->name], once
    [imp->module] is set. *)
Record lys_import : Type :=
  { imp_prefix : string; imp_rev : string; imp_module : option string }.

(** The fields of [struct lys_module] that the two functions touch: the
    arrays [rev] and [imp], as far as they have been written, and their
    counters [rev_size] and [imp_size].  The counters are [uint8_t]
    (tree_schema.h is not under src/; [yang_elem_of_array] takes the
    counter of either array as a [uint8_t *]): [++] on 255 gives 0. *)
Record lys_module : Type :=
  { name : string;
    rev : list lys_revision; rev_size : Z;
    imp : list lys_import; imp_size : Z }.

Definition set_imp (module : lys_module) (i : list lys_import) (size : Z) :=
  {| name := name module; rev := rev module; rev_size := rev_size module;
     imp := i; imp_size := size |}.

(** [++] on a [uint8_t] counter. *)
Definition uint8_succ (size : Z) : Z := (size + 1) mod 256.

(** [array[i] = x], for [i] inside the array or at its end, where the
    array is taken to have room. *)
Definition store_at {A : Type} (l : list A) (i : nat) (x : A) : list A :=
  firstn i l ++ x :: skipn (S i) l.



Section Revision.

(** The size of the date array of a revision (tree_schema.h). *)
Variable LY_REV_SIZE : nat.




















End Revision.


(** A module that nothing has been read into. *)
Definition empty_module (name : string) : lys_module :=
  {| name := name; rev := []; rev_size := 0; imp := []; imp_size := 0 |}.





(** ** Imports *)

(** The context: [models.parsing], the NULL-terminated array of the names
    of the modules being parsed (NULL itself when empty), the names of the
    modules it holds, and the next address the allocator hands out. *)
Record ly_ctx : Type :=
  { parsing : list c_string; models : list string; heap_next : positive }.

Definition set_parsing (ctx : ly_ctx) (p : list c_string) : ly_ctx :=
  {| parsing := p; models := models ctx; heap_next := heap_next ctx |}.

(** What [yang_fill_import] logs when it fails; [Memory_allocation_failed]
    is [LOGMEM]. *)
Inductive import_diagnostic : Type :=
| Circular_import_dependency
| Memory_allocation_failed
| Importing_failed
| Importing_repeatedly.

Inductive import_result : Type :=
| Import_success
| Import_failure (d : import_diagnostic).

(** The loop [for (count = 0; parsing[count]; ++count)] with its test
    [value == parsing[count]], which compares the two pointers: the final
    [count], or [None] for [goto error]. *)
Fixpoint circular_check (parsing : list c_string) (value : c_string)
    (count : nat) : option nat :=
  match parsing with
  | [] => Some count
  | p :: rest =>
      if Pos.eqb (str_addr value) (str_addr p) then None
      else circular_check rest value (S count)
  end.

Section FillImport.

(** [ly_realloc] returns NULL, for the number of elements asked for (the
    block it was given is then gone). *)
Variable ly_realloc_fails : Z -> bool.

(** [ly_ctx_get_module] and [ly_ctx_load_module] of context.c: the name of
    the module found or loaded, if any.  Loading runs the parser again, on
    the same context; [None] when the call does not return. *)
Variable ly_ctx_get_module : ly_ctx -> string -> option string -> option string.
Variable ly_ctx_load_module :
  ly_ctx -> string -> option string -> option (ly_ctx * option string).

(** The loop "check duplicities in imported modules" over the entries
    before the last of the [imp_size] in use; the name of an entry whose
    module is not set is read through a NULL pointer, which the model
    passes over. *)
Definition duplicate_import (array : list lys_import) (imp_size : Z)
    : bool :=
  existsb
    (fun i =>
       match imp_module i,
             imp_module
               (nth (Z.to_nat (imp_size - 1)) array
                  {| imp_prefix := EmptyString; imp_rev := EmptyString;
                     imp_module := None |}) with
       | Some m', Some m =>
           match strcmp m' m with Eq => true | _ => false end
       | _, _ => false
       end)
    (firstn (Z.to_nat (imp_size - 1)) array).

(** [yang_fill_import(module, imp, value, line)]; [new_imp] is what the
    entry [imp] holds, and [imp] is taken to be the entry
    [module->imp[module->imp_size]].  [None] when the call does not
    return. *)
Definition yang_fill_import (ctx : ly_ctx) (module : lys_module)
    (new_imp : lys_import) (value : c_string)
    : option (ly_ctx * lys_module * import_result) :=
  match circular_check (parsing ctx) value O with
  | None => Some (ctx, module, Import_failure Circular_import_dependency)
  | Some count =>
      let count := S count in
      if ly_realloc_fails (Z.of_nat count + 1)
      then Some (set_parsing ctx [], module,
                 Import_failure Memory_allocation_failed)
      else
        let ctx :=
          set_parsing ctx (firstn (count - 1) (parsing ctx) ++ [value]) in
        let revision :=
          match imp_rev new_imp with EmptyString => None | r => Some r end in
        let loaded :=
          match ly_ctx_get_module ctx (str_text value) revision with
          | Some m => Some (ctx, Some m)
          | None => ly_ctx_load_module ctx (str_text value) revision
          end in
        match loaded with
        | None => None
        | Some (ctx, loaded_module) =>
            let count := (count - 1)%nat in
            let ctx := set_parsing ctx (firstn count (parsing ctx)) in
            match loaded_module with
            | None => Some (ctx, module, Import_failure Importing_failed)
            | Some m =>
                let array :=
                  store_at (imp module) (Z.to_nat (imp_size module))
                    {| imp_prefix := imp_prefix new_imp;
                       imp_rev := imp_rev new_imp;
                       imp_module := Some m |} in
                let size := uint8_succ (imp_size module) in
                let module' := set_imp module array size in
                if duplicate_import array size
                then Some (ctx, module',
                           Import_failure Importing_repeatedly)
                else Some (ctx, module', Import_success)
            end
        end
  end.

End FillImport.

(** Modelled from the spec: [ly_ctx_get_module] and [ly_ctx_load_module]
    (context.c) and the part of the grammar that reads the import
    statements (parser_yang_bis.y) are not under src/.  The spec: "import
    parses prefix/revision/name, then loads the referenced module through
    the context (which reenters the parser)".  A module in the search path
    is its name and the names it imports; the lexer hands each name over in
    a buffer of its own, which [yang_fill_import] frees at its end; a
    module is in the context once it is parsed. *)
Definition search_path : Type := list (string * list string).

Definition ly_ctx_get_module_model (ctx : ly_ctx) (name : string)
    (revision : option string) : option string :=
  if existsb (String.eqb name) (models ctx) then Some name else None.

Definition new_string (ctx : ly_ctx) (text : string) : ly_ctx * c_string :=
  ({| parsing := parsing ctx; models := models ctx;
      heap_next := Pos.succ (heap_next ctx) |},
   {| str_addr := heap_next ctx; str_text := text |}).

Fixpoint read_imports
    (load : ly_ctx -> string -> option string -> option (ly_ctx * option string))
    (ctx : ly_ctx) (module : lys_module) (imports : list string)
    : option (ly_ctx * option lys_module) :=
  match imports with
  | [] => Some (ctx, Some module)
  | i :: rest =>
      let '(ctx, value) := new_string ctx i in
      match yang_fill_import (fun _ => false) ly_ctx_get_module_model load
              ctx module
              {| imp_prefix := i; imp_rev := EmptyString;
                 imp_module := None |} value with
      | None => None
      | Some (ctx, module, Import_success) =>
          read_imports load ctx module rest
      | Some (ctx, _, Import_failure _) => Some (ctx, None)
      end
  end.

Fixpoint ly_ctx_load_module_model (fuel : nat) (path : search_path)
    (ctx : ly_ctx) (name : string) (revision : option string)
    : option (ly_ctx * option string) :=
  match fuel with
  | O => None
  | S fuel' =>
      match find (fun m => String.eqb (fst m) name) path with
      | None => Some (ctx, None)
      | Some (_, imports) =>
          match read_imports (ly_ctx_load_module_model fuel' path) ctx
                  (empty_module name) imports with
          | None => None
          | Some (ctx, None) => Some (ctx, None)
          | Some (ctx, Some _) =>
              Some ({| parsing := parsing ctx; models := name :: models ctx;
                       heap_next := heap_next ctx |}, Some name)
          end
      end
  end.

(** Module [A] imports [B] and [B] imports [A]. *)
Definition A_imports_B_imports_A : search_path :=
  [("A", ["B"]); ("B", ["A"])].

Definition empty_ctx : ly_ctx :=
  {| parsing := []; models := []; heap_next := 1 |}.

(** The check fires exactly when the pointer itself is on the stack. *)
Lemma circular_check_addresses (parsing : list c_string) (value : c_string)
    (count : nat) :
  circular_check parsing value count = None
  <-> Exists (fun p => str_addr p = str_addr value) parsing.
Proof.
  revert count. induction parsing as [|p rest IH]; intros count; simpl.
  - split; [discriminate|intros H; inversion H].
  - destruct (Pos.eqb_spec (str_addr value) (str_addr p)) as [E|E].
    + split; [intros _; left; auto|reflexivity].
    + rewrite IH. split; [intros H; right; exact H|].
      intros H. inversion H; subst; [congruence|assumption].
Qed.

Lemma circular_check_passes (parsing : list c_string) (value : c_string)
    (count : nat) :
  Forall (fun p => (str_addr p < str_addr value)%positive) parsing ->
  circular_check parsing value count
  = Some (count + List.length parsing)%nat.
Proof.
  revert count. induction parsing as [|p rest IH]; intros count H; simpl.
  - f_equal. lia.
  - inversion H; subst.
    destruct (Pos.eqb_spec (str_addr value) (str_addr p)) as [E|E]; [lia|].
    rewrite IH by assumption. f_equal. lia.
Qed.

(** Loading [A] or [B] from a context that holds neither does not return:
    every import allocates its name afresh, passes the check and loads the
    other module. *)
Lemma mutual_import_recurses (fuel : nat) :
  forall (ctx : ly_ctx) (name : string) (revision : option string),
    name = "A" \/ name = "B" ->
    models ctx = [] ->
    Forall (fun p => (str_addr p < heap_next ctx)%positive) (parsing ctx) ->
    ly_ctx_load_module_model fuel A_imports_B_imports_A ctx name revision
    = None.
Proof.
  induction fuel as [|fuel IH]; intros ctx name revision Hn Hm Hp.
  - reflexivity.
  - assert (Hstep :
      forall other, other = "A" \/ other = "B" ->
        read_imports
          (ly_ctx_load_module_model fuel A_imports_B_imports_A) ctx
          (empty_module name) [other] = None).
    { intros other Ho. cbn [read_imports new_string].
      unfold yang_fill_import.
      cbn [parsing str_addr str_text imp_rev].
      rewrite (circular_check_passes (parsing ctx)) by exact Hp.
      cbn [Nat.add]. rewrite Nat.sub_succ, Nat.sub_0_r.
      rewrite firstn_all.
      set (ctx1 := set_parsing _ _).
      assert (Hget : ly_ctx_get_module_model ctx1 other None = None).
      { unfold ly_ctx_get_module_model. cbn [models ctx1 set_parsing].
        rewrite Hm. reflexivity. }
      rewrite Hget. rewrite IH; [reflexivity|exact Ho| |].
      - cbn [models ctx1 set_parsing]. exact Hm.
      - cbn [parsing heap_next ctx1 set_parsing].
        apply Forall_app. split.
        + eapply Forall_impl; [|exact Hp]. cbv beta. intros; lia.
        + constructor; [|constructor]. cbn [str_addr]. lia. }
    destruct Hn as [->| ->]; cbn [ly_ctx_load_module_model find
      A_imports_B_imports_A fst String.eqb Ascii.eqb Bool.eqb];
      rewrite Hstep; auto.
Qed.

(** C7 (the code departs from the claim).  The claim: an import of a
    module whose name is on the context's parsing stack fails with a
    circular-import error; the names are compared.  The code compares the
    pointer [value] with the pointers on the stack.  [value] is the buffer
    the parser allocated for this very statement (the function frees it at
    its end), so it equals no entry of the stack, whatever the names: with
    the names "B" and "A" on the stack, an import of "B" passes the check
    and the module is loaded again; loading [A], which imports [B], which
    imports [A], recurses without end instead of failing. *)
Theorem circular_import_check_compares_pointers :
  (forall (parsing : list c_string) (value : c_string),
     circular_check parsing value O = None
     <-> Exists (fun p => str_addr p = str_addr value) parsing)
  /\ yang_fill_import (fun _ => false) (fun _ _ _ => None)
       (fun ctx _ _ => Some (ctx, None))
       {| parsing := [ {| str_addr := 1; str_text := "B" |};
                       {| str_addr := 2; str_text := "A" |} ];
          models := []; heap_next := 4 |}
       (empty_module "A")
       {| imp_prefix := "b"; imp_rev := EmptyString; imp_module := None |}
       {| str_addr := 3; str_text := "B" |}
     = Some ({| parsing := [ {| str_addr := 1; str_text := "B" |};
                             {| str_addr := 2; str_text := "A" |} ];
                models := []; heap_next := 4 |},
             empty_module "A",
             Import_failure Importing_failed)
  /\ (forall fuel : nat,
        ly_ctx_load_module_model fuel A_imports_B_imports_A empty_ctx "A"
          None
        = None).
Proof.
  split; [intros; apply circular_check_addresses|].
  split; [reflexivity|].
  intros fuel. apply mutual_import_recurses.
  - left; reflexivity.
  - reflexivity.
  - constructor.
Qed.

(** * Further properties of the schema parser *)

(** ** The statements of a schema node *)

(** The keywords the functions of this file switch on; [OTHER_KEYWORD]
    stands for the rest of the tokens of the grammar. *)
Inductive keyword : Type :=
| MODULE_KEYWORD | NAMESPACE_KEYWORD | ORGANIZATION_KEYWORD | CONTACT_KEYWORD
| IMPORT_KEYWORD | REVISION_KEYWORD | FEATURE_KEYWORD | IDENTITY_KEYWORD
| MUST_KEYWORD | WHEN_KEYWORD | CONTAINER_KEYWORD | ANYXML_KEYWORD
| CHOICE_KEYWORD | CASE_KEYWORD | GROUPING_KEYWORD | LEAF_KEYWORD
| LEAF_LIST_KEYWORD | LIST_KEYWORD | LENGTH_KEYWORD | ERROR_APP_TAG_KEYWORD
| OTHER_KEYWORD.

(** [yang_check_flags(flags, mask, what, where, value, line)]: the new
    [*flags], a [uint8_t]. *)
Definition yang_check_flags (flags mask value : Z) : outcome Z :=
  if negb (Z.land flags mask =? 0) then EXIT_FAILURE (Some LYE_TOOMANY)
  else EXIT_SUCCESS (Z.lor flags value mod 256).

Section Flags.

(** The masks of tree_schema.h. *)
Variable LYS_STATUS_MASK LYS_CONFIG_MASK LYS_MAND_MASK : Z.

(** [yang_read_status], [yang_read_config] and [yang_read_mandatory] on
    the flags of the node; for a keyword outside the [switch] the function
    returns a variable it never set. *)
Definition yang_read_status (flags value : Z) (type : keyword) : outcome Z :=
  match type with
  | FEATURE_KEYWORD | IDENTITY_KEYWORD | CONTAINER_KEYWORD | ANYXML_KEYWORD
  | CHOICE_KEYWORD | CASE_KEYWORD | GROUPING_KEYWORD | LEAF_KEYWORD
  | LEAF_LIST_KEYWORD | LIST_KEYWORD =>
      yang_check_flags flags LYS_STATUS_MASK value
  | _ => UNDEFINED
  end.

Definition yang_read_config (flags value : Z) (type : keyword) : outcome Z :=
  match type with
  | CONTAINER_KEYWORD | ANYXML_KEYWORD | CHOICE_KEYWORD | LEAF_KEYWORD
  | LEAF_LIST_KEYWORD | LIST_KEYWORD =>
      yang_check_flags flags LYS_CONFIG_MASK value
  | _ => UNDEFINED
  end.

Definition yang_read_mandatory (flags value : Z) (type : keyword)
    : outcome Z :=
  match type with
  | ANYXML_KEYWORD | CHOICE_KEYWORD | LEAF_KEYWORD =>
      yang_check_flags flags LYS_MAND_MASK value
  | _ => UNDEFINED
  end.

End Flags.

Lemma land_mod_256 (a mask : Z) :
  0 <= mask < 256 -> Z.land (a mod 256) mask = Z.land a mask.
Proof.
  intros Hm. change 256 with (2 ^ 8). rewrite <- Z.land_ones by lia.
  rewrite <- Z.land_assoc. f_equal.
  rewrite Z.land_comm, Z.land_ones by lia. apply Z.mod_small. exact Hm.
Qed.

Lemma yang_check_flags_once (flags mask value value' : Z) (flags' : Z) :
  0 <= mask < 256 ->
  Z.land value mask <> 0 ->
  yang_check_flags flags mask value = EXIT_SUCCESS flags' ->
  yang_check_flags flags' mask value' = EXIT_FAILURE (Some LYE_TOOMANY).
Proof.
  intros Hm Hv. unfold yang_check_flags.
  destruct (Z.eqb_spec (Z.land flags mask) 0) as [E|]; [|discriminate].
  cbn [negb]. intros [= <-].
  rewrite land_mod_256 by exact Hm.
  rewrite Z.land_lor_distr_l, E, Z.lor_0_l.
  destruct (Z.eqb_spec (Z.land value mask) 0); [contradiction|reflexivity].
Qed.

(** The three statements kept in the flags of a node. *)
Inductive flag_statement : Type := Status | Config | Mandatory.

Section FlagFacts.

Variable LYS_STATUS_MASK LYS_CONFIG_MASK LYS_MAND_MASK : Z.

Definition flag_mask (st : flag_statement) : Z :=
  match st with
  | Status => LYS_STATUS_MASK
  | Config => LYS_CONFIG_MASK
  | Mandatory => LYS_MAND_MASK
  end.

Definition read_flag (st : flag_statement) : Z -> Z -> keyword -> outcome Z :=
  match st with
  | Status => yang_read_status LYS_STATUS_MASK
  | Config => yang_read_config LYS_CONFIG_MASK
  | Mandatory => yang_read_mandatory LYS_MAND_MASK
  end.

(** X20.  A status, config or mandatory statement is taken once: when the
    value stored has a bit of the mask of the statement, the same statement
    read again on the node is refused with TOOMANY, whatever its value. *)
Theorem flag_statement_is_accepted_once (st : flag_statement)
    (flags value value' : Z) (type : keyword) (flags' : Z) :
  0 <= flag_mask st < 256 ->
  Z.land value (flag_mask st) <> 0 ->
  read_flag st flags value type = EXIT_SUCCESS flags' ->
  read_flag st flags' value' type = EXIT_FAILURE (Some LYE_TOOMANY).
Proof.
  intros Hm Hv.
  destruct st; cbn [read_flag flag_mask] in *;
    unfold yang_read_status, yang_read_config, yang_read_mandatory;
    destruct type; try discriminate;
    apply yang_check_flags_once; assumption.
Qed.

End FlagFacts.

(** With the status mask 0x30 and the value 0x10 of "deprecated". *)
Lemma flag_statement_is_accepted_once_witness :
  yang_read_status 48 16 32 LEAF_KEYWORD = EXIT_FAILURE (Some LYE_TOOMANY).
Proof.
  apply (flag_statement_is_accepted_once 48 3 64 Status 0 16 32 LEAF_KEYWORD
           16).
  - cbn. lia.
  - discriminate.
  - reflexivity.
Defined.

(** ** The arrays of a module *)

Section Arrays.

(** The step by which the arrays grow (a macro of the headers). *)
Variable LY_ARRAY_SIZE : Z.

(** The type of the elements and the element [memset] leaves. *)
Variable A : Type.
Variable zeroed : A.

(** Whether [ly_realloc] fails, for the number of elements asked for. *)
Variable ly_realloc_fails : Z -> bool.

(** The block [realloc] returns for [n] elements: the old elements as far
    as they fit, then elements whose content is indeterminate ([None]). *)
Definition resized (ptr : list (option A)) (n : Z) : list (option A) :=
  firstn (Z.to_nat n) ptr ++ repeat None (Z.to_nat n - List.length ptr).

(** [yang_elem_of_array(ptr, act_size, type, sizeof_struct)]: the array,
    the new [*act_size] (a [uint8_t]) and the index of the element
    returned.  For a keyword outside the [switch], [retval] is used without
    having been set. *)
Definition yang_elem_of_array (ptr : list (option A)) (act_size : Z)
    (type : keyword) : outcome (list (option A) * Z * nat) :=
  if LY_ARRAY_SIZE =? 0 then UNDEFINED
  else
    let grow := Z.rem act_size LY_ARRAY_SIZE =? 0 in
    if grow && ly_realloc_fails (act_size + LY_ARRAY_SIZE)
    then EXIT_FAILURE None
    else
      let ptr :=
        if grow then resized ptr (act_size + LY_ARRAY_SIZE) else ptr in
      match type with
      | IMPORT_KEYWORD | REVISION_KEYWORD =>
          let retval := Z.to_nat act_size in
          if (retval <? List.length ptr)%nat
          then EXIT_SUCCESS
                 (ParserXml.set_nth ptr retval (Some zeroed),
                  (act_size + 1) mod 256, retval)
          else UNDEFINED
      | _ => UNDEFINED
      end.

(** [memset(node + from, 0, count * sizeof)]. *)
Fixpoint zero_fill (node : list (option A)) (from count : nat)
    : list (option A) :=
  match count with
  | O => node
  | S n => zero_fill (ParserXml.set_nth node from (Some zeroed)) (S from) n
  end.

Definition INT_MAX : Z := 2147483647.

(** [yang_add_elem(node, size)].  The test is [!*size % LY_ARRAY_SIZE],
    that is [(!*size) % LY_ARRAY_SIZE]. *)
Definition yang_add_elem (node : list (option A)) (size : Z)
    : outcome (list (option A) * Z) :=
  if LY_ARRAY_SIZE =? 0 then UNDEFINED
  else
    let grow :=
      negb (Z.rem (if size =? 0 then 1 else 0) LY_ARRAY_SIZE =? 0) in
    if grow && ly_realloc_fails (size + LY_ARRAY_SIZE)
    then EXIT_FAILURE None
    else
      let node :=
        if grow
        then zero_fill (resized node (size + LY_ARRAY_SIZE))
               (Z.to_nat size) (Z.to_nat LY_ARRAY_SIZE)
        else node in
      if size =? INT_MAX then UNDEFINED else EXIT_SUCCESS (node, size + 1).

(** [count] calls of [yang_add_elem]. *)
Fixpoint add_elems (count : nat) (node : list (option A)) (size : Z)
    : outcome (list (option A) * Z) :=
  match count with
  | O => EXIT_SUCCESS (node, size)
  | S n =>
      match yang_add_elem node size with
      | EXIT_SUCCESS (node', size') => add_elems n node' size'
      | r => r
      end
  end.

End Arrays.

Arguments resized {A} ptr n.
Arguments yang_elem_of_array LY_ARRAY_SIZE {A} zeroed ly_realloc_fails
  ptr act_size type.
Arguments zero_fill {A} zeroed node from count.
Arguments yang_add_elem LY_ARRAY_SIZE {A} zeroed ly_realloc_fails node size.
Arguments add_elems LY_ARRAY_SIZE {A} zeroed ly_realloc_fails count node size.

(** The size of an array whose element count is [act_size]: the count
    rounded up to a multiple of the step. *)
Definition well_sized {A : Type} (LY_ARRAY_SIZE : Z)
    (ptr : list (option A)) (act_size : Z) : Prop :=
  Z.of_nat (List.length ptr) mod LY_ARRAY_SIZE = 0
  /\ act_size <= Z.of_nat (List.length ptr) < act_size + LY_ARRAY_SIZE.

Lemma resized_length {A : Type} (ptr : list (option A)) (n : Z) :
  0 <= n -> Z.of_nat (List.length (resized ptr n)) = n.
Proof.
  intros Hn. unfold resized. rewrite length_app, length_firstn, repeat_length.
  lia.
Qed.

Lemma resized_keeps {A : Type} (ptr : list (option A)) (n : Z) (i : nat) :
  (i < List.length ptr)%nat -> Z.of_nat (List.length ptr) <= n ->
  nth_error (resized ptr n) i = nth_error ptr i.
Proof.
  intros Hi Hn. unfold resized. rewrite firstn_all2 by lia.
  apply nth_error_app1. exact Hi.
Qed.

(** X21.  [yang_elem_of_array] keeps the array as large as the element count
    rounded up to a multiple of the step: the element it hands out lies inside
    the array and is zeroed, the elements handed out before are kept, and the
    count goes up by one. *)
Theorem yang_elem_of_array_stays_in_bounds {A : Type} (LY_ARRAY_SIZE : Z)
    (zeroed : A) (ly_realloc_fails : Z -> bool) (ptr : list (option A))
    (act_size : Z) (type : keyword) :
  0 < LY_ARRAY_SIZE ->
  0 <= act_size < 255 ->
  well_sized LY_ARRAY_SIZE ptr act_size ->
  type = IMPORT_KEYWORD \/ type = REVISION_KEYWORD ->
  ly_realloc_fails (act_size + LY_ARRAY_SIZE) = false ->
  exists ptr',
    yang_elem_of_array LY_ARRAY_SIZE zeroed ly_realloc_fails ptr act_size
      type
    = EXIT_SUCCESS (ptr', act_size + 1, Z.to_nat act_size)
    /\ nth_error ptr' (Z.to_nat act_size) = Some (Some zeroed)
    /\ (forall i, (i < Z.to_nat act_size)%nat ->
                  nth_error ptr' i = nth_error ptr i)
    /\ well_sized LY_ARRAY_SIZE ptr' (act_size + 1).
Proof.
  intros HL Ha (Hmod & Hlen) Htype Halloc.
  unfold yang_elem_of_array.
  destruct (Z.eqb_spec LY_ARRAY_SIZE 0); [lia|].
  rewrite Halloc, andb_false_r.
  rewrite Z.rem_mod_nonneg by lia.
  set (grow := act_size mod LY_ARRAY_SIZE =? 0).
  set (ptr1 := if grow then resized ptr (act_size + LY_ARRAY_SIZE) else ptr).
  assert (Hsize : well_sized LY_ARRAY_SIZE ptr1 (act_size + 1)
                  /\ forall i, (i < Z.to_nat act_size)%nat ->
                               nth_error ptr1 i = nth_error ptr i).
  { unfold ptr1, grow.
    destruct (Z.eqb_spec (act_size mod LY_ARRAY_SIZE) 0) as [E|E].
    - assert (Heq : Z.of_nat (List.length ptr) = act_size).
      { apply Z.mod_divide in Hmod; [|lia].
        apply Z.mod_divide in E; [|lia].
        destruct Hmod as [q Hq], E as [q' Hq'].
        assert (Hk : 0 <= (q - q') * LY_ARRAY_SIZE < LY_ARRAY_SIZE) by lia.
        assert (q - q' = 0) by nia. nia. }
      split.
      + unfold well_sized. rewrite resized_length by lia. split; [|lia].
        rewrite <- Zplus_mod_idemp_l, E, Z.add_0_l. apply Z_mod_same_full.
      + intros i Hi. apply resized_keeps; lia.
    - split; [|reflexivity]. unfold well_sized. split; [exact Hmod|].
      assert (Z.of_nat (List.length ptr) <> act_size)
        by (intros Heq; rewrite Heq in Hmod; contradiction).
      lia. }
  destruct Hsize as ((Hmod1 & Hlen1) & Hkeep).
  assert (Hin : (Z.to_nat act_size < List.length ptr1)%nat) by lia.
  exists (ParserXml.set_nth ptr1 (Z.to_nat act_size) (Some zeroed)).
  destruct (Nat.ltb_spec (Z.to_nat act_size) (List.length ptr1)); [|lia].
  rewrite (Z.mod_small (act_size + 1)) by lia.
  repeat split.
  - destruct Htype as [-> | ->]; reflexivity.
  - apply ParserXml.set_nth_same. exact Hin.
  - intros i Hi. rewrite ParserXml.set_nth_other by lia. apply Hkeep, Hi.
  - rewrite ParserXml.set_nth_length. exact Hmod1.
  - rewrite ParserXml.set_nth_length. lia.
  - rewrite ParserXml.set_nth_length. lia.
Qed.

Lemma yang_elem_of_array_stays_in_bounds_witness :
  exists ptr' : list (option lys_revision),
    yang_elem_of_array 4 {| date := ""; dsc := None; ref := None |}
      (fun _ => false) [] 0 REVISION_KEYWORD
    = EXIT_SUCCESS (ptr', 0 + 1, Z.to_nat 0)
    /\ nth_error ptr' (Z.to_nat 0)
       = Some (Some {| date := ""; dsc := None; ref := None |})
    /\ (forall i, (i < Z.to_nat 0)%nat -> nth_error ptr' i = nth_error [] i)
    /\ well_sized 4 ptr' (0 + 1).
Proof.
  apply (yang_elem_of_array_stays_in_bounds 4
           {| date := ""; dsc := None; ref := None |} (fun _ => false) [] 0
           REVISION_KEYWORD).
  - lia.
  - lia.
  - split; [reflexivity|cbn; lia].
  - right; reflexivity.
  - reflexivity.
Defined.

Lemma zero_fill_fresh {A : Type} (zeroed : A) (k : nat) :
  forall pre : list (option A),
    zero_fill zeroed (pre ++ repeat None k) (List.length pre) k
    = pre ++ repeat (Some zeroed) k.
Proof.
  induction k as [|k IH]; intros pre; [reflexivity|].
  cbn [zero_fill repeat].
  assert (Hset : ParserXml.set_nth (pre ++ None :: repeat None k)
                   (List.length pre) (Some zeroed)
                 = (pre ++ [Some zeroed]) ++ repeat None k).
  { clear IH. induction pre as [|a pre IHp]; cbn; [reflexivity|].
    f_equal. exact IHp. }
  rewrite Hset.
  replace (S (List.length pre)) with (List.length (pre ++ [Some zeroed]))
    by (rewrite length_app; cbn; lia).
  rewrite IH, <- app_assoc. reflexivity.
Qed.

(** X22.  Because of the precedence of [!] over [%], [yang_add_elem] allocates
    only when the array is empty: from an empty array, any number of calls
    leaves an array of one step's worth of elements, while the count goes up
    with every call and, after more calls than the step, denotes elements
    outside the array. *)
Theorem yang_add_elem_allocates_once {A : Type} (LY_ARRAY_SIZE : Z)
    (zeroed : A) (ly_realloc_fails : Z -> bool) (count : nat) :
  2 <= LY_ARRAY_SIZE ->
  (forall n, ly_realloc_fails n = false) ->
  (1 <= count)%nat -> Z.of_nat count <= INT_MAX ->
  add_elems LY_ARRAY_SIZE zeroed ly_realloc_fails count [] 0
  = EXIT_SUCCESS
      (repeat (Some zeroed) (Z.to_nat LY_ARRAY_SIZE), Z.of_nat count).
Proof.
  intros HL Halloc Hc Hmax.
  assert (Hrest : forall n (node : list (option A)) size,
             1 <= size -> size + Z.of_nat n <= INT_MAX ->
             add_elems LY_ARRAY_SIZE zeroed ly_realloc_fails n node size
             = EXIT_SUCCESS (node, size + Z.of_nat n)).
  { induction n as [|n IH]; intros node size Hs Hm.
    - cbn. rewrite Z.add_0_r. reflexivity.
    - cbn [add_elems]. unfold yang_add_elem.
      destruct (Z.eqb_spec LY_ARRAY_SIZE 0); [lia|].
      destruct (Z.eqb_spec size 0); [lia|].
      rewrite Z.rem_0_l by lia. cbn [Z.eqb negb andb].
      destruct (Z.eqb_spec size INT_MAX); [lia|].
      rewrite IH by lia. f_equal. f_equal. lia. }
  destruct count as [|n]; [lia|].
  cbn [add_elems]. unfold yang_add_elem.
  destruct (Z.eqb_spec LY_ARRAY_SIZE 0); [lia|].
  cbn [Z.eqb]. rewrite Z.rem_small by lia. cbn [Z.eqb negb].
  rewrite Halloc. cbn [andb]. unfold INT_MAX at 1. cbn [Z.eqb].
  rewrite Hrest by lia. f_equal. f_equal; [|lia].
  unfold resized. cbn [firstn List.length Z.to_nat Z.add].
  rewrite firstn_nil, Nat.sub_0_r.
  apply (zero_fill_fresh zeroed (Z.to_nat LY_ARRAY_SIZE) []).
Qed.

Lemma yang_add_elem_allocates_once_witness :
  add_elems 2 tt (fun _ => false) 5 [] 0
  = EXIT_SUCCESS ([Some tt; Some tt], 5).
Proof.
  apply (yang_add_elem_allocates_once 2 tt (fun _ => false) 5).
  - lia.
  - reflexivity.
  - lia.
  - unfold INT_MAX. lia.
Defined.

(** ** The keys of a list *)

(** [strpbrk(s, accept)]: the text from the first character of [s] that
    is in [accept] on, or NULL. *)
Fixpoint in_accept (c : ascii) (accept : string) : bool :=
  match accept with
  | EmptyString => false
  | String a r => Ascii.eqb c a || in_accept c r
  end.

Fixpoint strpbrk (s accept : string) : option string :=
  match s with
  | EmptyString => None
  | String c r => if in_accept c accept then Some s else strpbrk r accept
  end.

(** The characters that separate the names: space, tab and newline. *)
Definition separators : string :=
  String " " (String (ascii_of_nat 9) (String (ascii_of_nat 10) "")).

Lemma strpbrk_length (s accept v : string) :
  strpbrk s accept = Some v ->
  (String.length v <= String.length s)%nat
  /\ exists c r, v = String c r /\ in_accept c accept = true.
Proof.
  induction s as [|c r IH]; cbn; [discriminate|].
  destruct (in_accept c accept) eqn:E.
  - intros [= <-]. split; [cbn; lia|]. exists c, r. auto.
  - intros H. destruct (IH H) as [Hl Hv]. split; [lia|exact Hv].
Qed.

Lemma separator_is_space (c : ascii) :
  in_accept c separators = true -> isspace c = true.
Proof.
  unfold separators. cbn [in_accept]. rewrite !orb_true_iff.
  intros [H|[H|[H|H]]]; try discriminate;
    apply Ascii.eqb_eq in H; subst c; reflexivity.
Qed.

Lemma keys_loop_decreases (value v : string) :
  strpbrk value separators = Some v ->
  (String.length (skip_space v) < String.length value)%nat.
Proof.
  intros H. apply strpbrk_length in H as (Hl & c & r & -> & Hc).
  apply separator_is_space in Hc. cbn [skip_space]. rewrite Hc.
  pose proof (ParserXml.skip_space_length r). cbn [String.length] in Hl.
  lia.
Qed.

(** A value together with the equation that it is the value. *)
Definition inspect {A : Type} (a : A) : {b : A | a = b} := exist _ a eq_refl.

(** The loop [while ((value = strpbrk(value, " \t\n")))] of
    [yang_read_key]: the final [keys_size]. *)
Equations keys_loop (value : string) (keys_size : Z) : Z
    by wf (String.length value) lt :=
keys_loop value keys_size with inspect (strpbrk value separators) := {
  | exist _ None _ => keys_size;
  | exist _ (Some v) E => keys_loop (skip_space v) (keys_size + 1) }.
Next Obligation. apply keys_loop_decreases. exact E. Qed.

Section ReadKey.

(** [calloc] returns NULL; [unres_schema_add_str] returns -1. *)
Variable calloc_fails : Z -> bool.
Variable unres_schema_add_str_fails : string -> bool.

(** [yang_read_key(module, list, unres, line)]: [keys] is the text the
    parser left in [list->keys], [keys_size] the counter as it stood; the
    result is the new [keys_size].  The counter is taken not to overflow
    (the structure is declared in tree_schema.h). *)
Definition yang_read_key (keys : string) (keys_size : Z) : outcome Z :=
  let keys_size := keys_loop keys keys_size + 1 in
  if calloc_fails keys_size then EXIT_FAILURE None
  else if unres_schema_add_str_fails keys then EXIT_FAILURE None
  else EXIT_SUCCESS keys_size.

End ReadKey.

Lemma keys_loop_step (value : string) (keys_size : Z) :
  keys_loop value keys_size
  = match strpbrk value separators with
    | None => keys_size
    | Some v => keys_loop (skip_space v) (keys_size + 1)
    end.
Proof.
  funelim (keys_loop value keys_size);
    match goal with E : strpbrk _ _ = _ |- _ => rewrite E end; reflexivity.
Qed.

(** A separator between two names: white space that starts with a
    space, a tab or a newline. *)
Definition separator (sep : string) : Prop :=
  ParserXml.blank sep
  /\ match sep with
     | EmptyString => False
     | String c _ => in_accept c separators = true
     end.

(** A name: not empty, no white space. *)
Definition key_name (nm : string) : Prop :=
  ParserXml.solid nm /\ nm <> EmptyString.

(** The names with the separators between them. *)
Fixpoint key_text (first : string) (more : list (string * string))
    : string :=
  match more with
  | [] => first
  | (sep, nm) :: rest => (first ++ sep ++ key_text nm rest)%string
  end.

Lemma strpbrk_solid (nm rest : string) :
  ParserXml.solid nm ->
  strpbrk (nm ++ rest) separators = strpbrk rest separators.
Proof.
  induction nm as [|c nm IH]; [reflexivity|].
  cbn [append strpbrk ParserXml.solid]. intros [Hc Hs].
  destruct (in_accept c separators) eqn:E.
  - apply separator_is_space in E. congruence.
  - apply IH, Hs.
Qed.

Lemma skip_space_name (nm rest : string) :
  key_name nm -> skip_space (nm ++ rest) = (nm ++ rest)%string.
Proof.
  intros [Hs Hne]. destruct nm as [|c nm]; [congruence|].
  cbn in *. destruct Hs as [-> _]. reflexivity.
Qed.

Lemma key_text_name (first : string) (more : list (string * string)) :
  key_name first ->
  exists rest, key_text first more = (first ++ rest)%string.
Proof.
  intros _. destruct more as [|[sep nm] rest]; cbn.
  - exists "". symmetry. apply ParserXml.string_app_nil.
  - eexists. reflexivity.
Qed.

Lemma keys_loop_counts (more : list (string * string)) :
  forall (first : string) (keys_size : Z),
    key_name first ->
    Forall (fun p => separator (fst p) /\ key_name (snd p)) more ->
    keys_loop (key_text first more) keys_size
    = keys_size + Z.of_nat (List.length more).
Proof.
  induction more as [|[sep nm] rest IH]; intros first keys_size Hf Hall.
  - cbn [key_text List.length]. rewrite keys_loop_step.
    rewrite <- (ParserXml.string_app_nil first).
    rewrite strpbrk_solid by apply Hf. cbn. lia.
  - apply Forall_cons_iff in Hall as [[Hsep Hnm] Hall].
    cbn [fst snd] in *. cbn [key_text List.length].
    rewrite keys_loop_step, strpbrk_solid by apply Hf.
    destruct Hsep as [Hblank Hhead].
    destruct sep as [|c sep]; [contradiction|].
    cbn [append strpbrk]. rewrite Hhead.
    change (String c (sep ++ key_text nm rest))
      with (String c sep ++ key_text nm rest)%string.
    rewrite ParserXml.skip_space_blank by exact Hblank.
    destruct (key_text_name nm rest Hnm) as [tail Htail].
    rewrite Htail, skip_space_name by exact Hnm.
    rewrite <- Htail, IH by assumption. lia.
Qed.

(** X23.  The number of keys [yang_read_key] allocates room for is the number
    of names in the key statement, when the names are separated by white space
    that starts with a space, a tab or a newline and the text has no white
    space at either end. *)
Theorem yang_read_key_counts_the_names (calloc_fails : Z -> bool)
    (unres_schema_add_str_fails : string -> bool) (first : string)
    (more : list (string * string)) :
  key_name first ->
  Forall (fun p => separator (fst p) /\ key_name (snd p)) more ->
  (List.length more < 255)%nat ->
  calloc_fails (Z.of_nat (S (List.length more))) = false ->
  unres_schema_add_str_fails (key_text first more) = false ->
  yang_read_key calloc_fails unres_schema_add_str_fails
    (key_text first more) 0
  = EXIT_SUCCESS (Z.of_nat (S (List.length more))).
Proof.
  intros Hf Hall _ Hc Hu. unfold yang_read_key.
  rewrite keys_loop_counts by assumption.
  replace (0 + Z.of_nat (List.length more) + 1)
    with (Z.of_nat (S (List.length more))) by lia.
  rewrite Hc, Hu. reflexivity.
Qed.

Lemma yang_read_key_counts_the_names_witness :
  yang_read_key (fun _ => false) (fun _ => false) "name  port" 0
  = EXIT_SUCCESS 2.
Proof.
  apply (yang_read_key_counts_the_names (fun _ => false) (fun _ => false)
           "name" [("  ", "port")]).
  - split; [cbn; auto|discriminate].
  - constructor; [|constructor]. split.
    + split; [cbn; auto|reflexivity].
    + split; [cbn; auto 10|discriminate].
  - cbn. lia.
  - reflexivity.
  - reflexivity.
Defined.

(** ** Imports *)

Lemma circular_check_count (stack : list c_string) (value : c_string)
    (count : nat) :
  Forall (fun p => str_addr p <> str_addr value) stack ->
  circular_check stack value count = Some (count + List.length stack)%nat.
Proof.
  revert count. induction stack as [|p rest IH]; intros count H; cbn.
  - f_equal. lia.
  - apply Forall_cons_iff in H as [Hp H].
    destruct (Pos.eqb_spec (str_addr value) (str_addr p)) as [E|_];
      [congruence|].
    rewrite IH by exact H. f_equal. lia.
Qed.

(** Whether the module [m] is among the modules imported so far. *)
Definition imported (module : lys_module) (m : string) : bool :=
  existsb
    (fun i =>
       match imp_module i with
       | Some m' => String.eqb m' m
       | None => false
       end)
    (imp module).

Lemma imported_strcmp (module : lys_module) (m : string) :
  existsb
    (fun i =>
       match imp_module i with
       | Some m' => match strcmp m' m with Eq => true | _ => false end
       | None => false
       end)
    (imp module)
  = imported module m.
Proof.
  unfold imported. induction (imp module) as [|i l IH]; [reflexivity|].
  cbn [existsb]. rewrite IH. f_equal.
  destruct (imp_module i) as [m'|]; [|reflexivity].
  unfold strcmp. destruct (String.eqb_spec m' m) as [->|Hne].
  - pose proof (String.compare_antisym m m) as Ha.
    destruct (String.compare m m); cbn in Ha; congruence.
  - destruct (String.compare m' m) eqn:E; try reflexivity.
    apply String.compare_eq_iff in E. contradiction.
Qed.

Lemma store_at_append {A : Type} (l : list A) (x : A) :
  store_at l (List.length l) x = l ++ [x].
Proof.
  unfold store_at. rewrite firstn_all, skipn_all2 by lia. reflexivity.
Qed.

(** The loop over the earlier entries, when the array and its counter are
    in step. *)
Lemma duplicate_import_in_step (module : lys_module) (entry : lys_import)
    (m : string) :
  imp_module entry = Some m ->
  (List.length (imp module) < 255)%nat ->
  duplicate_import (imp module ++ [entry])
    (uint8_succ (Z.of_nat (List.length (imp module))))
  = imported module m.
Proof.
  intros Hm Hlen. unfold duplicate_import, uint8_succ.
  rewrite Z.mod_small by lia.
  replace (Z.to_nat (Z.of_nat (List.length (imp module)) + 1 - 1))
    with (List.length (imp module)) by lia.
  rewrite firstn_app, firstn_all, Nat.sub_diag. cbn [firstn].
  rewrite app_nil_r, app_nth2, Nat.sub_diag by lia. cbn [nth].
  rewrite Hm. apply imported_strcmp.
Qed.

(** X24.  The import of a module that the context already holds, into a
    module with fewer than 255 imports, when [ly_realloc] gives the stack of
    the modules being parsed room for one more name: the name is pushed on
    the stack and taken off again, so the stack is as it was; the import is
    entered in the module; and when the module was imported before, the call
    fails ("Importing module repeatedly") with the second entry left counted.
    When [ly_realloc] fails, the call fails and the stack is gone. *)
Theorem import_of_a_loaded_module (ly_realloc_fails : Z -> bool)
    (ly_ctx_get_module : ly_ctx -> string -> option string -> option string)
    (ly_ctx_load_module :
       ly_ctx -> string -> option string -> option (ly_ctx * option string))
    (ctx : ly_ctx) (module : lys_module) (new_imp : lys_import)
    (value : c_string) (m : string) :
  Forall (fun p => str_addr p <> str_addr value) (parsing ctx) ->
  imp_size module = Z.of_nat (List.length (imp module)) ->
  (List.length (imp module) < 255)%nat ->
  ly_ctx_get_module (set_parsing ctx (parsing ctx ++ [value]))
    (str_text value)
    (match imp_rev new_imp with EmptyString => None | r => Some r end)
  = Some m ->
  yang_fill_import ly_realloc_fails ly_ctx_get_module ly_ctx_load_module ctx
    module new_imp value
  = if ly_realloc_fails (Z.of_nat (List.length (parsing ctx)) + 2)
    then Some (set_parsing ctx [], module,
               Import_failure Memory_allocation_failed)
    else
      Some (ctx,
            set_imp module
              (imp module
                 ++ [{| imp_prefix := imp_prefix new_imp;
                        imp_rev := imp_rev new_imp;
                        imp_module := Some m |}])
              (imp_size module + 1),
            if imported module m
            then Import_failure Importing_repeatedly
            else Import_success).
Proof.
  intros Hstack Hsize Hlen Hget. unfold yang_fill_import.
  rewrite circular_check_count by exact Hstack.
  cbn [Nat.add].
  replace (Z.of_nat (S (List.length (parsing ctx))) + 1)
    with (Z.of_nat (List.length (parsing ctx)) + 2) by lia.
  destruct (ly_realloc_fails _); [reflexivity|].
  rewrite Nat.sub_succ, Nat.sub_0_r, firstn_all, Hget.
  cbn [parsing set_parsing].
  rewrite firstn_app, firstn_all, Nat.sub_diag. cbn [firstn].
  rewrite app_nil_r, Hsize, Nat2Z.id, store_at_append.
  rewrite (duplicate_import_in_step module
             {| imp_prefix := imp_prefix new_imp; imp_rev := imp_rev new_imp;
                imp_module := Some m |} m eq_refl Hlen).
  assert (Hctx : set_parsing (set_parsing ctx (parsing ctx ++ [value]))
                   (parsing ctx) = ctx) by (destruct ctx; reflexivity).
  assert (Hnext : uint8_succ (Z.of_nat (List.length (imp module)))
                  = Z.of_nat (List.length (imp module)) + 1)
    by (unfold uint8_succ; apply Z.mod_small; lia).
  rewrite Hctx, Hnext. destruct (imported module m); reflexivity.
Qed.

(** The module [A], which imports [B] under the prefix [b]. *)
Definition A_with_B : lys_module :=
  {| name := "A"; rev := []; rev_size := 0;
     imp := [ {| imp_prefix := "b"; imp_rev := "";
                 imp_module := Some "B" |} ];
     imp_size := 1 |}.

Lemma import_of_a_loaded_module_witness :
  yang_fill_import (fun _ => false) (fun _ n _ => Some n)
    (fun c _ _ => Some (c, None))
    {| parsing := [ {| str_addr := 1; str_text := "A" |} ];
       models := ["B"]; heap_next := 3 |}
    A_with_B
    {| imp_prefix := "b2"; imp_rev := ""; imp_module := None |}
    {| str_addr := 2; str_text := "B" |}
  = Some ({| parsing := [ {| str_addr := 1; str_text := "A" |} ];
             models := ["B"]; heap_next := 3 |},
          set_imp A_with_B
            [ {| imp_prefix := "b"; imp_rev := ""; imp_module := Some "B" |};
              {| imp_prefix := "b2"; imp_rev := "";
                 imp_module := Some "B" |} ]
            2,
          Import_failure Importing_repeatedly).
Proof.
  apply (import_of_a_loaded_module (fun _ => false) (fun _ n _ => Some n)
           (fun c _ _ => Some (c, None))
           {| parsing := [ {| str_addr := 1; str_text := "A" |} ];
              models := ["B"]; heap_next := 3 |}
           A_with_B
           {| imp_prefix := "b2"; imp_rev := ""; imp_module := None |}
           {| str_addr := 2; str_text := "B" |} "B").
  - repeat constructor; discriminate.
  - reflexivity.
  - cbn. lia.
  - reflexivity.
Defined.

(** ** The unique statements of a list *)

(** [lydict_insert(ctx, value, len)]: the first [len] characters of
    [value] as a dictionary string.  The dictionary is another
    compilation unit; as the comment at the call says, with a length of
    zero it counts the size of [value] on its own. *)
Definition lydict_insert (value : string) (len : nat) : string :=
  match len with
  | O => value
  | _ => ParserXml.string_take len value
  end.

Section ReadUnique.

(** [calloc] returns NULL; [ly_strequal(s1, s2, 1)] on two dictionary
    strings; [unres_schema_add_str] on the list of unresolved items, whose
    result the function ignores; [resolve_unique] returns non-zero. *)
Variable calloc_fails : Z -> bool.
Variable ly_strequal : string -> string -> bool.
Variable unres_schema : Type.
Variable unres_schema_add_str : unres_schema -> string -> unres_schema.
Variable resolve_unique_fails : string -> bool.

(** The loop [for (i = 0; i < unique->expr_size; i++)], with [n] runs
    left: [value] is the text at the pointer [value], [expr] the entries
    [unique->expr[0..i-1]].  [vaux - value] is the length of the text
    before [vaux]. *)
Fixpoint unique_tokens (n : nat) (value : string) (expr : list string)
    (unres : option unres_schema)
    : outcome (list string * option unres_schema) :=
  match n with
  | O => EXIT_SUCCESS (expr, unres)
  | S n' =>
      let vaux :=
        match strpbrk value separators with
        | Some v => v
        | None => value
        end in
      let token :=
        lydict_insert value (String.length value - String.length vaux) in
      if existsb (fun e => ly_strequal e token) expr
      then EXIT_FAILURE (Some LYE_INARG)
      else
        match unres with
        | Some u =>
            unique_tokens n' (skip_space vaux) (expr ++ [token])
              (Some (unres_schema_add_str u token))
        | None =>
            if resolve_unique_fails value then EXIT_FAILURE None
            else unique_tokens n' (skip_space vaux) (expr ++ [token]) None
        end
  end.

(** The body of the loop over [list->unique]: [s] is the argument of the
    statement ([ident->s]), [expr_size] the counter as it stood; the result
    is [unique->expr].  The counter is taken not to overflow (the
    structure is declared in tree_schema.h). *)
Definition unique_statement (s : string) (expr_size : Z)
    (unres : option unres_schema)
    : outcome (list string * option unres_schema) :=
  let expr_size := keys_loop s expr_size + 1 in
  if calloc_fails expr_size then EXIT_FAILURE None
  else unique_tokens (Z.to_nat expr_size) s [] unres.

(** [yang_read_unique(module, list, unres)]: [unique] holds, for each
    entry of [list->unique], the argument the parser left in it and its
    [expr_size]; the result is the array of the [expr]. *)
Fixpoint yang_read_unique (unique : list (string * Z))
    (unres : option unres_schema) : outcome (list (list string)) :=
  match unique with
  | [] => EXIT_SUCCESS []
  | (s, expr_size) :: rest =>
      match unique_statement s expr_size unres with
      | EXIT_SUCCESS (expr, unres) =>
          match yang_read_unique rest unres with
          | EXIT_SUCCESS exprs => EXIT_SUCCESS (expr :: exprs)
          | r => r
          end
      | EXIT_FAILURE e => EXIT_FAILURE e
      | UNDEFINED => UNDEFINED
      | TIMEOUT => TIMEOUT
      end
  end.

End ReadUnique.

Arguments unique_tokens ly_strequal {unres_schema} _ _ _ _ _ _.
Arguments unique_statement calloc_fails ly_strequal {unres_schema} _ _ _ _ _.
Arguments yang_read_unique calloc_fails ly_strequal {unres_schema} _ _ _ _.

(** The names of a statement, in the order of the text. *)
Definition names_of (first : string) (more : list (string * string))
    : list string :=
  first :: map snd more.

(** What the loop over the names comes to: each name is stored unless an
    earlier entry equals it. *)
Fixpoint store_names {U : Type} (add : U -> string -> U)
    (names expr : list string) (u : U) : outcome (list string * option U) :=
  match names with
  | [] => EXIT_SUCCESS (expr, Some u)
  | nm :: rest =>
      if existsb (fun e => String.eqb e nm) expr
      then EXIT_FAILURE (Some LYE_INARG)
      else store_names add rest (expr ++ [nm]) (add u nm)
  end.

Lemma string_take_app (a b : string) :
  ParserXml.string_take (String.length a) (a ++ b) = a.
Proof. induction a as [|c a IH]; cbn; [destruct b|]; congruence. Qed.

Lemma strpbrk_separator (sep rest : string) :
  separator sep ->
  strpbrk (sep ++ rest) separators = Some (sep ++ rest)%string.
Proof.
  intros [_ Hhead]. destruct sep as [|c sep]; [contradiction|].
  cbn [append strpbrk]. rewrite Hhead. reflexivity.
Qed.

Lemma strpbrk_name (nm : string) :
  ParserXml.solid nm -> strpbrk nm separators = None.
Proof.
  intros H. rewrite <- (ParserXml.string_app_nil nm).
  rewrite strpbrk_solid by exact H. reflexivity.
Qed.

Lemma existsb_strequal (f : string -> string -> bool) (t : string)
    (l : list string) :
  (forall a b, f a b = String.eqb a b) ->
  existsb (fun e => f e t) l = existsb (fun e => String.eqb e t) l.
Proof.
  intros H. induction l as [|a l IH]; cbn; [reflexivity|].
  rewrite H, IH. reflexivity.
Qed.

Lemma unique_tokens_store (ly_strequal : string -> string -> bool)
    (U : Type) (add : U -> string -> U) (fails : string -> bool)
    (more : list (string * string)) :
  (forall a b, ly_strequal a b = String.eqb a b) ->
  forall (first : string) (expr : list string) (u : U),
    key_name first ->
    Forall (fun p => separator (fst p) /\ key_name (snd p)) more ->
    unique_tokens ly_strequal add fails (S (List.length more))
      (key_text first more) expr (Some u)
    = store_names add (names_of first more) expr u.
Proof.
  intros Heq.
  induction more as [|[sep nm] rest IH]; intros first expr u Hf Hall.
  - cbn [key_text List.length unique_tokens names_of map store_names].
    rewrite strpbrk_name by apply Hf.
    rewrite Nat.sub_diag. cbn [lydict_insert].
    rewrite (existsb_strequal ly_strequal first expr Heq).
    destruct (existsb _ expr); reflexivity.
  - apply Forall_cons_iff in Hall as [[Hsep Hnm] Hall].
    cbn [fst snd] in *.
    cbn [key_text List.length names_of map store_names].
    change (unique_tokens ly_strequal add fails (S (S (List.length rest)))
              (first ++ sep ++ key_text nm rest) expr (Some u))
      with (let value := (first ++ sep ++ key_text nm rest)%string in
            let vaux :=
              match strpbrk value separators with
              | Some v => v
              | None => value
              end in
            let token :=
              lydict_insert value
                (String.length value - String.length vaux) in
            if existsb (fun e => ly_strequal e token) expr
            then EXIT_FAILURE (Some LYE_INARG)
            else unique_tokens ly_strequal add fails (S (List.length rest))
                   (skip_space vaux) (expr ++ [token])
                   (Some (add u token))).
    cbv zeta.
    rewrite strpbrk_solid by apply Hf.
    rewrite strpbrk_separator by exact Hsep.
    rewrite !ParserXml.string_app_length.
    replace (String.length first
             + (String.length sep + String.length (key_text nm rest))
             - (String.length sep + String.length (key_text nm rest)))%nat
      with (String.length first) by lia.
    assert (Hlen : String.length first <> O).
    { destruct Hf as [_ Hne]. destruct first; [congruence|discriminate]. }
    unfold lydict_insert.
    destruct (String.length first) as [|n] eqn:E; [congruence|].
    rewrite <- E, string_take_app.
    rewrite (existsb_strequal ly_strequal first expr Heq).
    destruct (existsb _ expr); [reflexivity|].
    destruct Hsep as [Hblank _].
    rewrite ParserXml.skip_space_blank by exact Hblank.
    destruct (key_text_name nm rest Hnm) as [tail Htail].
    rewrite Htail, skip_space_name by exact Hnm.
    rewrite <- Htail. apply IH; assumption.
Qed.

Lemma store_names_distinct {U : Type} (add : U -> string -> U)
    (names : list string) :
  forall (expr : list string) (u : U),
    NoDup (expr ++ names) ->
    store_names add names expr u
    = EXIT_SUCCESS (expr ++ names, Some (fold_left add names u)).
Proof.
  induction names as [|nm rest IH]; intros expr u Hnd; cbn.
  - rewrite app_nil_r. reflexivity.
  - assert (Hno : existsb (fun e => String.eqb e nm) expr = false).
    { apply not_true_is_false. intros He.
      apply existsb_exists in He. destruct He as (e & Hin & He).
      apply String.eqb_eq in He. subst e.
      apply NoDup_remove_2 in Hnd. apply Hnd, in_or_app. left. exact Hin. }
    rewrite Hno, IH by (rewrite <- app_assoc; exact Hnd).
    rewrite <- app_assoc. reflexivity.
Qed.

Lemma store_names_repeated {U : Type} (add : U -> string -> U)
    (names : list string) :
  forall (expr : list string) (u : U),
    ~ NoDup (expr ++ names) -> NoDup expr ->
    store_names add names expr u = EXIT_FAILURE (Some LYE_INARG).
Proof.
  induction names as [|nm rest IH]; intros expr u Hnd Hexpr; cbn.
  - rewrite app_nil_r in Hnd. contradiction.
  - destruct (existsb (fun e => String.eqb e nm) expr) eqn:He;
      [reflexivity|].
    apply IH.
    + rewrite <- app_assoc. exact Hnd.
    + apply NoDup_app; [exact Hexpr|repeat constructor; intros []|].
      intros a Ha [E|[]]. subst a.
      assert (existsb (fun e => String.eqb e nm) expr = true); [|congruence].
      apply existsb_exists. exists nm. split; [exact Ha|].
      apply String.eqb_refl.
Qed.

Lemma names_distinct_or_not (l : list string) : NoDup l \/ ~ NoDup l.
Proof.
  induction l as [|a l [IH|IH]].
  - left. constructor.
  - destruct (in_dec string_dec a l) as [Hin|Hin].
    + right. intros H. apply NoDup_cons_iff in H as [H _]. contradiction.
    + left. constructor; assumption.
  - right. intros H. apply NoDup_cons_iff in H as [_ H]. contradiction.
Qed.

Definition well_formed (st : string * list (string * string)) : Prop :=
  key_name (fst st)
  /\ Forall (fun p => separator (fst p) /\ key_name (snd p)) (snd st)
  /\ (List.length (snd st) < 255)%nat.

Lemma unique_statement_names (calloc_fails : Z -> bool)
    (ly_strequal : string -> string -> bool) (U : Type)
    (add : U -> string -> U) (fails : string -> bool)
    (st : string * list (string * string)) (u : U) :
  (forall n, calloc_fails n = false) ->
  (forall a b, ly_strequal a b = String.eqb a b) ->
  well_formed st ->
  unique_statement calloc_fails ly_strequal add fails
    (key_text (fst st) (snd st)) 0 (Some u)
  = store_names add (names_of (fst st) (snd st)) [] u.
Proof.
  intros Hc Heq (Hf & Hall & _). unfold unique_statement.
  rewrite keys_loop_counts, Hc by assumption.
  replace (Z.to_nat (0 + Z.of_nat (List.length (snd st)) + 1))
    with (S (List.length (snd st))) by lia.
  apply unique_tokens_store; assumption.
Qed.

(** X25.  [yang_read_unique], given a list of unresolved items, stores the
    names of each unique statement in the order of the text when no statement
    repeats a name, and fails with INARG when one does. The statements hold
    names without white space, separated by white space that starts with a
    space, a tab or a newline. *)
Theorem yang_read_unique_rejects_a_repeated_name
    (calloc_fails : Z -> bool) (ly_strequal : string -> string -> bool)
    (U : Type) (add : U -> string -> U) (fails : string -> bool)
    (stmts : list (string * list (string * string))) (u : U) :
  (forall n, calloc_fails n = false) ->
  (forall a b, ly_strequal a b = String.eqb a b) ->
  Forall well_formed stmts ->
  let run :=
    yang_read_unique calloc_fails ly_strequal add fails
      (map (fun st => (key_text (fst st) (snd st), 0)) stmts) (Some u) in
  (Forall (fun st => NoDup (names_of (fst st) (snd st))) stmts ->
   run = EXIT_SUCCESS (map (fun st => names_of (fst st) (snd st)) stmts))
  /\ (Exists (fun st => ~ NoDup (names_of (fst st) (snd st))) stmts ->
      run = EXIT_FAILURE (Some LYE_INARG)).
Proof.
  intros Hc Heq Hwf. cbv zeta. revert u.
  induction Hwf as [|st rest Hst Hrest IH]; intros u.
  - split; [reflexivity|]. intros H. inversion H.
  - cbn [map yang_read_unique].
    rewrite (unique_statement_names calloc_fails ly_strequal U add fails st u
               Hc Heq Hst).
    destruct (names_distinct_or_not (names_of (fst st) (snd st))) as [Hnd|Hnd].
    + rewrite store_names_distinct by exact Hnd. cbn [app].
      destruct (IH (fold_left add (names_of (fst st) (snd st)) u))
        as [Hall Hex].
      split.
      * intros H. apply Forall_cons_iff in H as [_ H].
        rewrite (Hall H). reflexivity.
      * intros H. apply Exists_cons in H as [H|H]; [contradiction|].
        rewrite (Hex H). reflexivity.
    + rewrite store_names_repeated by (try exact Hnd; constructor).
      split; [|reflexivity].
      intros H. apply Forall_cons_iff in H as [H _]. contradiction.
Qed.

Lemma yang_read_unique_rejects_a_repeated_name_witness :
  yang_read_unique (fun _ => false) String.eqb (fun (u : unit) _ => u)
    (fun _ => false) [("ip port", 0); ("name", 0)] (Some tt)
  = EXIT_SUCCESS [["ip"; "port"]; ["name"]]
  /\ yang_read_unique (fun _ => false) String.eqb (fun (u : unit) _ => u)
       (fun _ => false) [("ip port ip", 0)] (Some tt)
     = EXIT_FAILURE (Some LYE_INARG).
Proof.
  assert (Hsp : separator " ") by (split; [cbn; auto|reflexivity]).
  assert (Hip : key_name "ip") by (split; [cbn; auto|discriminate]).
  assert (Hport : key_name "port") by (split; [cbn; auto 10|discriminate]).
  assert (Hname : key_name "name") by (split; [cbn; auto 10|discriminate]).
  assert (Hwf : forall first more,
            key_name first ->
            Forall (fun p => separator (fst p) /\ key_name (snd p)) more ->
            (List.length more < 255)%nat ->
            well_formed (first, more))
    by (intros; split; [assumption|split; assumption]).
  split.
  - apply (yang_read_unique_rejects_a_repeated_name (fun _ => false)
             String.eqb unit (fun u _ => u) (fun _ => false)
             [("ip", [(" ", "port")]); ("name", [])] tt).
    + reflexivity.
    + reflexivity.
    + constructor; [|constructor; [|constructor]].
      * apply Hwf; [exact Hip| |cbn; lia].
        constructor; [split; assumption|constructor].
      * apply Hwf; [exact Hname|constructor|cbn; lia].
    + constructor; [|constructor; [|constructor]]; cbn.
      * repeat constructor; cbn; intuition discriminate.
      * repeat constructor; cbn; intuition discriminate.
  - apply (yang_read_unique_rejects_a_repeated_name (fun _ => false)
             String.eqb unit (fun u _ => u) (fun _ => false)
             [("ip", [(" ", "port"); (" ", "ip")])] tt).
    + reflexivity.
    + reflexivity.
    + constructor; [|constructor].
      apply Hwf; [exact Hip| |cbn; lia].
      constructor; [split; assumption|].
      constructor; [split; assumption|constructor].
    + constructor. cbn. intros H. inversion H as [|? ? Hin _]; subst.
      apply Hin. cbn. auto.
Defined.

End ParserYang.
